(** * ShakeyBot: transposition table, time manager, aspiration loop and UCI output

    A shallow embedding of the parts of the engine that the specification
    makes checkable statements about:

    - [src/transposition.cpp], [include/fast_engine/transposition.hpp]:
      the cluster-associative transposition table;
    - [src/engine.cpp]: [compute_time_budget] and the aspiration-window part
      of [Engine::search_position_impl];
    - [apps/fast_engine_uci.cpp]: the score formatter and the choice of the
      move printed after [bestmove].

    The last part, "Further properties", goes on to the code around these:
    the loop over depths of [Engine::search_position_impl], [is_legal_move]
    and [build_pv_uci] of [src/engine.cpp], and the text helpers and the
    [position] and [go] commands of [apps/fast_engine_uci.cpp].

    Machine integers are mathematical integers with the wrap-around of every
    narrowing conversion written out.  [std::size_t] is taken to be 64 bits
    wide (the branch [SIZE_MAX > 0xFFFFFFFFu] of [next_pow2]). *)

From Stdlib Require Import ZArith List Lia Bool String Ascii.
From Stdlib Require Import DecimalString DecimalPos DecimalZ.
From stdpp Require Import base list.

Local Open Scope Z_scope.

(** ** Machine integers *)

Definition wrap_unsigned (w x : Z) : Z := x mod 2 ^ w.

Definition wrap_signed (w x : Z) : Z :=
  (x + 2 ^ (w - 1)) mod 2 ^ w - 2 ^ (w - 1).

Definition to_u8 : Z -> Z := wrap_unsigned 8.
Definition to_u16 : Z -> Z := wrap_unsigned 16.
Definition to_size_t : Z -> Z := wrap_unsigned 64.
Definition to_i8 : Z -> Z := wrap_signed 8.
Definition to_int : Z -> Z := wrap_signed 32.
Definition to_long_long : Z -> Z := wrap_signed 64.

Definition INT_MAX : Z := 2147483647.
Definition INT_MIN : Z := -2147483648.

Definition in_int (x : Z) : Prop := INT_MIN <= x <= INT_MAX.

(** [std::clamp(v, lo, hi)] *)
Definition clamp (v lo hi : Z) : Z :=
  if v <? lo then lo else if hi <? v then hi else v.

(** ** Scores ([types.hpp]) *)

Definition SCORE_INF : Z := 1000000000.
Definition MATE_SCORE : Z := 1000000.
Definition MATE_BOUND : Z := MATE_SCORE - 1000.

(** ** Moves

    [chess::Move] comes from the rules library; the engine only uses its raw
    16-bit value, and [transposition.hpp] fixes [0 == NO_MOVE]. *)

Definition Move : Type := Z.
Definition NO_MOVE : Move := 0.

(** ** Transposition table: data ([transposition.hpp]) *)

Definition TT_EXACT : Z := 0.
Definition TT_LOWERBOUND : Z := 1.
Definition TT_UPPERBOUND : Z := 2.

Module TTEntry.
Record t : Type := mk
  { key : Z;          (* std::uint64_t *)
    depth : Z;        (* int *)
    flag : Z;         (* TTFlag : std::uint8_t *)
    value : Z;        (* Score = std::int32_t *)
    bestMove : Move;
    hasMove : bool }.

(** [TTEntry() = default] *)
Definition default : t := mk 0 0 TT_EXACT 0 NO_MOVE false.
End TTEntry.

Module PackedEntry.
Record t : Type := mk
  { value_cp : Z;     (* std::int32_t *)
    key16 : Z;        (* std::uint16_t *)
    move16 : Z;       (* std::uint16_t *)
    depth : Z;        (* std::int8_t, -1 == empty *)
    flag : Z;         (* std::uint8_t *)
    gen : Z;          (* std::uint8_t *)
    hasMove : Z }.    (* std::uint8_t, 0/1 *)

(** [PackedEntry{}] *)
Definition default : t := mk 0 0 0 (-1) 0 0 0.
End PackedEntry.

Definition CLUSTER_SIZE : Z := 4.

(** [static_assert(sizeof(PackedEntry) == 12)] *)
Definition sizeof_PackedEntry : Z := 12.

Module Bucket.
(** [std::array<PackedEntry, CLUSTER_SIZE> e] *)
Record t : Type := mk { e : list PackedEntry.t }.

(** [Bucket{}] *)
Definition default : t := mk (replicate (Z.to_nat CLUSTER_SIZE) PackedEntry.default).
End Bucket.

Definition sizeof_Bucket : Z := CLUSTER_SIZE * sizeof_PackedEntry.

Record TranspositionTable : Type := mkTT
  { table_ : list Bucket.t;
    mask_ : Z;               (* std::size_t *)
    capacity_entries_ : Z;   (* std::size_t *)
    gen_ : Z }.              (* std::uint8_t *)

(** [TranspositionTable() = default] *)
Definition TranspositionTable_default : TranspositionTable := mkTT [] 0 0 1.

(** Indexing a [std::vector] outside its bounds has no defined result; the
    model reports it instead of inventing one. *)
Inductive checked (A : Type) : Type :=
| Ok (a : A)
| OutOfBounds.
Arguments Ok {A} a.
Arguments OutOfBounds {A}.

(** ** Transposition table: operations ([transposition.cpp]) *)

Definition next_pow2 (x : Z) : Z :=
  if x <=? 1 then 1
  else
    let x := to_size_t (x - 1) in
    let x := Z.lor x (Z.shiftr x 1) in
    let x := Z.lor x (Z.shiftr x 2) in
    let x := Z.lor x (Z.shiftr x 4) in
    let x := Z.lor x (Z.shiftr x 8) in
    let x := Z.lor x (Z.shiftr x 16) in
    let x := Z.lor x (Z.shiftr x 32) in
    to_size_t (x + 1).

Definition resize (maxEntries : Z) (t : TranspositionTable) : TranspositionTable :=
  let maxEntries := if maxEntries <? CLUSTER_SIZE then CLUSTER_SIZE else maxEntries in
  let buckets := maxEntries / CLUSTER_SIZE in
  let buckets := if buckets <? 1 then 1 else buckets in
  let buckets := next_pow2 buckets in
  {| table_ := replicate (Z.to_nat buckets) Bucket.default;
     mask_ := to_size_t (buckets - 1);
     capacity_entries_ := to_size_t (buckets * CLUSTER_SIZE);
     gen_ := 1 |}.

Definition entries_for_mb (mb : Z) : Z :=
  let mb := if mb <? 1 then 1 else mb in
  let bytes := to_size_t (to_size_t (mb * 1024) * 1024) in
  let buckets := bytes / sizeof_Bucket in
  let buckets := if buckets <? 1 then 1 else buckets in
  let buckets := next_pow2 buckets in
  to_size_t (buckets * CLUSTER_SIZE).

Definition mb_for_entries (entries : Z) : Z :=
  let entries := if entries <? CLUSTER_SIZE then CLUSTER_SIZE else entries in
  let buckets := entries / CLUSTER_SIZE in
  let buckets := if buckets <? 1 then 1 else buckets in
  let buckets := next_pow2 buckets in
  let bytes := to_size_t (buckets * sizeof_Bucket) in
  bytes / (1024 * 1024).

Definition clear (t : TranspositionTable) : TranspositionTable :=
  let g := to_u8 (gen_ t + 1) in
  if g =? 0 then
    {| table_ := map (fun b => Bucket.mk (map (fun _ => PackedEntry.default) (Bucket.e b)))
                     (table_ t);
       mask_ := mask_ t;
       capacity_entries_ := capacity_entries_ t;
       gen_ := 1 |}
  else
    {| table_ := table_ t;
       mask_ := mask_ t;
       capacity_entries_ := capacity_entries_ t;
       gen_ := g |}.

Definition key_signature16 (key : Z) : Z := to_u16 (Z.shiftr key 48).

Definition bucket_index (t : TranspositionTable) (key : Z) : Z :=
  Z.land (to_size_t key) (mask_ t).

(** The entry [probe] builds from a matching slot. *)
Definition unpack (key : Z) (pe : PackedEntry.t) : TTEntry.t :=
  let hasMove := negb (PackedEntry.hasMove pe =? 0) in
  {| TTEntry.key := key;
     TTEntry.depth := PackedEntry.depth pe;
     TTEntry.flag := PackedEntry.flag pe;
     TTEntry.value := PackedEntry.value_cp pe;
     TTEntry.bestMove := if hasMove then PackedEntry.move16 pe else NO_MOVE;
     TTEntry.hasMove := hasMove |}.

(** The three [continue] tests shared by [probe] and the first loop of
    [store]: the slot is skipped unless all three pass. *)
Definition slot_hit (g sig : Z) (pe : PackedEntry.t) : bool :=
  if negb (PackedEntry.gen pe =? g) then false
  else if PackedEntry.depth pe <? 0 then false
  else if negb (PackedEntry.key16 pe =? sig) then false
  else true.

Fixpoint probe_bucket (g sig key : Z) (es : list PackedEntry.t) : option TTEntry.t :=
  match es with
  | [] => None
  | pe :: rest =>
      if slot_hit g sig pe then Some (unpack key pe)
      else probe_bucket g sig key rest
  end.

Definition probe (t : TranspositionTable) (key : Z) : checked (option TTEntry.t) :=
  match table_ t with
  | [] => Ok None
  | _ :: _ =>
      let idx := bucket_index t key in
      let sig := key_signature16 key in
      match table_ t !! Z.to_nat idx with
      | None => OutOfBounds
      | Some b => Ok (probe_bucket (gen_ t) sig key (Bucket.e b))
      end
  end.

(** The lambda [write] of [store]. *)
Definition write (g sig : Z) (entry : TTEntry.t) (pe : PackedEntry.t) : PackedEntry.t :=
  {| PackedEntry.gen := g;
     PackedEntry.key16 := sig;
     PackedEntry.depth := to_i8 (clamp (TTEntry.depth entry) 0 127);
     PackedEntry.flag := TTEntry.flag entry;
     PackedEntry.value_cp := TTEntry.value entry;
     PackedEntry.hasMove := if TTEntry.hasMove entry then 1 else 0;
     PackedEntry.move16 := if TTEntry.hasMove entry then TTEntry.bestMove entry else NO_MOVE |}.

(** The test [replace] of the first loop of [store]. *)
Definition replace (entry : TTEntry.t) (pe : PackedEntry.t) : bool :=
  let oldDepth := PackedEntry.depth pe in
  let oldExact := PackedEntry.flag pe =? TT_EXACT in
  let newExact := TTEntry.flag entry =? TT_EXACT in
  (TTEntry.depth entry >? oldDepth)
  || ((TTEntry.depth entry =? oldDepth) && newExact && negb oldExact).

(** The [else] branch of the first loop: best-move fill-in. *)
Definition fill_move (entry : TTEntry.t) (pe : PackedEntry.t) : PackedEntry.t :=
  if TTEntry.hasMove entry && (PackedEntry.hasMove pe =? 0) then
    {| PackedEntry.value_cp := PackedEntry.value_cp pe;
       PackedEntry.key16 := PackedEntry.key16 pe;
       PackedEntry.move16 := TTEntry.bestMove entry;
       PackedEntry.depth := PackedEntry.depth pe;
       PackedEntry.flag := PackedEntry.flag pe;
       PackedEntry.gen := PackedEntry.gen pe;
       PackedEntry.hasMove := 1 |}
  else pe.

(** Loop 1 of [store]: same signature in the current generation.  [None]
    when the loop runs to its end without reaching [return]. *)
Fixpoint store_same_key (g sig : Z) (entry : TTEntry.t) (es : list PackedEntry.t)
  : option (list PackedEntry.t) :=
  match es with
  | [] => None
  | pe :: rest =>
      if slot_hit g sig pe then
        Some ((if replace entry pe then write g sig entry pe else fill_move entry pe) :: rest)
      else
        match store_same_key g sig entry rest with
        | Some rest' => Some (pe :: rest')
        | None => None
        end
  end.

(** Loop 2 of [store]: the first slot of another generation or empty. *)
Fixpoint store_free_slot (g sig : Z) (entry : TTEntry.t) (es : list PackedEntry.t)
  : option (list PackedEntry.t) :=
  match es with
  | [] => None
  | pe :: rest =>
      if negb (PackedEntry.gen pe =? g) || (PackedEntry.depth pe <? 0) then
        Some (write g sig entry pe :: rest)
      else
        match store_free_slot g sig entry rest with
        | Some rest' => Some (pe :: rest')
        | None => None
        end
  end.

(** The lambda [quality] of [store]. *)
Definition quality (g : Z) (pe : PackedEntry.t) : Z :=
  if PackedEntry.depth pe <? 0 then -1000000
  else
    let q := PackedEntry.depth pe * 4 in
    let q := if PackedEntry.flag pe =? TT_EXACT then q + 2 else q in
    let q := if negb (PackedEntry.hasMove pe =? 0) then q + 1 else q in
    let q := if negb (PackedEntry.gen pe =? g) then q - 1000 else q in
    q.

(** Loop 3 of [store]: [victim] is kept as the index of the slot it points
    to, [i] is the index of [pe]. *)
Fixpoint pick_victim (g : Z) (es : list PackedEntry.t) (i victim : nat) (victimQ : Z) : nat :=
  match es with
  | [] => victim
  | pe :: rest =>
      let q := quality g pe in
      if q <? victimQ then pick_victim g rest (S i) i q
      else pick_victim g rest (S i) victim victimQ
  end.

Definition store_victim (g sig : Z) (entry : TTEntry.t) (es : list PackedEntry.t)
  : list PackedEntry.t :=
  match es with
  | [] => es    (* no such array: CLUSTER_SIZE is 4 *)
  | e0 :: _ =>
      let victim := pick_victim g es 0%nat 0%nat (quality g e0) in
      match es !! victim with
      | Some pe => <[victim := write g sig entry pe]> es
      | None => es
      end
  end.

Definition store_bucket (g sig : Z) (entry : TTEntry.t) (b : Bucket.t) : Bucket.t :=
  match store_same_key g sig entry (Bucket.e b) with
  | Some es => Bucket.mk es
  | None =>
      match store_free_slot g sig entry (Bucket.e b) with
      | Some es => Bucket.mk es
      | None => Bucket.mk (store_victim g sig entry (Bucket.e b))
      end
  end.

Definition store (entry : TTEntry.t) (t : TranspositionTable) : checked TranspositionTable :=
  match table_ t with
  | [] => Ok t
  | _ :: _ =>
      let idx := bucket_index t (TTEntry.key entry) in
      let sig := key_signature16 (TTEntry.key entry) in
      match table_ t !! Z.to_nat idx with
      | None => OutOfBounds
      | Some b =>
          Ok {| table_ := <[Z.to_nat idx := store_bucket (gen_ t) sig entry b]> (table_ t);
                mask_ := mask_ t;
                capacity_entries_ := capacity_entries_ t;
                gen_ := gen_ t |}
      end
  end.

(** [Engine::resizeTT_MB]: what the [Hash] option does to the table (the
    copy of [mb] kept in the configuration is left out). *)
Definition resizeTT_MB (mb : Z) (t : TranspositionTable) : TranspositionTable :=
  let mb := if mb <? 1 then 1 else mb in
  resize (entries_for_mb mb) t.

(** ** Time manager ([engine.hpp], [engine.cpp]) *)

Inductive Color : Type := WHITE | BLACK.

Module SearchLimits.
Record t : Type := mk
  { depth : Z;
    movetime_ms : Z;
    wtime_ms : Z;
    btime_ms : Z;
    winc_ms : Z;
    binc_ms : Z;
    movestogo : Z;
    infinite : bool;
    ponder : bool }.

(** [SearchLimits{}] *)
Definition default : t := mk 0 (-1) (-1) (-1) 0 0 (-1) false false.
End SearchLimits.

Module TimeBudget.
Record t : Type := mk
  { enabled : bool;
    soft_ms : Z;
    hard_ms : Z;
    overhead_ms : Z }.
End TimeBudget.

Module EngineConfig.
(** The fields of [EngineConfig] read by the code below. *)
Record t : Type := mk
  { move_overhead_ms : Z;
    ponder : bool }.
End EngineConfig.

(** All operands are [int] unless the source widens them to [long long];
    [÷] is the truncating division of C++. *)
Definition compute_time_budget (limits : SearchLimits.t) (side_to_move : Color)
    (cfg : EngineConfig.t) : TimeBudget.t :=
  let overhead_ms := Z.max 0 (EngineConfig.move_overhead_ms cfg) in
  if SearchLimits.movetime_ms limits >=? 0 then
    let available := Z.max 0 (to_int (SearchLimits.movetime_ms limits - overhead_ms)) in
    {| TimeBudget.enabled := true;
       TimeBudget.hard_ms := available;
       TimeBudget.soft_ms := to_int (available * 95) ÷ 100;
       TimeBudget.overhead_ms := overhead_ms |}
  else
    let my_time_raw :=
      match side_to_move with
      | WHITE => SearchLimits.wtime_ms limits
      | BLACK => SearchLimits.btime_ms limits
      end in
    if my_time_raw <? 0 then
      {| TimeBudget.enabled := false;
         TimeBudget.soft_ms := 0;
         TimeBudget.hard_ms := 0;
         TimeBudget.overhead_ms := overhead_ms |}
    else
      let my_time := Z.max 0 my_time_raw in
      let my_inc_raw :=
        match side_to_move with
        | WHITE => SearchLimits.winc_ms limits
        | BLACK => SearchLimits.binc_ms limits
        end in
      let my_inc := Z.max 0 my_inc_raw in
      let available := Z.max 0 (to_int (my_time - overhead_ms)) in
      let mtg := if SearchLimits.movestogo limits >? 0
                 then SearchLimits.movestogo limits else 64 in
      let soft := 0 in
      let soft := to_long_long (soft + available ÷ to_int (mtg + 1)) in
      let soft := to_long_long (soft + to_long_long (my_inc * 6) ÷ 10) in
      let hard := to_long_long (soft * 2) in
      let hard := Z.min hard available in
      let hard := Z.min hard (my_time ÷ 4) in
      let hard := Z.min hard (to_long_long (soft * 4)) in
      let hard := if hard <? 0 then 0 else hard in
      let soft := if soft <? 0 then 0 else soft in
      let soft := if soft >? hard then hard else soft in
      {| TimeBudget.enabled := true;
         TimeBudget.soft_ms := to_int (to_long_long (soft * 1));
         TimeBudget.hard_ms := to_int (to_long_long (hard * 1));
         TimeBudget.overhead_ms := overhead_ms |}.

(** What the code computes, as closed formulas over the integers ([/] is
    the floor division; every quantity below is non-negative). *)
Definition movetime_budget (movetime overhead : Z) : Z * Z :=
  let hard := Z.max 0 (movetime - overhead) in
  (95 * hard / 100, hard).

Definition clock_budget (my_time my_inc movestogo overhead : Z) : Z * Z :=
  let my_inc := Z.max 0 my_inc in
  let available := Z.max 0 (my_time - overhead) in
  let mtg := if 0 <? movestogo then movestogo else 64 in
  let soft := available / (mtg + 1) + 6 * my_inc / 10 in
  let hard := Z.min (Z.min (Z.min (2 * soft) available) (my_time / 4)) (4 * soft) in
  (Z.min soft hard, hard).

(** ** Iterative deepener: the aspiration window of one iteration
    ([Engine::search_position_impl]) *)

Module RootSearch.
(** What one call of [find_best_move] hands back to the aspiration loop:
    the return value, [iter_stats.stopped] and the two out-parameters. *)
Record t : Type := mk
  { ok : bool;
    stopped : bool;
    best_move_out : Move;
    best_score_out : Z }.
End RootSearch.

Module Attempt.
(** One call of [find_best_move] as the deepener made it.  The source
    keeps no such record; the list of attempts is what the statements
    about retries count. *)
Record t : Type := mk
  { window : Z;
    alpha : Z;
    beta : Z;
    forced : bool;      (* the full-window re-search after the loop *)
    ok : bool;          (* [ok] after the [stopped] test *)
    score : Z }.
End Attempt.

Module Iteration.
(** The locals of one pass of the [for (;;)] loop when the aspiration
    part is over. *)
Record t (World : Type) : Type := mk
  { world : World;
    window : Z;
    alpha : Z;
    beta : Z;
    iter_best_move : Move;
    iter_best_score : Z;
    ok : bool;
    in_window : bool;
    attempts : list Attempt.t }.
Arguments mk {World}.
Arguments world {World}.
Arguments window {World}.
Arguments alpha {World}.
Arguments beta {World}.
Arguments iter_best_move {World}.
Arguments iter_best_score {World}.
Arguments ok {World}.
Arguments in_window {World}.
Arguments attempts {World}.
End Iteration.

Section Deepener.
(** [World] is everything [find_best_move] reads and writes besides its
    window: board, table, heuristics, clock and stop flag.  The root
    search itself ([search/99_public.inc]) is not part of the sources at
    hand and is taken as given. *)
Context {World : Type}.
Variable find_best_move :
  World -> Z -> Z -> Z -> Move -> Z -> World * RootSearch.t.

(** [for (int tries = 0; tries < 5; ++tries)], with [n = 5 - tries]. *)
Fixpoint aspiration_tries (n : nat) (depth_to_search : Z)
    (have_prev : bool) (prev_score : Z)
    (w : World) (window alpha beta : Z)
    (iter_best_move : Move) (iter_best_score : Z) (ok : bool)
    (attempts : list Attempt.t) : Iteration.t World :=
  match n with
  | O =>
      Iteration.mk w window alpha beta iter_best_move iter_best_score ok false attempts
  | S n' =>
      let '(w, r) :=
        find_best_move w depth_to_search alpha beta iter_best_move iter_best_score in
      let iter_best_move := RootSearch.best_move_out r in
      let iter_best_score := RootSearch.best_score_out r in
      let ok := if RootSearch.stopped r then false else RootSearch.ok r in
      let attempts :=
        attempts ++ [Attempt.mk window alpha beta false ok iter_best_score] in
      if negb ok then
        Iteration.mk w window alpha beta iter_best_move iter_best_score ok false attempts
      else if iter_best_score <=? alpha then
        (* fail-low: widen downward *)
        let window := to_int (window * 2) in
        let alpha := if have_prev then to_int (prev_score - window) else - SCORE_INF in
        let beta := if have_prev then to_int (prev_score + window) else SCORE_INF in
        aspiration_tries n' depth_to_search have_prev prev_score
          w window alpha beta iter_best_move iter_best_score ok attempts
      else if iter_best_score >=? beta then
        (* fail-high: widen upward *)
        let window := to_int (window * 2) in
        let alpha := if have_prev then to_int (prev_score - window) else - SCORE_INF in
        let beta := if have_prev then to_int (prev_score + window) else SCORE_INF in
        aspiration_tries n' depth_to_search have_prev prev_score
          w window alpha beta iter_best_move iter_best_score ok attempts
      else
        Iteration.mk w window alpha beta iter_best_move iter_best_score ok true attempts
  end.

(** From [Score alpha = -INF] to the end of [if (ok && !in_window)]. *)
Definition search_iteration (depth_to_search : Z) (have_prev : bool) (prev_score : Z)
    (w : World) : Iteration.t World :=
  let alpha := - SCORE_INF in
  let beta := SCORE_INF in
  let window := 50 in
  let narrow := have_prev && (Z.abs prev_score <? MATE_BOUND) in
  let alpha := if narrow then to_int (prev_score - window) else alpha in
  let beta := if narrow then to_int (prev_score + window) else beta in
  let it :=
    aspiration_tries 5 depth_to_search have_prev prev_score
      w window alpha beta NO_MOVE 0 false [] in
  if Iteration.ok it && negb (Iteration.in_window it) then
    let alpha := - SCORE_INF in
    let beta := SCORE_INF in
    let '(w, r) :=
      find_best_move (Iteration.world it) depth_to_search alpha beta
        (Iteration.iter_best_move it) (Iteration.iter_best_score it) in
    let ok := if RootSearch.stopped r then false else RootSearch.ok r in
    Iteration.mk w (Iteration.window it) alpha beta
      (RootSearch.best_move_out r) (RootSearch.best_score_out r) ok ok
      (Iteration.attempts it
         ++ [Attempt.mk (Iteration.window it) alpha beta true ok (RootSearch.best_score_out r)])
  else it.
End Deepener.

(** ** UCI score output ([fast_engine_uci.cpp]) *)

Definition UCI_MATE_SCORE : Z := MATE_SCORE.
Definition UCI_MATE_BOUND : Z := MATE_BOUND.

(** The [bool] result paired with the out-parameter. *)
Definition score_to_mate_moves (score : Z) (mate_moves_out : Z) : bool * Z :=
  if score >? UCI_MATE_BOUND then
    let dPlies := to_int (UCI_MATE_SCORE - score) in
    (true, to_int ((dPlies + 1) ÷ 2))
  else if score <? - UCI_MATE_BOUND then
    let dPlies := to_int (UCI_MATE_SCORE + score) in
    (true, to_int (- to_int ((dPlies + 1) ÷ 2)))
  else (false, mate_moves_out).

(** [operator<<(int)]: decimal digits, a leading [-] for negatives. *)
Definition string_of_int (z : Z) : string := NilZero.string_of_int (Z.to_int z).

Definition append_uci_score (info : string) (score : Z) : string :=
  let mate_moves := 0 in
  let '(is_mate, mate_moves) := score_to_mate_moves score mate_moves in
  if is_mate then (info ++ " score mate " ++ string_of_int mate_moves)%string
  else (info ++ " score cp " ++ string_of_int score)%string.

(** The reading side of the round trip is the UCI peer's: it takes the
    number after [score mate].  [strip_prefix p s] is the rest of [s] after
    the prefix [p]. *)
Fixpoint strip_prefix (p s : string) : option string :=
  match p with
  | EmptyString => Some s
  | String c p' =>
      match s with
      | EmptyString => None
      | String d s' => if Ascii.eqb c d then strip_prefix p' s' else None
      end
  end.

Definition read_mate (s : string) : option Z :=
  match strip_prefix " score mate " s with
  | Some digits =>
      match NilZero.int_of_string digits with
      | Some d => Some (Z.of_int d)
      | None => None
      end
  | None => None
  end.

(** The internal score of a mate [n] plies away: [MATE - n] when the side
    to move delivers it, [-(MATE - n)] when it suffers it. *)
Definition mate_score (stm_wins : bool) (n : Z) : Z :=
  if stm_wins then MATE_SCORE - n else - (MATE_SCORE - n).

(** [ceil(d / 2)] and [sign], for the formula of the specification. *)
Definition ceil_half (d : Z) : Z := - ((- d) / 2).

Definition spec_mate_moves (score : Z) : Z :=
  ceil_half (MATE_SCORE - Z.abs score) * Z.sgn score.

(** ** The move after [bestmove] ([fast_engine_uci.cpp]) *)

Module StopReason.
Inductive t : Type := None | StopCmd | PonderHit | Internal.

Definition is_StopCmd (r : t) : bool :=
  match r with StopCmd => true | _ => false end.
End StopReason.

Module SearchResult.
(** The fields of [SearchResult] that decide the reply. *)
Record t : Type := mk
  { score : Z;
    best_move : Move;
    has_best_move : bool }.
End SearchResult.

Section BestMove.
(** The rules library: boards, legal-move generation, move printing. *)
Variable Board : Type.
Variable legalmoves : Board -> list Move.
Variable moveToUci : Move -> string.
(** [compute_ponder_move_depth1] runs a depth-1 search; taken as given. *)
Variable compute_ponder_move_depth1 : Board -> Move -> Move.

Definition pick_fallback_legal_move (board : Board) : Move :=
  match legalmoves board with
  | [] => NO_MOVE
  | m0 :: _ => m0
  end.

(** [for (const auto &m : ml) if (m == candidate) return candidate;] *)
Fixpoint move_in_list (candidate : Move) (ml : list Move) : bool :=
  match ml with
  | [] => false
  | m :: rest => if m =? candidate then true else move_in_list candidate rest
  end.

Definition ensure_legal_or_fallback (board : Board) (candidate : Move) : Move :=
  match legalmoves board with
  | [] => NO_MOVE
  | m0 :: _ =>
      if move_in_list candidate (legalmoves board) then candidate else m0
  end.

(** The line [print_search_output] sends to stdout (its log goes to
    stderr). *)
Definition print_search_output (result : SearchResult.t) (best ponder : Move)
    (include_ponder : bool) : list string :=
  let bm := ("bestmove " ++ moveToUci best)%string in
  let bm := if include_ponder && negb (ponder =? NO_MOVE)
            then (bm ++ " ponder " ++ moveToUci ponder)%string else bm in
  [bm].

(** The body of the worker thread of [start_search_async] after
    [engine.search_position] has returned [ok] and [result]: the lines it
    sends to stdout. *)
Definition worker_reply (pondering_mode : bool) (reason : StopReason.t)
    (suppress_bestmove : bool) (config : EngineConfig.t)
    (search_board : Board) (ok : bool) (result : SearchResult.t) : list string :=
  if pondering_mode then
    if StopReason.is_StopCmd reason && negb suppress_bestmove then
      let best :=
        if ok && SearchResult.has_best_move result
        then ensure_legal_or_fallback search_board (SearchResult.best_move result)
        else pick_fallback_legal_move search_board in
      if best =? NO_MOVE then ["bestmove 0000"%string]
      else [("bestmove " ++ moveToUci best)%string]
    else []
  else if suppress_bestmove then []
  else
    let best :=
      if ok && SearchResult.has_best_move result
      then ensure_legal_or_fallback search_board (SearchResult.best_move result)
      else pick_fallback_legal_move search_board in
    if best =? NO_MOVE then ["bestmove 0000"%string]
    else
      let ponder :=
        if EngineConfig.ponder config
        then compute_ponder_move_depth1 search_board best else NO_MOVE in
      print_search_output result best ponder (EngineConfig.ponder config).

(** The worker reaches one of its two [bestmove] replies. *)
Definition replies (pondering_mode : bool) (reason : StopReason.t)
    (suppress_bestmove : bool) : bool :=
  if pondering_mode then StopReason.is_StopCmd reason && negb suppress_bestmove
  else negb suppress_bestmove.
End BestMove.

(** ** Predicates, specifications and example inputs used by the statements *)

(** The bucket count [resize] arrives at. *)
Definition resize_buckets (maxEntries : Z) : Z :=
  let maxEntries := if maxEntries <? CLUSTER_SIZE then CLUSTER_SIZE else maxEntries in
  let buckets := maxEntries / CLUSTER_SIZE in
  let buckets := if buckets <? 1 then 1 else buckets in
  next_pow2 buckets.

(** [y] has, at each position, the disjunction of the [n] bits of [x] from
    that position upwards. *)
Definition smeared (x n y : Z) : Prop :=
  forall i, 0 <= i ->
    Z.testbit y i = true <-> exists j, 0 <= j < n /\ Z.testbit x (i + j) = true.

(** The ranges of the slot fields that the proofs rely on, and the relation
    between slot generations and the generation [g] of the table. *)
Definition slot_ok (g : Z) (pe : PackedEntry.t) : Prop :=
  -128 <= PackedEntry.depth pe <= 127 /\ 0 <= PackedEntry.gen pe <= g.

(** A bucket has its [CLUSTER_SIZE] slots. *)
Definition bucket_ok (g : Z) (b : Bucket.t) : Prop :=
  length (Bucket.e b) = Z.to_nat CLUSTER_SIZE /\ Forall (slot_ok g) (Bucket.e b).

(** The class invariant: the generation is never 0, the mask is the bucket
    count minus one, no slot is of a later generation than the table. *)
Record tt_wf (t : TranspositionTable) : Prop := mk_tt_wf
  { wf_gen : 1 <= gen_ t <= 255;
    wf_mask : table_ t <> [] -> Z.of_nat (length (table_ t)) = mask_ t + 1;
    wf_buckets : Forall (bucket_ok (gen_ t)) (table_ t) }.

(** The states a table is in during its life: built by the default
    constructor, then resized, cleared and stored into. *)
Inductive reachable : TranspositionTable -> Prop :=
| reach_default : reachable TranspositionTable_default
| reach_resize n t : reachable t -> 0 <= n < 2 ^ 64 -> reachable (resize n t)
| reach_clear t : reachable t -> reachable (clear t)
| reach_store e t t' : reachable t -> store e t = Ok t' -> reachable t'.

(** The slot that a lookup of [sig] finds in the bucket after [store]. *)
Definition stored_slot (g sig : Z) (entry : TTEntry.t) (es : list PackedEntry.t)
  : PackedEntry.t :=
  match find (slot_hit g sig) es with
  | Some hit => if replace entry hit then write g sig entry hit else fill_move entry hit
  | None => write g sig entry PackedEntry.default
  end.

(** The logical view of [replace]: does [entry] overwrite the entry [old]
    that a lookup currently returns? *)
Definition overwrites (entry old : TTEntry.t) : bool :=
  (TTEntry.depth entry >? TTEntry.depth old)
  || ((TTEntry.depth entry =? TTEntry.depth old)
      && (TTEntry.flag entry =? TT_EXACT) && negb (TTEntry.flag old =? TT_EXACT)).

(** [out] carries what [entry] was stored with, the depth saturated. *)
Definition carries (out entry : TTEntry.t) : Prop :=
  TTEntry.flag out = TTEntry.flag entry /\
  TTEntry.value out = TTEntry.value entry /\
  TTEntry.depth out = clamp (TTEntry.depth entry) 0 127 /\
  TTEntry.hasMove out = TTEntry.hasMove entry /\
  (TTEntry.hasMove entry = true -> TTEntry.bestMove out = TTEntry.bestMove entry).

(** [out] is [old], with the move of [entry] if [old] had none. *)
Definition keeps (out old entry : TTEntry.t) : Prop :=
  TTEntry.flag out = TTEntry.flag old /\
  TTEntry.value out = TTEntry.value old /\
  TTEntry.depth out = TTEntry.depth old /\
  (if TTEntry.hasMove old then out = old
   else TTEntry.hasMove out = TTEntry.hasMove entry /\
        (TTEntry.hasMove entry = true -> TTEntry.bestMove out = TTEntry.bestMove entry)).

(** Every slot is of a generation before the current one. *)
Definition all_stale (t : TranspositionTable) : Prop :=
  Forall (fun b => Forall (fun pe => PackedEntry.gen pe < gen_ t) (Bucket.e b)) (table_ t).

(** A table of one bucket holding one entry of depth 9 for key 7, and two
    entries for the same key that are stored into it below. *)
Definition table_with_deep_entry : TranspositionTable :=
  mkTT [Bucket.mk [PackedEntry.mk 35 0 0 9 TT_EXACT 1 0;
                   PackedEntry.default; PackedEntry.default; PackedEntry.default]]
       0 4 1.

Definition deep_entry : TTEntry.t := TTEntry.mk 7 9 TT_EXACT 35 NO_MOVE false.
Definition shallow_entry : TTEntry.t := TTEntry.mk 7 3 TT_LOWERBOUND (-12) NO_MOVE false.
Definition negative_depth_entry : TTEntry.t := TTEntry.mk 7 (-1) TT_UPPERBOUND 20 NO_MOVE false.

(** The round trip as the specification states it: the entry read back has
    the flag, depth and value of [e], and its move if it had one. *)
Definition store_probe_as_stated (t : TranspositionTable) (e : TTEntry.t) : Prop :=
  exists t' out,
    store e t = Ok t' /\ probe t' (TTEntry.key e) = Ok (Some out) /\
    TTEntry.flag out = TTEntry.flag e /\
    TTEntry.depth out = TTEntry.depth e /\
    TTEntry.value out = TTEntry.value e /\
    (TTEntry.hasMove e = true ->
     TTEntry.hasMove out = true /\ TTEntry.bestMove out = TTEntry.bestMove e).

(** The same table 254 clears later, in generation 255. *)
Definition table_at_last_generation : TranspositionTable :=
  Nat.iter 254 clear table_with_deep_entry.

(** The saturation as it is specified: after [store e], a hit on the
    key of [e] reports depth 127 if [e] was deeper and 0 if its depth was
    negative. *)
Definition depth_saturation_as_stated (t : TranspositionTable) (e : TTEntry.t) : Prop :=
  forall t' out,
    store e t = Ok t' -> probe t' (TTEntry.key e) = Ok (Some out) ->
    (127 < TTEntry.depth e -> TTEntry.depth out = 127) /\
    (TTEntry.depth e < 0 -> TTEntry.depth out = 0).

(** An entry deeper than a slot can hold, and the table after storing it. *)
Definition too_deep_entry : TTEntry.t := TTEntry.mk 7 200 TT_LOWERBOUND 50 NO_MOVE false.

Definition table_with_saturated_entry : TranspositionTable :=
  mkTT [Bucket.mk [PackedEntry.mk 50 0 0 127 TT_LOWERBOUND 1 0;
                   PackedEntry.default; PackedEntry.default; PackedEntry.default]]
       0 4 1.

(** Does the table built for [mb] megabytes take at most [mb * 2 ^ 20]
    bytes? *)
Definition footprint_fits (mb : Z) : bool :=
  resize_buckets (entries_for_mb mb) * sizeof_Bucket <=? mb * 2 ^ 20.

(** The sizes [3 * 2 ^ j] up to 4096. *)
Definition fitting_hash_sizes : list Z :=
  [3; 6; 12; 24; 48; 96; 192; 384; 768; 1536; 3072].

Fixpoint member (x : Z) (l : list Z) : bool :=
  match l with
  | [] => false
  | y :: l' => (x =? y) || member x l'
  end.

(** [p] holds of [1 .. n]. *)
Fixpoint all_upto (n : nat) (p : Z -> bool) : bool :=
  match n with
  | O => true
  | S n' => p (Z.of_nat n) && all_upto n' p
  end.

(** The pair (soft, hard) of an enabled budget. *)
Definition budget_of (tb : TimeBudget.t) : option (Z * Z) :=
  if TimeBudget.enabled tb then Some (TimeBudget.soft_ms tb, TimeBudget.hard_ms tb)
  else None.

Definition my_time_of (limits : SearchLimits.t) (stm : Color) : Z :=
  match stm with
  | WHITE => SearchLimits.wtime_ms limits
  | BLACK => SearchLimits.btime_ms limits
  end.

Definition my_inc_of (limits : SearchLimits.t) (stm : Color) : Z :=
  match stm with
  | WHITE => SearchLimits.winc_ms limits
  | BLACK => SearchLimits.binc_ms limits
  end.

(** The budget as the specification words it, in whole milliseconds: a given
    [movetime] yields [hard = movetime - overhead] and [soft = 0.95 hard];
    a known clock yields the slice formula; nothing known, no budget. *)
Definition spec_time_budget (limits : SearchLimits.t) (stm : Color)
    (cfg : EngineConfig.t) : option (Z * Z) :=
  let overhead := EngineConfig.move_overhead_ms cfg in
  if 0 <=? SearchLimits.movetime_ms limits then
    let hard := SearchLimits.movetime_ms limits - overhead in
    Some (95 * hard / 100, hard)
  else if 0 <=? my_time_of limits stm then
    let my_time := my_time_of limits stm in
    let my_inc := my_inc_of limits stm in
    let available := Z.max 0 (my_time - overhead) in
    let mtg := if 0 <? SearchLimits.movestogo limits
               then SearchLimits.movestogo limits else 64 in
    let soft := available / (mtg + 1) + 6 * my_inc / 10 in
    let hard := Z.min (Z.min (Z.min (2 * soft) available) (my_time / 4)) (4 * soft) in
    Some (Z.min soft hard, hard)
  else None.

(** The budget the code computes, as closed formulas. *)
Definition code_time_budget (limits : SearchLimits.t) (stm : Color)
    (cfg : EngineConfig.t) : option (Z * Z) :=
  let overhead := Z.max 0 (EngineConfig.move_overhead_ms cfg) in
  if 0 <=? SearchLimits.movetime_ms limits then
    Some (movetime_budget (SearchLimits.movetime_ms limits) overhead)
  else if 0 <=? my_time_of limits stm then
    Some (clock_budget (my_time_of limits stm) (my_inc_of limits stm)
            (SearchLimits.movestogo limits) overhead)
  else None.

(** Inputs for which no [int] operation of [compute_time_budget] overflows:
    every field is an [int], [movestogo + 1] is one too, and 95 times the
    move time is one (move times up to 6 h 16 min). *)
Definition limits_in_range (limits : SearchLimits.t) (cfg : EngineConfig.t) : Prop :=
  in_int (SearchLimits.movetime_ms limits) /\
  in_int (SearchLimits.wtime_ms limits) /\
  in_int (SearchLimits.btime_ms limits) /\
  in_int (SearchLimits.winc_ms limits) /\
  in_int (SearchLimits.binc_ms limits) /\
  in_int (SearchLimits.movestogo limits) /\
  in_int (EngineConfig.move_overhead_ms cfg) /\
  SearchLimits.movestogo limits < INT_MAX /\
  SearchLimits.movetime_ms limits <= 22605091.

(** [go movetime 10], and [go wtime 1000 btime 1000 winc -100], under the
    default overhead of 20 ms. *)
Definition short_movetime : SearchLimits.t :=
  SearchLimits.mk 0 10 (-1) (-1) 0 0 (-1) false false.

Definition negative_increment : SearchLimits.t :=
  SearchLimits.mk 0 (-1) 1000 1000 (-100) 0 (-1) false false.

Definition default_overhead : EngineConfig.t := EngineConfig.mk 20 false.

(** The attempt came back complete with a score on or outside its window. *)
Definition fails (a : Attempt.t) : Prop :=
  Attempt.ok a = true /\
  (Attempt.score a <= Attempt.alpha a \/ Attempt.beta a <= Attempt.score a).

(** [window *= 2] *)
Definition widen (window : Z) : Z := to_int (window * 2).

(** The sequences of windowed attempts the [for] loop can leave behind when
    entered with [n] tries to go: it stops at the first attempt that does
    not fail, and each failed attempt is followed, while tries remain, by
    one with the doubled window around the previous score. *)
Inductive tries_shape (have_prev : bool) (prev_score : Z)
  : nat -> Z -> Z -> Z -> list Attempt.t -> Prop :=
| shape_exhausted window alpha beta :
    tries_shape have_prev prev_score 0 window alpha beta []
| shape_settled n window alpha beta ok score :
    ~ fails (Attempt.mk window alpha beta false ok score) ->
    tries_shape have_prev prev_score (S n) window alpha beta
      [Attempt.mk window alpha beta false ok score]
| shape_retry n window alpha beta ok score rest :
    fails (Attempt.mk window alpha beta false ok score) ->
    tries_shape have_prev prev_score n (widen window)
      (if have_prev then to_int (prev_score - widen window) else - SCORE_INF)
      (if have_prev then to_int (prev_score + widen window) else SCORE_INF)
      rest ->
    tries_shape have_prev prev_score (S n) window alpha beta
      (Attempt.mk window alpha beta false ok score :: rest).

(** A root search that always completes with the score 2000, over a world
    without state. *)
Definition always_scores_2000 (w : unit) (depth alpha beta : Z) (mv : Move) (sc : Z)
  : unit * RootSearch.t :=
  (w, RootSearch.mk true false 5 2000).

(** A position type with one position that has the legal moves 5 and 9 and
    one that has none, for the examples. *)
Definition example_legalmoves (b : bool) : list Move := if b then [5; 9] else [].

(** ** Further predicates on tables *)

(** The bucket count is a power of two (or the table has no storage), with
    the mask and the capacity [resize] derives from it (the capacity as a
    [std::size_t]: it wraps for [2 ^ 62] buckets). *)
Definition tt_sized (t : TranspositionTable) : Prop :=
  (table_ t = [] /\ mask_ t = 0 /\ capacity_entries_ t = 0) \/
  exists k, 0 <= k < 63 /\
    Z.of_nat (length (table_ t)) = 2 ^ k /\
    mask_ t = 2 ^ k - 1 /\
    capacity_entries_ t = to_size_t (2 ^ k * CLUSTER_SIZE).

(** The test of the second loop of [store]: the slot is of another
    generation or empty. *)
Definition slot_free (g : Z) (pe : PackedEntry.t) : bool :=
  negb (PackedEntry.gen pe =? g) || (PackedEntry.depth pe <? 0).

(** The bucket of [key] has a slot that the first or the second loop of
    [store] takes: one already holding the signature of [key], or a free
    one. *)
Definition bucket_has_room (t : TranspositionTable) (key : Z) : bool :=
  match table_ t !! Z.to_nat (bucket_index t key) with
  | Some b =>
      existsb (fun pe => slot_hit (gen_ t) (key_signature16 key) pe || slot_free (gen_ t) pe)
              (Bucket.e b)
  | None => false
  end.

(** [out] under another key. *)
Definition rekey (key : Z) (out : TTEntry.t) : TTEntry.t :=
  {| TTEntry.key := key;
     TTEntry.depth := TTEntry.depth out;
     TTEntry.flag := TTEntry.flag out;
     TTEntry.value := TTEntry.value out;
     TTEntry.bestMove := TTEntry.bestMove out;
     TTEntry.hasMove := TTEntry.hasMove out |}.

(** Tables and entries for the examples: two buckets with an entry for key
    1; a bucket filled with four entries of different signatures. *)
Definition two_bucket_table : TranspositionTable :=
  mkTT [Bucket.default;
        Bucket.mk [PackedEntry.mk 15 0 0 2 TT_EXACT 1 0;
                   PackedEntry.default; PackedEntry.default; PackedEntry.default]]
       1 8 1.

Definition full_bucket_table : TranspositionTable :=
  mkTT [Bucket.mk [PackedEntry.mk 10 1 0 6 TT_EXACT 1 0;
                   PackedEntry.mk 20 2 77 3 TT_LOWERBOUND 1 1;
                   PackedEntry.mk 30 3 0 3 TT_UPPERBOUND 1 0;
                   PackedEntry.mk 40 4 0 5 TT_EXACT 1 0]]
       0 4 1.

Definition key_of_signature (sig : Z) : Z := sig * 2 ^ 48.

Definition fifth_entry : TTEntry.t :=
  TTEntry.mk (key_of_signature 5) 1 TT_EXACT 50 NO_MOVE false.

Definition full_bucket_table_after : TranspositionTable :=
  mkTT [Bucket.mk [PackedEntry.mk 10 1 0 6 TT_EXACT 1 0;
                   PackedEntry.mk 20 2 77 3 TT_LOWERBOUND 1 1;
                   PackedEntry.mk 50 5 0 1 TT_EXACT 1 0;
                   PackedEntry.mk 40 4 0 5 TT_EXACT 1 0]]
       0 4 1.

(** What [probe] returns for a key that collides with the key of the
    result [r]: the same entry under the probed key. *)
Definition rekeyed (key : Z) (r : checked (option TTEntry.t)) : checked (option TTEntry.t) :=
  match r with
  | Ok (Some out) => Ok (Some (rekey key out))
  | Ok None => Ok None
  | OutOfBounds => OutOfBounds
  end.

(** Every slot of the table is the empty slot. *)
Definition all_empty (t : TranspositionTable) : Prop :=
  Forall (fun b => Forall (fun pe => pe = PackedEntry.default) (Bucket.e b)) (table_ t).

(** [go wtime 5000 btime 3]. *)
Definition three_ms_left : SearchLimits.t :=
  SearchLimits.mk 0 (-1) 5000 3 0 0 (-1) false false.

(** [go wtime 60000 btime 60000 winc 1000 binc 1000]. *)
Definition one_minute_each : SearchLimits.t :=
  SearchLimits.mk 0 (-1) 60000 60000 1000 1000 (-1) false false.

(** [is_mate_score] of [types.hpp]. *)
Definition is_mate_score (s : Z) : bool := (s >=? MATE_BOUND) || (s <=? - MATE_BOUND).

(** ** Iterative deepener: the loop over depths ([Engine::search_position_impl]) *)

Module Completed.
(** One iteration the loop accepted, with the fields it copies from it.
    The source keeps no such record; the list of them is what the
    statements about the sequence of depths range over. *)
Record t : Type := mk
  { depth : Z;
    best_move : Move;
    best_score : Z;
    has_best_move : bool }.
End Completed.

Module Deepening.
(** The locals of [search_position_impl] that live across iterations. *)
Record t (World : Type) : Type := mk
  { world : World;
    cur_depth : Z;
    has_best : bool;
    best_move : Move;
    best_score : Z;
    have_prev : bool;
    prev_score : Z;
    depth_requested : Z;          (* [total_stats.depth_requested] *)
    completed : list Completed.t }.
Arguments mk {World}.
Arguments world {World}.
Arguments cur_depth {World}.
Arguments has_best {World}.
Arguments best_move {World}.
Arguments best_score {World}.
Arguments have_prev {World}.
Arguments prev_score {World}.
Arguments depth_requested {World}.
Arguments completed {World}.

Definition with_world {World : Type} (st : t World) (w : World) : t World :=
  mk w (cur_depth st) (has_best st) (best_move st) (best_score st)
     (have_prev st) (prev_score st) (depth_requested st) (completed st).

Definition with_cur_depth {World : Type} (st : t World) (d : Z) : t World :=
  mk (world st) d (has_best st) (best_move st) (best_score st)
     (have_prev st) (prev_score st) (depth_requested st) (completed st).
End Deepening.

(** How one pass of [for (;;)] ends: at the closing brace or at a [break]. *)
Inductive Pass (A : Type) : Type :=
| Continue (a : A)
| Break (a : A).
Arguments Continue {A}.
Arguments Break {A}.

Section DeepeningLoop.
(** [World] is as for the aspiration loop and also holds the clock, the
    [SearchControl] object and the statistics of the latest root search.
    Reading the clock or the stop flag may find the world changed, so the
    readers return the world with their answer.  Each reader answers
    [false] where the source guards it with [control &&] and finds no
    control object (or no time control). *)
Context {World : Type}.
Variable find_best_move :
  World -> Z -> Z -> Z -> Move -> Z -> World * RootSearch.t.
(** [last_stats.has_best_move], as the latest call of [find_best_move]
    left it. *)
Variable last_has_best_move : World -> bool.
(** [control && control->time_enabled && now() >= control->hard_deadline] *)
Variable hard_deadline_passed : World -> World * bool.
Variable soft_expired : World -> World * bool.
(** [control && control->external_stop && control->external_stop->load()] *)
Variable external_stop : World -> World * bool.
(** The floating-point adjustment of [control->soft_deadline], which does
    nothing without time control. *)
Variable update_soft_deadline : World -> Z -> Move -> World.
(** The callback with the depth, score, move and [has_best_move] of the
    iteration (it does nothing when no callback was passed). *)
Variable on_iter : World -> Z -> Z -> Move -> bool -> World.
(** [while (!control->external_stop->load()) sleep_for(1ms);] *)
Variable wait_for_stop : World -> World.

(** The body of [for (;;)]. *)
Definition deepening_pass (max_depth : Z) (keep_searching_at_max_depth : bool)
    (st : Deepening.t World) : Pass (Deepening.t World) :=
  let cur_depth := Deepening.cur_depth st in
  if negb keep_searching_at_max_depth && (cur_depth >? max_depth) then Break st
  else
    let '(w, passed) := hard_deadline_passed (Deepening.world st) in
    if passed then Break (Deepening.with_world st w)
    else
      (* has_best && soft_expired() && cur_depth > 2 *)
      let '(w, soft_stop) :=
        if Deepening.has_best st then
          let '(w, expired) := soft_expired w in (w, expired && (cur_depth >? 2))
        else (w, false) in
      if soft_stop then Break (Deepening.with_world st w)
      else
        let '(w, stop) := external_stop w in
        if stop then Break (Deepening.with_world st w)
        else
          let depth_to_search := if cur_depth <=? max_depth then cur_depth else max_depth in
          let it :=
            search_iteration find_best_move depth_to_search
              (Deepening.have_prev st) (Deepening.prev_score st) w in
          let w := Iteration.world it in
          if negb (Iteration.ok it) then
            (* keep best_move/best_score/has_best from the last completed iteration *)
            Break (Deepening.mk w cur_depth (Deepening.has_best st)
                     (Deepening.best_move st) (Deepening.best_score st)
                     (Deepening.have_prev st) (Deepening.prev_score st)
                     depth_to_search (Deepening.completed st))
          else
            let has_best := last_has_best_move w in
            let best_move := Iteration.iter_best_move it in
            let best_score := Iteration.iter_best_score it in
            let w := if has_best then update_soft_deadline w depth_to_search best_move
                     else w in
            let w := on_iter w depth_to_search best_score best_move has_best in
            let have_prev := true in
            let prev_score := best_score in
            let completed :=
              Deepening.completed st
                ++ [Completed.mk depth_to_search best_move best_score has_best] in
            let '(w, expired) := if has_best then soft_expired w else (w, false) in
            let st' := Deepening.mk w cur_depth has_best best_move best_score
                         have_prev prev_score depth_to_search completed in
            if expired then Break st'
            else if keep_searching_at_max_depth && (cur_depth >=? max_depth) then
              Break (Deepening.with_world st' (wait_for_stop w))
            else if cur_depth <? max_depth then
              Continue (Deepening.with_cur_depth st' (to_int (cur_depth + 1)))
            else if negb keep_searching_at_max_depth then Break st'
            else Continue st'.

(** [for (;;)], run for at most [fuel] passes. *)
Fixpoint deepening_loop (fuel : nat) (max_depth : Z) (keep_searching_at_max_depth : bool)
    (st : Deepening.t World) : option (Deepening.t World) :=
  match fuel with
  | O => None
  | S fuel' =>
      match deepening_pass max_depth keep_searching_at_max_depth st with
      | Break st' => Some st'
      | Continue st' => deepening_loop fuel' max_depth keep_searching_at_max_depth st'
      end
  end.

(** The locals before the loop: [best_move{}], [best_score = 0],
    [has_best = false], [have_prev = false], [cur_depth = 1]. *)
Definition deepening_start (w : World) : Deepening.t World :=
  Deepening.mk w 1 false NO_MOVE 0 false 0 0 [].


(** [search_position_impl]; the loop makes at most [max(1, max_depth)]
    passes, and that many are allowed for. *)
Definition search_position_impl (max_depth : Z) (keep_searching_at_max_depth : bool)
    (w : World) : option (Deepening.t World) :=
  deepening_loop (Z.to_nat (Z.max 1 max_depth)) max_depth keep_searching_at_max_depth
    (deepening_start w).
End DeepeningLoop.







(** ** Principal variation from the table ([is_legal_move], [build_pv_uci]) *)

Section PrincipalVariation.
(** The rules library: boards, legal-move generation, making a move, the
    position hash and move printing. *)
Variable Board : Type.
Variable legalmoves : Board -> list Move.
Variable makeMove : Board -> Move -> Board.
Variable hash : Board -> Z.
Variable moveToUci : Move -> string.

Definition is_legal_move (board : Board) (mv : Move) : bool :=
  if mv =? NO_MOVE then false
  else move_in_list mv (legalmoves board).

(** [while (written < max_len)], with [n = max_len - written].  [seen] is
    the [unordered_set] of hashes, of which only membership is used;
    [line] lists the moves written so far, of which the source keeps the
    text [pv] only. *)
Fixpoint pv_loop (n : nat) (tt : TranspositionTable) (root : Board) (seen : list Z)
    (pv : string) (line : list Move) : checked (string * list Move) :=
  match n with
  | O => Ok (pv, line)
  | S n' =>
      match probe tt (hash root) with
      | OutOfBounds => OutOfBounds
      | Ok None => Ok (pv, line)
      | Ok (Some e) =>
          if negb (TTEntry.hasMove e) then Ok (pv, line)
          else
            let mv := TTEntry.bestMove e in
            if negb (is_legal_move root mv) then Ok (pv, line)
            else
              (* repetition guard: stop if we see the same hash again *)
              let root := makeMove root mv in
              let h := hash root in
              if member h seen then Ok (pv, line)
              else
                pv_loop n' tt root (h :: seen)
                  (pv ++ " " ++ moveToUci mv)%string (line ++ [mv])
      end
  end.

(** [seen.reserve] only allocates and is left out; it is given
    [max_len + 2], so [max_len] is taken to be at least -2. *)
Definition build_pv_uci (root : Board) (tt : TranspositionTable) (root_best : Move)
    (max_len : Z) : checked (string * list Move) :=
  let written := 0 in
  if negb (root_best =? NO_MOVE) && is_legal_move root root_best then
    let pv := moveToUci root_best in
    let written := written + 1 in
    let root := makeMove root root_best in
    let seen := [hash root] in
    pv_loop (Z.to_nat (max_len - written)) tt root seen pv [root_best]
  else Ok (""%string, []).

(** The moves of a line are legal, each in the position the ones before
    it lead to. *)
Fixpoint playable (b : Board) (line : list Move) : Prop :=
  match line with
  | [] => True
  | m :: rest => m <> NO_MOVE /\ In m (legalmoves b) /\ playable (makeMove b m) rest
  end.

(** The positions a line leads through, after each of its moves. *)
Fixpoint positions (b : Board) (line : list Move) : list Board :=
  match line with
  | [] => []
  | m :: rest => makeMove b m :: positions (makeMove b m) rest
  end.

(** Each move of the line is the one the table holds for the position it
    is played in. *)
Fixpoint table_line (tt : TranspositionTable) (b : Board) (line : list Move) : Prop :=
  match line with
  | [] => True
  | m :: rest =>
      (exists e, probe tt (hash b) = Ok (Some e) /\
                 TTEntry.hasMove e = true /\ TTEntry.bestMove e = m) /\
      table_line tt (makeMove b m) rest
  end.

(** The text of a line: its moves separated by single spaces. *)
Fixpoint pv_tail (rest : list Move) : string :=
  match rest with
  | [] => ""
  | m :: rest' => (" " ++ moveToUci m ++ pv_tail rest')%string
  end.

Definition pv_text (line : list Move) : string :=
  match line with
  | [] => ""%string
  | m :: rest => (moveToUci m ++ pv_tail rest)%string
  end.
End PrincipalVariation.

(** A game on numbered positions for the examples: from position [b] the
    moves [b + 1] and [b + 2] are legal, and a move leads to the position
    of its number. *)
Definition counting_moves (b : Z) : list Move := [b + 1; b + 2].
Definition counting_make (b : Z) (m : Move) : Z := m.
Definition counting_hash (b : Z) : Z := b.

(** A one-bucket table whose entry answers every small key with move 3. *)
Definition table_with_move : TranspositionTable :=
  mkTT [Bucket.mk [PackedEntry.mk 35 0 3 9 TT_EXACT 1 1;
                   PackedEntry.default; PackedEntry.default; PackedEntry.default]]
       0 4 1.

(** ** Text helpers of the UCI front end ([fast_engine_uci.cpp]) *)

(** [std::isspace] in the C locale, which the program never changes:
    space, and the controls [\t \n \v \f \r]. *)
Definition isspace (c : ascii) : bool :=
  let n := nat_of_ascii c in
  (n =? 32)%nat || ((9 <=? n)%nat && (n <=? 13)%nat).

(** [std::tolower] in the C locale: the letters [A-Z] only. *)
Definition tolower (c : ascii) : ascii :=
  let n := nat_of_ascii c in
  if (65 <=? n)%nat && (n <=? 90)%nat then ascii_of_nat (n + 32) else c.

Fixpoint to_lower (s : string) : string :=
  match s with
  | EmptyString => EmptyString
  | String c s' => String (tolower c) (to_lower s')
  end.

Definition parse_bool_option (v : string) : bool :=
  let v := to_lower v in
  (v =? "1")%string || (v =? "true")%string || (v =? "yes")%string || (v =? "on")%string.

(** [while (i < s.size() && isspace(s[i])) ++i; return s.substr(i);] *)
Fixpoint ltrim (s : string) : string :=
  match s with
  | EmptyString => EmptyString
  | String c s' => if isspace c then ltrim s' else s
  end.

(** [while (i > 0 && isspace(s[i - 1])) --i;] started at [i]. *)
Fixpoint rtrim_index (s : string) (i : nat) : nat :=
  match i with
  | O => O
  | S j =>
      match String.get j s with
      | Some c => if isspace c then rtrim_index s j else i
      | None => i
      end
  end.

Definition rtrim (s : string) : string :=
  match s with
  | EmptyString => s
  | _ => String.substring 0 (rtrim_index s (String.length s)) s
  end.

Definition trim (s : string) : string := rtrim (ltrim s).

(** Statements about the ends of a string. *)
Fixpoint all_space (s : string) : bool :=
  match s with
  | EmptyString => true
  | String c s' => isspace c && all_space s'
  end.

Definition first_char (s : string) : option ascii := String.get 0 s.

Fixpoint last_char (s : string) : option ascii :=
  match s with
  | EmptyString => None
  | String c EmptyString => Some c
  | String _ s' => last_char s'
  end.

(** The string neither starts nor ends with white space. *)
Definition no_space_at_ends (s : string) : Prop :=
  (forall c, first_char s = Some c -> isspace c = false) /\
  (forall c, last_char s = Some c -> isspace c = false).

(** [toupper] for the statement of case-insensitivity. *)
Definition toupper (c : ascii) : ascii :=
  let n := nat_of_ascii c in
  if (97 <=? n)%nat && (n <=? 122)%nat then ascii_of_nat (n - 32) else c.

Fixpoint to_upper (s : string) : string :=
  match s with
  | EmptyString => EmptyString
  | String c s' => String (toupper c) (to_upper s')
  end.

(** ** Reading a [std::istringstream] *)

(** The characters up to the next white space, and what follows them. *)
Fixpoint take_word (s : string) : string * string :=
  match s with
  | EmptyString => (EmptyString, EmptyString)
  | String c s' =>
      if isspace c then (EmptyString, s)
      else let '(w, r) := take_word s' in (String c w, r)
  end.

(** [iss >> token] for a [std::string]: white space is skipped, then the
    characters up to the next white space are taken; at the end of the
    input the extraction fails.  The stream is the text still unread. *)
Definition read_token (iss : string) : option (string * string) :=
  match ltrim iss with
  | EmptyString => None
  | s => Some (take_word s)
  end.

(** What a call that may throw [std::out_of_range] comes to. *)
Inductive or_out_of_range (A : Type) : Type :=
| Returns (a : A)
| OutOfRange.
Arguments Returns {A} a.
Arguments OutOfRange {A}.

(** [s.substr(pos)]: the text from [pos] on, and [std::out_of_range] when
    [pos > s.size()]. *)
Fixpoint substr_from (pos : nat) (s : string) : or_out_of_range string :=
  match pos, s with
  | O, _ => Returns s
  | S p, String _ s' => substr_from p s'
  | S _, EmptyString => OutOfRange
  end.

(** ** The [position] command ([handle_position]) *)

Section Position.
(** The rules library: the start position, a position from a FEN string,
    reading a move in UCI notation (which answers [NO_MOVE] when it
    cannot), and making a move. *)
Variable Board : Type.
Variable startpos : Board.
Variable from_fen : string -> Board.
Variable uciToMove : Board -> string -> Move.
Variable makeMove : Board -> Move -> Board.

(** [while (iss >> move_str)], for at most [fuel] passes. *)
Fixpoint position_moves (fuel : nat) (iss : string) (board : Board) (moves_applied : Z)
  : option (Z * Board) :=
  match fuel with
  | O => None
  | S fuel' =>
      match read_token iss with
      | None => Some (moves_applied, board)
      | Some (move_str, iss) =>
          let m := uciToMove board move_str in
          if m =? NO_MOVE then Some (moves_applied, board)
          else position_moves fuel' iss (makeMove board m) (to_int (moves_applied + 1))
      end
  end.

(** From [std::string token2] to the end of [handle_position]; every token
    read shortens the stream, so its length bounds the passes of the loop. *)
Definition position_after_board (iss : string) (board : Board) (moves_applied : Z)
  : option (Z * Board) :=
  match read_token iss with
  | None => Some (moves_applied, board)
  | Some (token2, iss) =>
      if negb (token2 =? "moves")%string then Some (moves_applied, board)
      else position_moves (S (String.length iss)) iss board moves_applied
  end.

(** The number of moves applied, with the board as the command leaves it;
    [None] is the loop out of fuel. *)
Definition handle_position (line : string) (board : Board)
  : or_out_of_range (option (Z * Board)) :=
  match substr_from (String.length "position") line with
  | OutOfRange => OutOfRange
  | Returns rest =>
  Returns (
  let rest := trim rest in
  let iss := rest in
  let moves_applied := 0 in
  let '(token, iss) :=
    match read_token iss with
    | Some r => r
    | None => (EmptyString, iss)
    end in
  if (token =? "startpos")%string then
    position_after_board iss startpos moves_applied
  else if (token =? "fen")%string then
    match read_token iss with
    | None => Some (moves_applied, board)
    | Some (f1, iss) =>
    match read_token iss with
    | None => Some (moves_applied, board)
    | Some (f2, iss) =>
    match read_token iss with
    | None => Some (moves_applied, board)
    | Some (f3, iss) =>
    match read_token iss with
    | None => Some (moves_applied, board)
    | Some (f4, iss) =>
    match read_token iss with
    | None => Some (moves_applied, board)
    | Some (f5, iss) =>
    match read_token iss with
    | None => Some (moves_applied, board)
    | Some (f6, iss) =>
        let fen := (f1 ++ " " ++ f2 ++ " " ++ f3 ++ " " ++ f4 ++ " " ++ f5 ++ " " ++ f6)%string in
        position_after_board iss (from_fen fen) moves_applied
    end end end end end end
  else Some (moves_applied, board))
  end.

(** The moves of a list that get applied: those before the first one that
    cannot be read. *)
Fixpoint apply_moves (board : Board) (ms : list string) : nat * Board :=
  match ms with
  | [] => (O, board)
  | m :: ms' =>
      let mv := uciToMove board m in
      if mv =? NO_MOVE then (O, board)
      else let '(n, b) := apply_moves (makeMove board mv) ms' in (S n, b)
  end.

(** What the command does to a position once it is set up, by the words
    that follow. *)
Definition moves_after (board : Board) (ws : list string) : Z * Board :=
  match ws with
  | w :: ms =>
      if (w =? "moves")%string
      then let '(n, b) := apply_moves board ms in (Z.of_nat n, b)
      else (0, board)
  | [] => (0, board)
  end.

(** The command by its words. *)
Definition position_by_words (ws : list string) (board : Board) : Z * Board :=
  match ws with
  | [] => (0, board)
  | w :: tl =>
      if (w =? "startpos")%string then moves_after startpos tl
      else if (w =? "fen")%string then
        match tl with
        | f1 :: f2 :: f3 :: f4 :: f5 :: f6 :: tl' =>
            moves_after
              (from_fen (f1 ++ " " ++ f2 ++ " " ++ f3 ++ " " ++ f4 ++ " " ++ f5 ++ " " ++ f6))
              tl'
        | _ => (0, board)
        end
      else (0, board)
  end.
End Position.

(** The white-space separated words of a text. *)
Fixpoint words (s : string) : list string :=
  match s with
  | EmptyString => []
  | String c s' =>
      if isspace c then words s'
      else
        match s' with
        | EmptyString => [String c EmptyString]
        | String c' _ =>
            if isspace c' then String c EmptyString :: words s'
            else
              match words s' with
              | w :: rest => String c w :: rest
              | [] => [String c EmptyString]
              end
        end
  end.

(** A rules library for the examples: positions are numbers, a move is read
    from a decimal numeral ([NO_MOVE] for anything else) and adds its
    number to the position. *)
Definition numeral_move (b : Z) (s : string) : Move :=
  match NilZero.int_of_string s with
  | Some d => Z.of_int d
  | None => NO_MOVE
  end.

Definition add_move (b : Z) (m : Move) : Z := b + m.

(** ** The [go] command ([parse_go_limits]) *)

Definition is_digit (c : ascii) : bool :=
  let n := nat_of_ascii c in (48 <=? n)%nat && (n <=? 57)%nat.

(** The decimal digits at the front, and what follows them. *)
Fixpoint take_digits (s : string) : string * string :=
  match s with
  | EmptyString => (EmptyString, EmptyString)
  | String c s' =>
      if is_digit c then let '(d, r) := take_digits s' in (String c d, r)
      else (EmptyString, s)
  end.

(** [iss >> d] for an [int]: white space is skipped, then an optional sign
    and the decimal digits that follow are taken.  The extraction fails
    when there is no digit or the number is not an [int]. *)
Definition read_int (iss : string) : option (Z * string) :=
  let s := ltrim iss in
  let '(sign, s) :=
    match s with
    | String c s' =>
        if Ascii.eqb c "-" then ("-"%string, s')
        else if Ascii.eqb c "+" then (EmptyString, s')
        else (EmptyString, s)
    | EmptyString => (EmptyString, s)
    end in
  let '(digits, rest) := take_digits s in
  match digits with
  | EmptyString => None
  | _ =>
      match NilZero.int_of_string (sign ++ digits) with
      | Some d =>
          let v := Z.of_int d in
          if (INT_MIN <=? v) && (v <=? INT_MAX) then Some (v, rest) else None
      | None => None
      end
  end.

Module GoField.
(** The [int] fields of [SearchLimits] that [go] sets. *)
Inductive t : Type := depth | movetime | wtime | btime | winc | binc | movestogo.

Definition set (f : t) (v : Z) (l : SearchLimits.t) : SearchLimits.t :=
  match f with
  | depth =>
      SearchLimits.mk v (SearchLimits.movetime_ms l) (SearchLimits.wtime_ms l)
        (SearchLimits.btime_ms l) (SearchLimits.winc_ms l) (SearchLimits.binc_ms l)
        (SearchLimits.movestogo l) (SearchLimits.infinite l) (SearchLimits.ponder l)
  | movetime =>
      SearchLimits.mk (SearchLimits.depth l) v (SearchLimits.wtime_ms l)
        (SearchLimits.btime_ms l) (SearchLimits.winc_ms l) (SearchLimits.binc_ms l)
        (SearchLimits.movestogo l) (SearchLimits.infinite l) (SearchLimits.ponder l)
  | wtime =>
      SearchLimits.mk (SearchLimits.depth l) (SearchLimits.movetime_ms l) v
        (SearchLimits.btime_ms l) (SearchLimits.winc_ms l) (SearchLimits.binc_ms l)
        (SearchLimits.movestogo l) (SearchLimits.infinite l) (SearchLimits.ponder l)
  | btime =>
      SearchLimits.mk (SearchLimits.depth l) (SearchLimits.movetime_ms l)
        (SearchLimits.wtime_ms l) v (SearchLimits.winc_ms l) (SearchLimits.binc_ms l)
        (SearchLimits.movestogo l) (SearchLimits.infinite l) (SearchLimits.ponder l)
  | winc =>
      SearchLimits.mk (SearchLimits.depth l) (SearchLimits.movetime_ms l)
        (SearchLimits.wtime_ms l) (SearchLimits.btime_ms l) v (SearchLimits.binc_ms l)
        (SearchLimits.movestogo l) (SearchLimits.infinite l) (SearchLimits.ponder l)
  | binc =>
      SearchLimits.mk (SearchLimits.depth l) (SearchLimits.movetime_ms l)
        (SearchLimits.wtime_ms l) (SearchLimits.btime_ms l) (SearchLimits.winc_ms l) v
        (SearchLimits.movestogo l) (SearchLimits.infinite l) (SearchLimits.ponder l)
  | movestogo =>
      SearchLimits.mk (SearchLimits.depth l) (SearchLimits.movetime_ms l)
        (SearchLimits.wtime_ms l) (SearchLimits.btime_ms l) (SearchLimits.winc_ms l)
        (SearchLimits.binc_ms l) v (SearchLimits.infinite l) (SearchLimits.ponder l)
  end.

Definition keyword (f : t) : string :=
  match f with
  | depth => "depth"
  | movetime => "movetime"
  | wtime => "wtime"
  | btime => "btime"
  | winc => "winc"
  | binc => "binc"
  | movestogo => "movestogo"
  end.
End GoField.

Definition set_infinite (l : SearchLimits.t) : SearchLimits.t :=
  SearchLimits.mk (SearchLimits.depth l) (SearchLimits.movetime_ms l)
    (SearchLimits.wtime_ms l) (SearchLimits.btime_ms l) (SearchLimits.winc_ms l)
    (SearchLimits.binc_ms l) (SearchLimits.movestogo l) true (SearchLimits.ponder l).

Definition set_ponder (l : SearchLimits.t) : SearchLimits.t :=
  SearchLimits.mk (SearchLimits.depth l) (SearchLimits.movetime_ms l)
    (SearchLimits.wtime_ms l) (SearchLimits.btime_ms l) (SearchLimits.winc_ms l)
    (SearchLimits.binc_ms l) (SearchLimits.movestogo l) (SearchLimits.infinite l) true.

(** The seven branches [int x; if (iss >> x) limits.field = x;]: a number
    that cannot be read leaves the stream failed, which ends the loop. *)
Definition go_number (f : GoField.t) (iss : string) (limits : SearchLimits.t)
    (continue : string -> SearchLimits.t -> option SearchLimits.t)
  : option SearchLimits.t :=
  match read_int iss with
  | Some (v, iss) => continue iss (GoField.set f v limits)
  | None => Some limits
  end.

(** [while (iss >> token)], for at most [fuel] passes. *)
Fixpoint go_tokens (fuel : nat) (iss : string) (limits : SearchLimits.t)
  : option SearchLimits.t :=
  match fuel with
  | O => None
  | S fuel' =>
      match read_token iss with
      | None => Some limits
      | Some (token, iss) =>
          if (token =? "depth")%string then
            go_number GoField.depth iss limits (go_tokens fuel')
          else if (token =? "movetime")%string then
            go_number GoField.movetime iss limits (go_tokens fuel')
          else if (token =? "wtime")%string then
            go_number GoField.wtime iss limits (go_tokens fuel')
          else if (token =? "btime")%string then
            go_number GoField.btime iss limits (go_tokens fuel')
          else if (token =? "winc")%string then
            go_number GoField.winc iss limits (go_tokens fuel')
          else if (token =? "binc")%string then
            go_number GoField.binc iss limits (go_tokens fuel')
          else if (token =? "movestogo")%string then
            go_number GoField.movestogo iss limits (go_tokens fuel')
          else if (token =? "infinite")%string then
            go_tokens fuel' iss (set_infinite limits)
          else if (token =? "ponder")%string then
            go_tokens fuel' iss (set_ponder limits)
          else
            (* nodes, mate, searchmoves, etc. are ignored for now *)
            go_tokens fuel' iss limits
      end
  end.

(** Every pass takes a token off the stream, so the length of the text
    bounds the passes; [None] is the loop out of fuel. *)
Definition parse_go_limits (line : string) : or_out_of_range (option SearchLimits.t) :=
  let limits := SearchLimits.default in
  match substr_from (String.length "go") line with
  | OutOfRange => OutOfRange
  | Returns rest =>
      let rest := trim rest in
      Returns (go_tokens (S (String.length rest)) rest limits)
  end.

(** The arguments of a [go] command as a sender writes them. *)
Module GoArg.
Inductive t : Type :=
| number (f : GoField.t) (v : Z)
| infinite
| ponder
| other (word : string).
End GoArg.

Definition is_go_keyword (w : string) : bool :=
  (w =? "depth")%string || (w =? "movetime")%string || (w =? "wtime")%string
  || (w =? "btime")%string || (w =? "winc")%string || (w =? "binc")%string
  || (w =? "movestogo")%string || (w =? "infinite")%string || (w =? "ponder")%string.

Fixpoint no_space (w : string) : bool :=
  match w with
  | EmptyString => true
  | String c w' => negb (isspace c) && no_space w'
  end.

Definition go_arg_text (a : GoArg.t) : string :=
  match a with
  | GoArg.number f v => (GoField.keyword f ++ " " ++ string_of_int v)%string
  | GoArg.infinite => "infinite"%string
  | GoArg.ponder => "ponder"%string
  | GoArg.other word => word
  end.

Fixpoint go_args_text (args : list GoArg.t) : string :=
  match args with
  | [] => EmptyString
  | a :: rest => (" " ++ go_arg_text a ++ go_args_text rest)%string
  end.

Definition go_command (args : list GoArg.t) : string := ("go" ++ go_args_text args)%string.

(** A number is an [int]; a word that is ignored is a word, and none of the
    keywords. *)
Definition go_arg_ok (a : GoArg.t) : Prop :=
  match a with
  | GoArg.number _ v => in_int v
  | GoArg.other word =>
      word <> EmptyString /\ no_space word = true /\ is_go_keyword word = false
  | _ => True
  end.

Definition apply_go_arg (l : SearchLimits.t) (a : GoArg.t) : SearchLimits.t :=
  match a with
  | GoArg.number f v => GoField.set f v l
  | GoArg.infinite => set_infinite l
  | GoArg.ponder => set_ponder l
  | GoArg.other _ => l
  end.

(** The text is empty or starts with white space, so that a word or a
    number before it ends where it starts. *)
Definition stops_word (r : string) : bool :=
  match r with
  | EmptyString => true
  | String c _ => isspace c
  end.

Fixpoint all_digits (s : string) : bool :=
  match s with
  | EmptyString => true
  | String c s' => is_digit c && all_digits s'
  end.

(** The text does not end with white space. *)
Definition last_ok (s : string) : Prop :=
  forall c, last_char s = Some c -> isspace c = false.

(** [go wtime 1000 depth x btime 5]: the number after [depth] cannot be
    read. *)
Definition go_with_bad_depth : string := "go wtime 1000 depth x btime 5".

(** ** The entry points of the search ([Engine::search_position]) *)

Module SearchControl.
(** [SearchControl] as the entry points fill it in.  The deadlines are in
    milliseconds after [start], and absent where they are left as
    constructed; [external_stop] says whether the pointer is set. *)
Record t : Type := mk
  { time_enabled : bool;
    soft_deadline : option Z;
    hard_deadline : option Z;
    external_stop : bool }.
End SearchControl.

Section SearchPosition.
(** [search_position_impl] with its [max_depth], [control] (absent for
    [nullptr]) and [keep_searching_at_max_depth]; the board, the result and
    the callback it is also given are the same in every call. *)
Context {R : Type}.
Variable search_position_impl : Z -> option SearchControl.t -> bool -> R.
(** [config_], with its fields [search_depth] and [max_depth_timed]. *)
Variable config_ : EngineConfig.t.
Variable search_depth : Z.
Variable max_depth_timed : Z.

(** [search_position(board, depth, result, external_stop, on_iter)] *)
Definition search_position_depth (depth : Z) (external_stop : bool) : R :=
  let max_depth := if depth >? 0 then depth else search_depth in
  let control := SearchControl.mk false None None external_stop in
  search_position_impl max_depth (if external_stop then Some control else None) false.

(** [search_position(board, limits, result, external_stop, on_iter)], with
    [stm = board.sideToMove()]. *)
Definition search_position (stm : Color) (limits : SearchLimits.t)
    (external_stop : bool) : R :=
  (* Depth-limited always wins. *)
  if SearchLimits.depth limits >? 0 then
    search_position_depth (SearchLimits.depth limits) external_stop
  else
    let want_infinite := SearchLimits.infinite limits || SearchLimits.ponder limits in
    if want_infinite then
      let ABS_MAX_DEPTH := 128 in
      let control := SearchControl.mk false None None external_stop in
      let keep := external_stop in
      search_position_impl ABS_MAX_DEPTH (if external_stop then Some control else None) keep
    else
      let tb := compute_time_budget limits stm config_ in
      if negb (TimeBudget.enabled tb) then
        search_position_depth search_depth external_stop
      else
        let control :=
          SearchControl.mk true (Some (TimeBudget.soft_ms tb)) (Some (TimeBudget.hard_ms tb))
            external_stop in
        let max_depth := if max_depth_timed >? 0 then max_depth_timed else search_depth in
        search_position_impl max_depth (Some control) false.
End SearchPosition.

(** The calls of [search_position_impl], recorded as they are made. *)
Definition recorded_call (max_depth : Z) (control : option SearchControl.t) (keep : bool)
  : Z * option SearchControl.t * bool :=
  (max_depth, control, keep).

(** The calls of the root search behind a list of attempts.  Each attempt
    is one call of [find_best_move]: made in the world the call before it
    left, at the depth of the iteration, with the bounds of the attempt,
    and with the move and score of the call before it in the two
    out-parameters; the attempt records what the call returned.  The run
    starts in [w] with [mv] and [sc] and ends in [w'] with [mv'] and
    [sc']. *)
Inductive attempts_run {World : Type}
    (find_best_move : World -> Z -> Z -> Z -> Move -> Z -> World * RootSearch.t)
    (depth : Z)
  : World -> Move -> Z -> list Attempt.t -> World -> Move -> Z -> Prop :=
| run_done w mv sc :
    attempts_run find_best_move depth w mv sc [] w mv sc
| run_call w mv sc a w1 r rest w' mv' sc' :
    find_best_move w depth (Attempt.alpha a) (Attempt.beta a) mv sc = (w1, r) ->
    Attempt.ok a = (if RootSearch.stopped r then false else RootSearch.ok r) ->
    Attempt.score a = RootSearch.best_score_out r ->
    attempts_run find_best_move depth w1
      (RootSearch.best_move_out r) (RootSearch.best_score_out r) rest w' mv' sc' ->
    attempts_run find_best_move depth w mv sc (a :: rest) w' mv' sc'.

(** * Proofs *)

(** ** The model on concrete inputs *)

Example next_pow2_values :
  map next_pow2 [0; 1; 2; 3; 4; 5; 21845; 32768] = [1; 1; 2; 4; 4; 8; 32768; 32768].
Proof. reflexivity. Qed.

Example entries_for_default_hash : entries_for_mb 256 = 8388608 * CLUSTER_SIZE.
Proof. reflexivity. Qed.

Example store_then_probe_on_empty_bucket :
  exists t,
    store (TTEntry.mk 7 3 TT_LOWERBOUND (-12) 1234 true)
      (resize 4 TranspositionTable_default) = Ok t /\
    probe t 7 = Ok (Some (TTEntry.mk 7 3 TT_LOWERBOUND (-12) 1234 true)) /\
    probe t (7 + 2 ^ 48) = Ok None /\
    probe (clear t) 7 = Ok None.
Proof.
  eexists. split; [reflexivity|]. split; [reflexivity|]. split; reflexivity.
Qed.

Example blitz_clock_budget :
  compute_time_budget (SearchLimits.mk 0 (-1) 60000 60000 1000 1000 (-1) false false)
    WHITE (EngineConfig.mk 20 false)
  = TimeBudget.mk true 1522 3044 20.
Proof. reflexivity. Qed.

Example no_clock_no_budget :
  compute_time_budget SearchLimits.default BLACK (EngineConfig.mk 20 false)
  = TimeBudget.mk false 0 0 20.
Proof. reflexivity. Qed.

Example mate_in_one_is_printed :
  append_uci_score "info depth 2" 999999 = "info depth 2 score mate 1"%string /\
  append_uci_score "info depth 2" (-999998) = "info depth 2 score mate -1"%string /\
  append_uci_score "info depth 2" 999000 = "info depth 2 score cp 999000"%string /\
  append_uci_score "info depth 2" (-35) = "info depth 2 score cp -35"%string.
Proof. split; [reflexivity|]. split; [reflexivity|]. split; reflexivity. Qed.

(** ** Machine integers *)

Lemma wrap_unsigned_id w x : 0 <= x < 2 ^ w -> wrap_unsigned w x = x.
Proof. intros H. unfold wrap_unsigned. apply Z.mod_small. exact H. Qed.

Lemma wrap_signed_id w x :
  0 < w -> - 2 ^ (w - 1) <= x < 2 ^ (w - 1) -> wrap_signed w x = x.
Proof.
  intros Hw H. unfold wrap_signed.
  replace (2 ^ w) with (2 * 2 ^ (w - 1)).
  - rewrite Z.mod_small; lia.
  - rewrite <- Z.pow_succ_r by lia. f_equal. lia.
Qed.

Lemma to_size_t_id x : 0 <= x < 2 ^ 64 -> to_size_t x = x.
Proof. apply wrap_unsigned_id. Qed.

Lemma to_int_id x : in_int x -> to_int x = x.
Proof. intros H. apply wrap_signed_id; [lia|]. unfold in_int, INT_MIN, INT_MAX in H. lia. Qed.

Lemma to_long_long_id x : - 2 ^ 63 <= x < 2 ^ 63 -> to_long_long x = x.
Proof. intros H. apply wrap_signed_id; [lia|]. exact H. Qed.

Lemma to_i8_id x : - 128 <= x <= 127 -> to_i8 x = x.
Proof. intros H. apply wrap_signed_id; lia. Qed.

Lemma to_size_t_range x : 0 <= to_size_t x < 2 ^ 64.
Proof. unfold to_size_t, wrap_unsigned. apply Z.mod_pos_bound. lia. Qed.

Lemma clamp_range v lo hi : lo <= hi -> lo <= clamp v lo hi <= hi.
Proof.
  intros H. unfold clamp.
  destruct (Z.ltb_spec v lo); [lia|]. destruct (Z.ltb_spec hi v); lia.
Qed.

Lemma land_le_r a b : 0 <= b -> 0 <= Z.land a b <= b.
Proof.
  intros Hb. split.
  - apply Z.land_nonneg. now right.
  - assert (E : b - Z.land a b = Z.ldiff b (Z.land a b)).
    { apply Z.sub_nocarry_ldiff. apply Z.bits_inj'. intros n Hn.
      rewrite Z.ldiff_spec, Z.land_spec, Z.bits_0.
      destruct (Z.testbit a n), (Z.testbit b n); reflexivity. }
    assert (0 <= Z.ldiff b (Z.land a b)) by (apply Z.ldiff_nonneg; now left).
    lia.
Qed.

(** ** [next_pow2] *)

Lemma smeared_init x : smeared x 1 x.
Proof.
  intros i Hi. split.
  - intros H. exists 0. split; [lia|]. now rewrite Z.add_0_r.
  - intros (j & Hj & H). now replace (i + j) with i in H by lia.
Qed.

Lemma smeared_step x n y :
  0 < n -> smeared x n y -> smeared x (2 * n) (Z.lor y (Z.shiftr y n)).
Proof.
  intros Hn Hy i Hi.
  rewrite Z.lor_spec, Z.shiftr_spec, orb_true_iff by lia.
  rewrite (Hy i Hi), (Hy (i + n)) by lia. split.
  - intros [(j & Hj & H) | (j & Hj & H)].
    + exists j. split; [lia | exact H].
    + exists (n + j). split; [lia|]. now replace (i + (n + j)) with (i + n + j) by lia.
  - intros (j & Hj & H). destruct (Z.lt_ge_cases j n).
    + left. exists j. split; [lia | exact H].
    + right. exists (j - n). split; [lia|]. now replace (i + n + (j - n)) with (i + j) by lia.
Qed.

Lemma smeared_ones x y :
  0 < x < 2 ^ 64 -> smeared x 64 y -> 0 <= y -> y = Z.ones (Z.log2 x + 1).
Proof.
  intros Hx Hy Hy0.
  assert (Hlog : 0 <= Z.log2 x < 64).
  { split; [apply Z.log2_nonneg|]. apply Z.log2_lt_pow2; lia. }
  apply Z.bits_inj'. intros i Hi.
  rewrite Z.testbit_ones by lia.
  destruct (Z.leb_spec 0 i); [|lia]. cbn [andb].
  destruct (Z.ltb_spec i (Z.log2 x + 1)).
  - apply Hy; [lia|]. exists (Z.log2 x - i). split; [lia|].
    replace (i + (Z.log2 x - i)) with (Z.log2 x) by lia. apply Z.bit_log2. lia.
  - apply not_true_is_false. intros Ht. apply Hy in Ht; [|lia].
    destruct Ht as (j & Hj & Ht).
    rewrite Z.bits_above_log2 in Ht by lia. discriminate.
Qed.

Lemma next_pow2_spec x :
  1 <= x <= 2 ^ 63 -> next_pow2 x = 2 ^ Z.log2_up x.
Proof.
  intros Hx. unfold next_pow2.
  destruct (Z.leb_spec x 1) as [H1 | H1].
  - replace x with 1 by lia. reflexivity.
  - rewrite (to_size_t_id (x - 1)) by lia.
    set (x1 := Z.lor (x - 1) (Z.shiftr (x - 1) 1)).
    set (x2 := Z.lor x1 (Z.shiftr x1 2)).
    set (x3 := Z.lor x2 (Z.shiftr x2 4)).
    set (x4 := Z.lor x3 (Z.shiftr x3 8)).
    set (x5 := Z.lor x4 (Z.shiftr x4 16)).
    set (x6 := Z.lor x5 (Z.shiftr x5 32)).
    assert (S1 : smeared (x - 1) 2 x1) by (apply (smeared_step _ 1); [lia | apply smeared_init]).
    assert (S2 : smeared (x - 1) 4 x2) by (apply (smeared_step _ 2); [lia | exact S1]).
    assert (S3 : smeared (x - 1) 8 x3) by (apply (smeared_step _ 4); [lia | exact S2]).
    assert (S4 : smeared (x - 1) 16 x4) by (apply (smeared_step _ 8); [lia | exact S3]).
    assert (S5 : smeared (x - 1) 32 x5) by (apply (smeared_step _ 16); [lia | exact S4]).
    assert (S6 : smeared (x - 1) 64 x6) by (apply (smeared_step _ 32); [lia | exact S5]).
    assert (N1 : 0 <= x1) by (apply Z.lor_nonneg; split; [lia | apply Z.shiftr_nonneg; lia]).
    assert (N2 : 0 <= x2) by (apply Z.lor_nonneg; split; [lia | apply Z.shiftr_nonneg; lia]).
    assert (N3 : 0 <= x3) by (apply Z.lor_nonneg; split; [lia | apply Z.shiftr_nonneg; lia]).
    assert (N4 : 0 <= x4) by (apply Z.lor_nonneg; split; [lia | apply Z.shiftr_nonneg; lia]).
    assert (N5 : 0 <= x5) by (apply Z.lor_nonneg; split; [lia | apply Z.shiftr_nonneg; lia]).
    assert (N6 : 0 <= x6) by (apply Z.lor_nonneg; split; [lia | apply Z.shiftr_nonneg; lia]).
    rewrite (smeared_ones (x - 1) x6) by (try assumption; lia).
    rewrite Z.ones_equiv.
    assert (Hl : Z.log2 (x - 1) < 63) by (apply Z.log2_lt_pow2; lia).
    assert (Hl0 : 0 <= Z.log2 (x - 1)) by apply Z.log2_nonneg.
    rewrite Z.log2_up_eqn by lia.
    replace (Z.pred x) with (x - 1) by lia.
    replace (Z.succ (Z.log2 (x - 1))) with (Z.log2 (x - 1) + 1) by lia.
    replace (Z.pred (2 ^ (Z.log2 (x - 1) + 1)) + 1) with (2 ^ (Z.log2 (x - 1) + 1)) by lia.
    apply to_size_t_id. split; [lia|].
    apply Z.pow_lt_mono_r; lia.
Qed.

Lemma next_pow2_bounds x :
  1 <= x <= 2 ^ 63 -> x <= next_pow2 x < 2 * x.
Proof.
  intros Hx. rewrite next_pow2_spec by exact Hx.
  destruct (Z.eq_dec x 1) as [-> | Hne].
  - cbn. lia.
  - pose proof (Z.log2_up_spec x ltac:(lia)) as [Hlo Hhi].
    assert (0 < Z.log2_up x) by (apply Z.log2_up_pos; lia).
    replace (Z.log2_up x) with (Z.succ (Z.pred (Z.log2_up x))) at 2 by lia.
    rewrite Z.pow_succ_r by lia. lia.
Qed.

Lemma resize_unfold n t :
  resize n t
  = {| table_ := replicate (Z.to_nat (resize_buckets n)) Bucket.default;
       mask_ := to_size_t (resize_buckets n - 1);
       capacity_entries_ := to_size_t (resize_buckets n * CLUSTER_SIZE);
       gen_ := 1 |}.
Proof. reflexivity. Qed.

Lemma resize_buckets_pow2 n :
  0 <= n < 2 ^ 64 ->
  resize_buckets n = 2 ^ Z.log2_up (Z.max 1 (n / 4)) /\ 1 <= resize_buckets n < 2 ^ 63.
Proof.
  intros Hn. unfold resize_buckets, CLUSTER_SIZE.
  set (m := if n <? 4 then 4 else n).
  set (b := if m / 4 <? 1 then 1 else m / 4).
  assert (Hb : b = Z.max 1 (n / 4)).
  { subst b m. destruct (Z.ltb_spec n 4).
    - rewrite (Z.div_small n 4) by lia. reflexivity.
    - assert (1 <= n / 4) by (apply Z.div_le_lower_bound; lia).
      destruct (Z.ltb_spec (n / 4) 1); lia. }
  assert (Hr : 1 <= b < 2 ^ 62).
  { rewrite Hb. assert (n / 4 < 2 ^ 62) by (apply Z.div_lt_upper_bound; lia). lia. }
  pose proof (next_pow2_bounds b ltac:(lia)).
  rewrite <- Hb. split; [apply next_pow2_spec; lia | lia].
Qed.

(** ** Well-formed tables *)

Lemma slot_hit_true g sig pe :
  slot_hit g sig pe = true <->
  PackedEntry.gen pe = g /\ 0 <= PackedEntry.depth pe /\ PackedEntry.key16 pe = sig.
Proof.
  unfold slot_hit.
  destruct (Z.eqb_spec (PackedEntry.gen pe) g); cbn [negb];
    [| split; [discriminate | tauto]].
  destruct (Z.ltb_spec (PackedEntry.depth pe) 0); [split; [discriminate | lia]|].
  destruct (Z.eqb_spec (PackedEntry.key16 pe) sig); cbn [negb];
    [tauto | split; [discriminate | tauto]].
Qed.

Lemma write_depth g sig entry pe :
  PackedEntry.depth (write g sig entry pe) = clamp (TTEntry.depth entry) 0 127.
Proof.
  cbn. apply to_i8_id. pose proof (clamp_range (TTEntry.depth entry) 0 127). lia.
Qed.

Lemma write_hit g sig entry pe : slot_hit g sig (write g sig entry pe) = true.
Proof.
  apply slot_hit_true. rewrite write_depth.
  pose proof (clamp_range (TTEntry.depth entry) 0 127). cbn. lia.
Qed.

Lemma write_ok g sig entry pe : 0 <= g -> slot_ok g (write g sig entry pe).
Proof.
  intros Hg. unfold slot_ok. rewrite write_depth.
  pose proof (clamp_range (TTEntry.depth entry) 0 127). cbn. lia.
Qed.

Lemma fill_move_hit g sig entry pe :
  slot_hit g sig (fill_move entry pe) = slot_hit g sig pe.
Proof. unfold fill_move. destruct (_ && _); reflexivity. Qed.

Lemma fill_move_ok g entry pe : slot_ok g pe -> slot_ok g (fill_move entry pe).
Proof. unfold fill_move. destruct (_ && _); [|tauto]. unfold slot_ok. cbn. tauto. Qed.

(** *** The three passes of [store] as updates of one slot *)

Lemma store_same_key_None g sig entry es :
  store_same_key g sig entry es = None <->
  Forall (fun pe => slot_hit g sig pe = false) es.
Proof.
  induction es as [| pe rest IH]; cbn.
  - split; [constructor | reflexivity].
  - destruct (slot_hit g sig pe) eqn:Hh.
    + split; [discriminate |]. intros HF. inversion HF; subst. congruence.
    + destruct (store_same_key g sig entry rest).
      * split; [discriminate |]. intros HF. inversion HF; subst.
        apply IH in H2. discriminate.
      * split; [| reflexivity]. intros _. constructor; [exact Hh | now apply IH].
Qed.

Lemma store_same_key_Some g sig entry es es' :
  store_same_key g sig entry es = Some es' ->
  exists (i : nat) pe,
    es !! i = Some pe /\ find (slot_hit g sig) es = Some pe /\
    es' = <[i := if replace entry pe then write g sig entry pe else fill_move entry pe]> es.
Proof.
  revert es'. induction es as [| pe rest IH]; cbn; intros es' H; [discriminate|].
  destruct (slot_hit g sig pe) eqn:Hh.
  - inversion H; subst. exists 0%nat, pe. auto.
  - destruct (store_same_key g sig entry rest) as [rest' |]; [| discriminate].
    inversion H; subst. destruct (IH rest' eq_refl) as (i & p & Hi & Hf & ->).
    exists (S i), p. auto.
Qed.

Lemma store_free_slot_Some g sig entry es es' :
  store_free_slot g sig entry es = Some es' ->
  exists (i : nat) pe, es !! i = Some pe /\ es' = <[i := write g sig entry pe]> es.
Proof.
  revert es'. induction es as [| pe rest IH]; cbn; intros es' H; [discriminate|].
  destruct (negb (PackedEntry.gen pe =? g) || (PackedEntry.depth pe <? 0)).
  - inversion H; subst. exists 0%nat, pe. auto.
  - destruct (store_free_slot g sig entry rest) as [rest' |]; [| discriminate].
    inversion H; subst. destruct (IH rest' eq_refl) as (i & p & Hi & ->).
    exists (S i), p. auto.
Qed.

Lemma pick_victim_lt g es (i victim : nat) q :
  (victim < i + length es)%nat -> (pick_victim g es i victim q < i + length es)%nat.
Proof.
  revert i victim q. induction es as [| pe rest IH]; cbn; intros i victim q H; [exact H|].
  destruct (quality g pe <? q).
  - specialize (IH (S i) i (quality g pe)). lia.
  - specialize (IH (S i) victim q). lia.
Qed.

Lemma store_victim_shape g sig entry es :
  es <> [] ->
  exists (i : nat) pe,
    es !! i = Some pe /\ store_victim g sig entry es = <[i := write g sig entry pe]> es.
Proof.
  intros Hne. destruct es as [| e0 rest]; [congruence|].
  unfold store_victim.
  set (v := pick_victim g (e0 :: rest) 0 0 (quality g e0)).
  assert (Hv : (v < length (e0 :: rest))%nat).
  { subst v. apply (pick_victim_lt g (e0 :: rest) 0 0). cbn. lia. }
  destruct (lookup_lt_is_Some_2 _ _ Hv) as [pe Hpe].
  exists v, pe. rewrite Hpe. auto.
Qed.

(** Whatever pass applies, [store] rewrites exactly one slot of the bucket:
    the first matching slot if there is one (overwritten or given a move),
    some other slot (overwritten) if not. *)
Lemma store_bucket_shape g sig entry b :
  Bucket.e b <> [] ->
  exists (i : nat) pe,
    Bucket.e b !! i = Some pe /\
    match find (slot_hit g sig) (Bucket.e b) with
    | Some hit =>
        store_same_key g sig entry (Bucket.e b) = Some (Bucket.e (store_bucket g sig entry b)) /\
        Bucket.e (store_bucket g sig entry b)
        = <[i := if replace entry hit then write g sig entry hit else fill_move entry hit]>
            (Bucket.e b)
    | None =>
        Forall (fun pe => slot_hit g sig pe = false) (Bucket.e b) /\
        Bucket.e (store_bucket g sig entry b) = <[i := write g sig entry pe]> (Bucket.e b)
    end.
Proof.
  intros Hne. unfold store_bucket.
  destruct (store_same_key g sig entry (Bucket.e b)) as [es' |] eqn:H1.
  - destruct (store_same_key_Some _ _ _ _ _ H1) as (i & pe & Hi & Hf & ->).
    exists i, pe. rewrite Hf. cbn. auto.
  - pose proof (proj1 (store_same_key_None _ _ _ _) H1) as Hno.
    assert (Hf : find (slot_hit g sig) (Bucket.e b) = None).
    { clear -Hno. induction Hno as [| pe rest Hpe _ IH]; cbn; [reflexivity|].
      now rewrite Hpe. }
    rewrite Hf.
    destruct (store_free_slot g sig entry (Bucket.e b)) as [es' |] eqn:H2.
    + destruct (store_free_slot_Some _ _ _ _ _ H2) as (i & pe & Hi & ->).
      exists i, pe. cbn. auto.
    + destruct (store_victim_shape g sig entry _ Hne) as (i & pe & Hi & Hs).
      exists i, pe. cbn. auto.
Qed.

Lemma write_indep g sig entry pe pe' : write g sig entry pe = write g sig entry pe'.
Proof. reflexivity. Qed.

Lemma probe_bucket_find g sig key es :
  probe_bucket g sig key es = option_map (unpack key) (find (slot_hit g sig) es).
Proof.
  induction es as [| pe rest IH]; cbn; [reflexivity|].
  destruct (slot_hit g sig pe); [reflexivity | exact IH].
Qed.

Lemma find_nohit g sig es :
  Forall (fun pe => slot_hit g sig pe = false) es -> find (slot_hit g sig) es = None.
Proof. induction 1 as [| pe rest Hpe _ IH]; cbn; [reflexivity|]. now rewrite Hpe. Qed.

Lemma find_insert_nohit g sig es (i : nat) new :
  Forall (fun pe => slot_hit g sig pe = false) es ->
  (i < length es)%nat ->
  slot_hit g sig new = true ->
  find (slot_hit g sig) (<[i := new]> es) = Some new.
Proof.
  intros HF. revert i. induction HF as [| pe rest Hpe _ IH]; intros i Hi Hn; cbn in Hi; [lia|].
  destruct i as [| i]; cbn.
  - now rewrite Hn.
  - rewrite Hpe. apply IH; [lia | exact Hn].
Qed.

Lemma find_store_same_key g sig entry es es' hit :
  store_same_key g sig entry es = Some es' ->
  find (slot_hit g sig) es = Some hit ->
  find (slot_hit g sig) es'
  = Some (if replace entry hit then write g sig entry hit else fill_move entry hit).
Proof.
  revert es'. induction es as [| pe rest IH]; cbn; intros es' H Hf; [discriminate|].
  destruct (slot_hit g sig pe) eqn:Hh.
  - inversion H; subst. inversion Hf; subst. cbn.
    destruct (replace entry hit).
    + now rewrite write_hit.
    + now rewrite fill_move_hit, Hh.
  - destruct (store_same_key g sig entry rest) as [rest' |]; [| discriminate].
    inversion H; subst. cbn. rewrite Hh. now apply IH.
Qed.

Lemma find_store_bucket g sig entry b :
  Bucket.e b <> [] ->
  find (slot_hit g sig) (Bucket.e (store_bucket g sig entry b))
  = Some (stored_slot g sig entry (Bucket.e b)).
Proof.
  intros Hne. unfold stored_slot.
  destruct (store_bucket_shape g sig entry b Hne) as (i & pe & Hi & Hs).
  destruct (find (slot_hit g sig) (Bucket.e b)) as [hit |] eqn:Hf.
  - destruct Hs as [Hs _]. now apply (find_store_same_key _ _ _ _ _ _ Hs).
  - destruct Hs as [Hno ->].
    rewrite (write_indep g sig entry pe PackedEntry.default).
    apply find_insert_nohit; [exact Hno | | apply write_hit].
    apply lookup_lt_is_Some. eauto.
Qed.

Lemma store_bucket_ok g sig entry b :
  0 <= g -> bucket_ok g b -> bucket_ok g (store_bucket g sig entry b).
Proof.
  intros Hg [Hlen Hall].
  assert (Hne : Bucket.e b <> []).
  { intros E. rewrite E in Hlen. discriminate. }
  destruct (store_bucket_shape g sig entry b Hne) as (i & pe & Hi & Hs).
  assert (Hshape : exists new, slot_ok g new /\
            Bucket.e (store_bucket g sig entry b) = <[i := new]> (Bucket.e b)).
  { destruct (find (slot_hit g sig) (Bucket.e b)) as [hit |] eqn:Hf.
    - destruct Hs as [_ ->]. eexists. split; [| reflexivity].
      destruct (replace entry hit); [now apply write_ok|].
      apply fill_move_ok. apply find_some in Hf. destruct Hf as [Hin _].
      rewrite Forall_forall in Hall. apply Hall. now apply list_elem_of_In.
    - destruct Hs as [_ ->]. eexists. split; [| reflexivity]. now apply write_ok. }
  destruct Hshape as (new & Hnew & E). unfold bucket_ok. rewrite E. split.
  - now rewrite length_insert.
  - now apply Forall_insert.
Qed.

(** *** Index safety *)

Lemma bucket_index_in_range t key :
  tt_wf t -> table_ t <> [] ->
  exists b, table_ t !! Z.to_nat (bucket_index t key) = Some b.
Proof.
  intros Hwf Hne. pose proof (wf_mask t Hwf Hne) as Hm.
  assert (0 <= mask_ t).
  { destruct (table_ t); [congruence|]. cbn [length] in Hm. lia. }
  pose proof (land_le_r (to_size_t key) (mask_ t) ltac:(lia)) as Hi.
  apply lookup_lt_is_Some. unfold bucket_index. lia.
Qed.

Lemma store_Ok entry t : tt_wf t -> exists t', store entry t = Ok t'.
Proof.
  intros Hwf. unfold store. destruct (table_ t) as [| b0 bs] eqn:Et; [eauto|].
  destruct (bucket_index_in_range t (TTEntry.key entry) Hwf) as [b Hb];
    [rewrite Et; discriminate|].
  rewrite Et in Hb. rewrite Hb. eauto.
Qed.

Lemma probe_Ok t key : tt_wf t -> exists r, probe t key = Ok r.
Proof.
  intros Hwf. unfold probe. destruct (table_ t) as [| b0 bs] eqn:Et; [eauto|].
  destruct (bucket_index_in_range t key Hwf) as [b Hb]; [rewrite Et; discriminate|].
  rewrite Et in Hb. rewrite Hb. eauto.
Qed.

(** *** The invariant holds in every reachable state *)

Lemma default_wf : tt_wf TranspositionTable_default.
Proof. split; cbn; [lia | congruence | constructor]. Qed.

Lemma bucket_default_ok g : 0 <= g -> bucket_ok g Bucket.default.
Proof.
  intros Hg. split; [reflexivity|].
  cbn. repeat constructor; cbn; lia.
Qed.

Lemma resize_wf n t : 0 <= n < 2 ^ 64 -> tt_wf (resize n t).
Proof.
  intros Hn. destruct (resize_buckets_pow2 n Hn) as [_ Hb].
  rewrite resize_unfold. split; cbn [gen_ table_ mask_].
  - lia.
  - intros _. rewrite length_replicate, to_size_t_id by lia. lia.
  - apply Forall_replicate. apply bucket_default_ok. lia.
Qed.

Lemma slot_ok_mono g g' pe : g <= g' -> slot_ok g pe -> slot_ok g' pe.
Proof. unfold slot_ok. lia. Qed.

Lemma clear_gen_wrap t : gen_ t = 255 -> to_u8 (gen_ t + 1) = 0.
Proof. intros ->. reflexivity. Qed.

Lemma clear_gen_next t : 0 <= gen_ t < 255 -> to_u8 (gen_ t + 1) = gen_ t + 1.
Proof. intros H. apply wrap_unsigned_id. lia. Qed.

Lemma clear_wf t : tt_wf t -> tt_wf (clear t).
Proof.
  intros [Hg Hm Hb]. unfold clear.
  destruct (Z.eq_dec (gen_ t) 255) as [E | E].
  - rewrite (clear_gen_wrap t E). cbn [Z.eqb]. split; cbn [gen_ table_ mask_].
    + lia.
    + intros Hne. rewrite length_map. apply Hm. intros E'. now rewrite E' in Hne.
    + apply Forall_map. eapply Forall_impl; [exact Hb|].
      intros b [Hlen _]. split; cbn [Bucket.e].
      * now rewrite length_map.
      * apply Forall_map. apply Forall_true. intros pe. cbv. repeat split; congruence.
  - rewrite (clear_gen_next t) by lia.
    destruct (Z.eqb_spec (gen_ t + 1) 0); [lia|]. split; cbn [gen_ table_ mask_].
    + lia.
    + exact Hm.
    + eapply Forall_impl; [exact Hb|]. intros b [Hlen Hall]. split; [exact Hlen|].
      eapply Forall_impl; [exact Hall|]. intros pe. apply slot_ok_mono. lia.
Qed.

Lemma store_wf entry t t' : tt_wf t -> store entry t = Ok t' -> tt_wf t'.
Proof.
  intros Hwf. pose proof Hwf as [Hg Hm Hb]. unfold store.
  destruct (table_ t) as [| b0 bs] eqn:Et.
  - intros H. inversion H; subst. exact Hwf.
  - destruct ((b0 :: bs) !! Z.to_nat (bucket_index t (TTEntry.key entry))) as [b |] eqn:Hb';
      [| discriminate].
    intros H. inversion H; subst. split; cbn.
    + exact Hg.
    + intros _. rewrite length_insert. apply Hm. discriminate.
    + apply Forall_insert; [exact Hb|].
      apply store_bucket_ok; [lia|].
      rewrite Forall_forall in Hb. apply Hb. eapply list_elem_of_lookup_2. exact Hb'.
Qed.

Lemma reachable_wf t : reachable t -> tt_wf t.
Proof.
  induction 1.
  - apply default_wf.
  - now apply resize_wf.
  - now apply clear_wf.
  - eapply store_wf; eassumption.
Qed.

(** *** [probe] after [store] *)

Lemma probe_unfold t key b :
  table_ t !! Z.to_nat (bucket_index t key) = Some b ->
  probe t key
  = Ok (option_map (unpack key) (find (slot_hit (gen_ t) (key_signature16 key)) (Bucket.e b))).
Proof.
  intros Hb. unfold probe. destruct (table_ t) as [| b0 bs] eqn:Et.
  - rewrite lookup_nil in Hb. discriminate.
  - rewrite Hb. now rewrite probe_bucket_find.
Qed.

Lemma probe_after_store t entry :
  tt_wf t -> table_ t <> [] ->
  exists t' b,
    table_ t !! Z.to_nat (bucket_index t (TTEntry.key entry)) = Some b /\
    store entry t = Ok t' /\
    probe t' (TTEntry.key entry)
    = Ok (Some (unpack (TTEntry.key entry)
                  (stored_slot (gen_ t) (key_signature16 (TTEntry.key entry)) entry
                     (Bucket.e b)))).
Proof.
  intros Hwf Hne.
  destruct (bucket_index_in_range t (TTEntry.key entry) Hwf Hne) as [b Hb].
  assert (Hbne : Bucket.e b <> []).
  { pose proof (wf_buckets t Hwf) as HF. rewrite Forall_forall in HF.
    destruct (HF b (list_elem_of_lookup_2 _ _ _ Hb)) as [Hlen _].
    intros E. rewrite E in Hlen. discriminate. }
  unfold store. destruct (table_ t) as [| b0 bs] eqn:Et; [congruence|].
  rewrite Hb. eexists _, b. split; [reflexivity|]. split; [reflexivity|].
  erewrite probe_unfold.
  - cbn [gen_]. rewrite find_store_bucket by exact Hbne. reflexivity.
  - unfold bucket_index. cbn [table_ mask_].
    apply list_lookup_insert_eq. apply lookup_lt_is_Some. eauto.
Qed.

Lemma unpack_write_carries key g sig entry pe :
  carries (unpack key (write g sig entry pe)) entry.
Proof.
  unfold carries. cbn [unpack TTEntry.flag TTEntry.value TTEntry.depth TTEntry.hasMove
                         TTEntry.bestMove].
  rewrite write_depth. cbn. destruct (TTEntry.hasMove entry); cbn; repeat split; auto.
  discriminate.
Qed.

Lemma unpack_fill_keeps key entry pe :
  keeps (unpack key (fill_move entry pe)) (unpack key pe) entry.
Proof.
  unfold keeps, fill_move.
  destruct (TTEntry.hasMove entry) eqn:He; cbn [andb].
  - destruct (Z.eqb_spec (PackedEntry.hasMove pe) 0) as [E | E]; cbn.
    + rewrite E. cbn. auto.
    + destruct (Z.eqb_spec (PackedEntry.hasMove pe) 0); [contradiction|]. cbn. auto.
  - cbn. destruct (Z.eqb_spec (PackedEntry.hasMove pe) 0); cbn; auto.
    repeat split; auto. discriminate.
Qed.

Lemma replace_overwrites key entry pe :
  replace entry pe = overwrites entry (unpack key pe).
Proof. reflexivity. Qed.

(** *** Stale generations *)

Lemma clear_all_stale t : tt_wf t -> all_stale (clear t).
Proof.
  intros [Hg Hm Hb]. unfold all_stale, clear.
  destruct (Z.eq_dec (gen_ t) 255) as [E | E].
  - rewrite (clear_gen_wrap t E). cbn [Z.eqb gen_ table_].
    apply Forall_map. apply Forall_true. intros b. cbn [Bucket.e].
    apply Forall_map. apply Forall_true. intros pe. cbn. lia.
  - rewrite (clear_gen_next t) by lia.
    destruct (Z.eqb_spec (gen_ t + 1) 0); [lia|]. cbn [gen_ table_].
    eapply Forall_impl; [exact Hb|]. intros b [_ Hall].
    eapply Forall_impl; [exact Hall|]. intros pe [_ Hpe]. lia.
Qed.

Lemma stale_probe_None t k : tt_wf t -> all_stale t -> probe t k = Ok None.
Proof.
  intros Hwf Hst. unfold probe. destruct (table_ t) as [| b0 bs] eqn:Et; [reflexivity|].
  destruct (bucket_index_in_range t k Hwf) as [b Hb]; [rewrite Et; discriminate|].
  rewrite Et in Hb. rewrite Hb. f_equal.
  rewrite probe_bucket_find, find_nohit; [reflexivity|].
  unfold all_stale in Hst. rewrite Et, Forall_forall in Hst.
  specialize (Hst b (list_elem_of_lookup_2 _ _ _ Hb)).
  eapply Forall_impl; [exact Hst|]. intros pe Hpe. cbn beta in Hpe.
  unfold slot_hit. destruct (Z.eqb_spec (PackedEntry.gen pe) (gen_ t)); [lia | reflexivity].
Qed.

Lemma iter_clear_wf (n : nat) t : tt_wf t -> tt_wf (Nat.iter n clear t).
Proof. intros H. induction n as [| n IH]; cbn; [exact H | now apply clear_wf]. Qed.

Lemma iter_clear_no_wrap (n : nat) t :
  0 <= gen_ t -> gen_ t + Z.of_nat n <= 255 ->
  table_ (Nat.iter n clear t) = table_ t /\ gen_ (Nat.iter n clear t) = gen_ t + Z.of_nat n.
Proof.
  intros H0. induction n as [| n IH]; intros Hn.
  - cbn. split; [reflexivity | lia].
  - destruct IH as [IHt IHg]; [lia|].
    change (Nat.iter (S n) clear t) with (clear (Nat.iter n clear t)).
    set (t' := Nat.iter n clear t) in *.
    unfold clear. rewrite (clear_gen_next t') by lia.
    destruct (Z.eqb_spec (gen_ t' + 1) 0); [lia|].
    cbn [table_ gen_]. split; [exact IHt | lia].
Qed.

Lemma store_gen entry t t' : store entry t = Ok t' -> gen_ t' = gen_ t.
Proof.
  unfold store. destruct (table_ t); [intros H; now inversion H|].
  destruct (_ !! _); [| discriminate]. intros H. now inversion H.
Qed.

Lemma probe_hit_slot t k out :
  probe t k = Ok (Some out) ->
  exists b (i : nat) pe,
    table_ t !! Z.to_nat (bucket_index t k) = Some b /\
    Bucket.e b !! i = Some pe /\
    slot_hit (gen_ t) (key_signature16 k) pe = true /\
    out = unpack k pe.
Proof.
  unfold probe. destruct (table_ t) as [| b0 bs]; [discriminate|].
  destruct (_ !! _) as [b |] eqn:Hb; [| discriminate].
  intros H. inversion H as [Hp]. clear H. rewrite probe_bucket_find in Hp.
  destruct (find _ _) as [pe |] eqn:Hf; [| discriminate].
  inversion Hp; subst. apply find_some in Hf. destruct Hf as [Hin Hhit].
  apply list_elem_of_In, list_elem_of_lookup in Hin. destruct Hin as [i Hi].
  exists b, i, pe. auto.
Qed.

(** ** Statements about the transposition table *)

Lemma table_with_deep_entry_reachable : reachable table_with_deep_entry.
Proof.
  apply (reach_store deep_entry (resize 4 TranspositionTable_default)).
  - apply reach_resize; [apply reach_default | lia].
  - reflexivity.
Qed.

(** C1, counterexample: storing a depth-3 entry for a key whose bucket
    already holds a depth-9 entry of the current generation leaves the
    depth-9 entry in place, and [probe] returns that one; an entry of depth
    200 is read back with depth 127; and a table without storage returns
    nothing. *)
Lemma store_probe_keeps_deeper_entry :
  store shallow_entry table_with_deep_entry = Ok table_with_deep_entry /\
  probe table_with_deep_entry 7 = Ok (Some deep_entry) /\
  ~ store_probe_as_stated table_with_deep_entry shallow_entry /\
  ~ store_probe_as_stated table_with_deep_entry too_deep_entry /\
  ~ store_probe_as_stated TranspositionTable_default shallow_entry.
Proof.
  split; [reflexivity|]. split; [reflexivity|]. split; [| split].
  - intros (t' & out & Hs & Hp & _ & Hd & _).
    change (store shallow_entry table_with_deep_entry) with (Ok table_with_deep_entry) in Hs.
    inversion Hs; subst t'.
    change (probe table_with_deep_entry (TTEntry.key shallow_entry))
      with (Ok (Some deep_entry)) in Hp.
    inversion Hp; subst out. discriminate Hd.
  - intros (t' & out & Hs & Hp & _ & Hd & _).
    change (store too_deep_entry table_with_deep_entry)
      with (Ok table_with_saturated_entry) in Hs.
    inversion Hs; subst t'.
    change (probe table_with_saturated_entry (TTEntry.key too_deep_entry))
      with (Ok (Some (unpack 7 (PackedEntry.mk 50 0 0 127 TT_LOWERBOUND 1 0)))) in Hp.
    inversion Hp; subst out. discriminate Hd.
  - intros (t' & out & Hs & Hp & _).
    change (store shallow_entry TranspositionTable_default)
      with (Ok TranspositionTable_default) in Hs.
    inversion Hs; subst t'. discriminate Hp.
Qed.

(** C1, amended: on a table with storage, [store e] followed by [probe] of
    the key of [e] always hits.  If the key missed before the store, or hit
    an entry that [e] overwrites (deeper, or equally deep with [e] exact and
    the old one not), the entry read back has the flag and value of [e], the
    depth of [e] saturated to 0..127, and the move of [e] if it had one.
    Otherwise the old entry is read back, with the move of [e] filled in if
    it had none. *)
Theorem store_then_probe (t : TranspositionTable) (e : TTEntry.t)
    (Hwf : tt_wf t) (Hne : table_ t <> []) :
  exists t' out,
    store e t = Ok t' /\ probe t' (TTEntry.key e) = Ok (Some out) /\
    TTEntry.key out = TTEntry.key e /\
    match probe t (TTEntry.key e) with
    | Ok (Some old) => if overwrites e old then carries out e else keeps out old e
    | _ => carries out e
    end.
Proof.
  destruct (probe_after_store t e Hwf Hne) as (t' & b & Hb & Hs & Hp).
  eexists t', _. split; [exact Hs|]. split; [exact Hp|]. split; [reflexivity|].
  rewrite (probe_unfold t _ b Hb). unfold stored_slot.
  destruct (find _ (Bucket.e b)) as [hit |]; cbn [option_map].
  - rewrite <- (replace_overwrites (TTEntry.key e)).
    destruct (replace e hit).
    + apply unpack_write_carries.
    + apply unpack_fill_keeps.
  - apply unpack_write_carries.
Qed.

Lemma store_then_probe_witness :
  exists t' out,
    store shallow_entry table_with_deep_entry = Ok t' /\
    probe t' (TTEntry.key shallow_entry) = Ok (Some out) /\
    TTEntry.key out = TTEntry.key shallow_entry /\
    match probe table_with_deep_entry (TTEntry.key shallow_entry) with
    | Ok (Some old) =>
        if overwrites shallow_entry old then carries out shallow_entry
        else keeps out old shallow_entry
    | _ => carries out shallow_entry
    end.
Proof.
  apply (store_then_probe table_with_deep_entry shallow_entry).
  - apply reachable_wf, table_with_deep_entry_reachable.
  - discriminate.
Defined.

(** C2: a hit of [probe] comes from a slot of the probed bucket whose
    generation is the current one and whose depth is not negative.  What was
    stored before a [clear] is not returned afterwards, however many clears
    follow, although, as long as the generation has not wrapped, the slots
    are still exactly as [store] left them. *)
Theorem probe_hit_is_current_generation (t : TranspositionTable) (k : Z) :
  (forall out, probe t k = Ok (Some out) ->
     exists b (i : nat) pe,
       table_ t !! Z.to_nat (bucket_index t k) = Some b /\
       Bucket.e b !! i = Some pe /\
       out = unpack k pe /\
       PackedEntry.gen pe = gen_ t /\
       0 <= PackedEntry.depth pe /\
       0 <= TTEntry.depth out)
  /\
  (forall e t1 (n : nat),
     reachable t -> store e t = Ok t1 -> (1 <= n)%nat ->
     probe (Nat.iter n clear t1) k = Ok None /\
     (gen_ t + Z.of_nat n <= 255 -> table_ (Nat.iter n clear t1) = table_ t1)).
Proof.
  split.
  - intros out H. destruct (probe_hit_slot t k out H) as (b & i & pe & Hb & Hi & Hhit & ->).
    apply slot_hit_true in Hhit. destruct Hhit as (Hg & Hd & _).
    exists b, i, pe. cbn [unpack TTEntry.depth]. auto 10.
  - intros e t1 n Hr Hs Hn.
    assert (Hwf1 : tt_wf t1) by (eapply store_wf; [apply reachable_wf | ]; eassumption).
    split.
    + destruct n as [| n]; [lia|].
      change (Nat.iter (S n) clear t1) with (clear (Nat.iter n clear t1)).
      apply stale_probe_None.
      * apply clear_wf, iter_clear_wf, Hwf1.
      * apply clear_all_stale, iter_clear_wf, Hwf1.
    + intros Hg. apply iter_clear_no_wrap.
      * pose proof (wf_gen t1 Hwf1). lia.
      * rewrite (store_gen e t t1 Hs). exact Hg.
Qed.

Lemma probe_hit_is_current_generation_witness :
  (exists b (i : nat) pe,
     table_ table_with_deep_entry !! Z.to_nat (bucket_index table_with_deep_entry 7) = Some b /\
     Bucket.e b !! i = Some pe /\
     deep_entry = unpack 7 pe /\
     PackedEntry.gen pe = gen_ table_with_deep_entry /\
     0 <= PackedEntry.depth pe /\
     0 <= TTEntry.depth deep_entry)
  /\
  probe (Nat.iter 1 clear table_with_deep_entry) 7 = Ok None
  /\
  table_ (Nat.iter 1 clear table_with_deep_entry) = table_ table_with_deep_entry.
Proof.
  split; [| split].
  - apply (proj1 (probe_hit_is_current_generation table_with_deep_entry 7) deep_entry).
    reflexivity.
  - apply (proj2 (probe_hit_is_current_generation table_with_deep_entry 7)
             shallow_entry table_with_deep_entry 1%nat).
    + apply table_with_deep_entry_reachable.
    + reflexivity.
    + lia.
  - apply (proj2 (probe_hit_is_current_generation table_with_deep_entry 7)
             shallow_entry table_with_deep_entry 1%nat).
    + apply table_with_deep_entry_reachable.
    + reflexivity.
    + lia.
    + cbn. lia.
Defined.

(** C3: [clear] only advances the generation and leaves table, mask and
    capacity as they are, unless the generation was 255: then the 8-bit
    counter wraps to 0, every slot is reset to the empty slot and the
    generation is 1.  Either way, whatever was just stored, [probe] returns
    nothing for any key after the [clear]. *)
Theorem clear_bumps_generation (t : TranspositionTable) (Hr : reachable t) :
  (gen_ t < 255 ->
   clear t = mkTT (table_ t) (mask_ t) (capacity_entries_ t) (gen_ t + 1))
  /\
  (gen_ t = 255 ->
   gen_ (clear t) = 1 /\
   length (table_ (clear t)) = length (table_ t) /\
   Forall (fun b => Forall (fun pe => pe = PackedEntry.default) (Bucket.e b))
          (table_ (clear t)))
  /\
  (forall e t1 k, store e t = Ok t1 -> probe (clear t1) k = Ok None).
Proof.
  pose proof (reachable_wf t Hr) as Hwf. pose proof (wf_gen t Hwf) as Hg.
  split; [| split].
  - intros Hlt. unfold clear. rewrite (clear_gen_next t) by lia.
    destruct (Z.eqb_spec (gen_ t + 1) 0); [lia | reflexivity].
  - intros E. unfold clear. rewrite (clear_gen_wrap t E). cbn [Z.eqb gen_ table_].
    split; [reflexivity|]. split; [apply length_map|].
    apply Forall_map. apply Forall_true. intros b. cbn [Bucket.e].
    apply Forall_map. apply Forall_true. reflexivity.
  - intros e t1 k Hs.
    assert (Hwf1 : tt_wf t1) by (eapply store_wf; eassumption).
    apply stale_probe_None; [now apply clear_wf | now apply clear_all_stale].
Qed.

Lemma iter_clear_reachable (n : nat) t : reachable t -> reachable (Nat.iter n clear t).
Proof. intros H. induction n as [| n IH]; cbn; [exact H | now apply reach_clear]. Qed.

Lemma clear_bumps_generation_witness :
  clear table_with_deep_entry
  = mkTT (table_ table_with_deep_entry) (mask_ table_with_deep_entry)
      (capacity_entries_ table_with_deep_entry) 2
  /\
  (gen_ (clear table_at_last_generation) = 1 /\
   length (table_ (clear table_at_last_generation))
   = length (table_ table_at_last_generation) /\
   Forall (fun b => Forall (fun pe => pe = PackedEntry.default) (Bucket.e b))
          (table_ (clear table_at_last_generation)))
  /\
  probe (clear table_with_deep_entry) 7 = Ok None.
Proof.
  split; [| split].
  - apply (proj1 (clear_bumps_generation table_with_deep_entry
                    table_with_deep_entry_reachable)).
    cbn. lia.
  - apply (proj1 (proj2 (clear_bumps_generation table_at_last_generation
                           (iter_clear_reachable 254 _ table_with_deep_entry_reachable)))).
    vm_compute. reflexivity.
  - apply (proj2 (proj2 (clear_bumps_generation table_with_deep_entry
                           table_with_deep_entry_reachable))
             shallow_entry table_with_deep_entry 7).
    reflexivity.
Defined.

(** C9, counterexample: an entry of depth -1 stored for a key whose bucket
    holds a depth-9 entry does not overwrite it; the hit reports 9, not 0. *)
Lemma negative_depth_store_keeps_old_depth :
  store negative_depth_entry table_with_deep_entry = Ok table_with_deep_entry /\
  probe table_with_deep_entry 7 = Ok (Some deep_entry) /\
  ~ depth_saturation_as_stated table_with_deep_entry negative_depth_entry.
Proof.
  split; [reflexivity|]. split; [reflexivity|].
  intros H. destruct (H table_with_deep_entry deep_entry eq_refl eq_refl) as [_ H0].
  cbn in H0. specialize (H0 ltac:(lia)). discriminate H0.
Qed.

(** C9, amended: after [store e] on a well-formed table, a hit on the key of
    [e] reports depth 127 if [e] was deeper than 127.  If the depth of [e]
    was negative, the hit reports 0 when the key missed before the store,
    and the depth of the entry that was already there otherwise. *)
Theorem store_saturates_depth (t t' : TranspositionTable) (e out : TTEntry.t)
    (Hwf : tt_wf t)
    (Hs : store e t = Ok t')
    (Hp : probe t' (TTEntry.key e) = Ok (Some out)) :
  (127 < TTEntry.depth e -> TTEntry.depth out = 127)
  /\
  (TTEntry.depth e < 0 ->
   match probe t (TTEntry.key e) with
   | Ok (Some old) => TTEntry.depth out = TTEntry.depth old
   | _ => TTEntry.depth out = 0
   end).
Proof.
  assert (Hne : table_ t <> []).
  { intros E. unfold store in Hs. rewrite E in Hs. inversion Hs; subst t'.
    unfold probe in Hp. rewrite E in Hp. discriminate. }
  destruct (probe_after_store t e Hwf Hne) as (t2 & b & Hb & Hs2 & Hp2).
  rewrite Hs in Hs2. inversion Hs2; subst t2. clear Hs2.
  rewrite Hp in Hp2. inversion Hp2 as [Hout]. clear Hp2.
  rewrite (probe_unfold t _ b Hb). unfold stored_slot.
  destruct (find _ (Bucket.e b)) as [hit |] eqn:Hf; cbn [option_map unpack TTEntry.depth].
  - apply find_some in Hf. destruct Hf as [Hin Hhit].
    apply slot_hit_true in Hhit. destruct Hhit as (_ & Hd0 & _).
    pose proof (wf_buckets t Hwf) as HF. rewrite Forall_forall in HF.
    destruct (HF b (list_elem_of_lookup_2 _ _ _ Hb)) as [_ Hall].
    rewrite Forall_forall in Hall.
    destruct (Hall hit (proj2 (list_elem_of_In _ _) Hin)) as [Hd _].
    split; intros He.
    + assert (R : replace e hit = true).
      { unfold replace. destruct (Z.gtb_spec (TTEntry.depth e) (PackedEntry.depth hit)); [reflexivity | lia]. }
      rewrite R, write_depth. unfold clamp.
      destruct (Z.ltb_spec (TTEntry.depth e) 0); [lia|].
      destruct (Z.ltb_spec 127 (TTEntry.depth e)); [reflexivity | lia].
    + assert (R : replace e hit = false).
      { unfold replace. destruct (Z.gtb_spec (TTEntry.depth e) (PackedEntry.depth hit)); [lia|].
        destruct (Z.eqb_spec (TTEntry.depth e) (PackedEntry.depth hit)); [lia | reflexivity]. }
      rewrite R. unfold fill_move. destruct (_ && _); reflexivity.
  - rewrite write_depth. unfold clamp. split; intros He.
    + destruct (Z.ltb_spec (TTEntry.depth e) 0); [lia|].
      destruct (Z.ltb_spec 127 (TTEntry.depth e)); [reflexivity | lia].
    + destruct (Z.ltb_spec (TTEntry.depth e) 0); [reflexivity | lia].
Qed.

Lemma store_saturates_depth_witness :
  TTEntry.depth (unpack 7 (PackedEntry.mk 50 0 0 127 TT_LOWERBOUND 1 0)) = 127
  /\
  match probe table_with_deep_entry (TTEntry.key negative_depth_entry) with
  | Ok (Some old) => TTEntry.depth deep_entry = TTEntry.depth old
  | _ => TTEntry.depth deep_entry = 0
  end.
Proof.
  split.
  - apply (proj1 (store_saturates_depth table_with_deep_entry table_with_saturated_entry
                    too_deep_entry _
                    (reachable_wf _ table_with_deep_entry_reachable) eq_refl eq_refl)).
    cbn. lia.
  - apply (proj2 (store_saturates_depth table_with_deep_entry table_with_deep_entry
                    negative_depth_entry deep_entry
                    (reachable_wf _ table_with_deep_entry_reachable) eq_refl eq_refl)).
    cbn. lia.
Defined.

(** C10: on the default-constructed table, [probe] returns nothing for any
    key and [store] leaves the table as it is; both return before the bucket
    would be indexed (an access to the empty vector would show as
    [OutOfBounds]). *)
Theorem default_table_probe_store (k : Z) (e : TTEntry.t) :
  probe TranspositionTable_default k = Ok None /\
  store e TranspositionTable_default = Ok TranspositionTable_default.
Proof. split; reflexivity. Qed.

(** ** Sizing the table *)

Lemma next_pow2_pow2 k : 0 <= k <= 63 -> next_pow2 (2 ^ k) = 2 ^ k.
Proof.
  intros Hk.
  assert (2 ^ k <= 2 ^ 63) by (apply Z.pow_le_mono_r; lia).
  assert (0 < 2 ^ k) by (apply Z.pow_pos_nonneg; lia).
  rewrite next_pow2_spec by lia. now rewrite Z.log2_up_pow2 by lia.
Qed.

(** What [Engine::resizeTT_MB] builds, for every size whose byte count fits
    [std::size_t]: a power-of-two number of empty buckets, generation 1, and
    a footprint within one bucket below the request and below twice the
    request. *)
Lemma resizeTT_MB_shape mb t :
  1 <= mb < 2 ^ 43 ->
  exists k,
    0 <= k /\
    table_ (resizeTT_MB mb t) = replicate (Z.to_nat (2 ^ k)) Bucket.default /\
    mask_ (resizeTT_MB mb t) = 2 ^ k - 1 /\
    capacity_entries_ (resizeTT_MB mb t) = 2 ^ k * CLUSTER_SIZE /\
    gen_ (resizeTT_MB mb t) = 1 /\
    mb * 2 ^ 20 - sizeof_Bucket < 2 ^ k * sizeof_Bucket < 2 * (mb * 2 ^ 20).
Proof.
  intros Hmb. unfold resizeTT_MB.
  destruct (Z.ltb_spec mb 1) as [? | _]; [lia|].
  set (bytes := mb * 2 ^ 20).
  set (b0 := bytes / 48).
  assert (Hb0 : 2 ^ 14 <= b0 < 2 ^ 58).
  { subst b0 bytes. split.
    - apply Z.div_le_lower_bound; lia.
    - apply Z.div_lt_upper_bound; lia. }
  assert (Hdiv : 48 * b0 <= bytes < 48 * b0 + 48).
  { subst b0. pose proof (Z.mul_div_le bytes 48 ltac:(lia)).
    pose proof (Z.mul_succ_div_gt bytes 48 ltac:(lia)). lia. }
  assert (He : entries_for_mb mb = next_pow2 b0 * 4).
  { unfold entries_for_mb, sizeof_Bucket, sizeof_PackedEntry, CLUSTER_SIZE.
    destruct (Z.ltb_spec mb 1) as [? | _]; [lia|].
    rewrite (to_size_t_id (mb * 1024)) by lia.
    rewrite (to_size_t_id (mb * 1024 * 1024)) by lia.
    replace (mb * 1024 * 1024) with bytes by (subst bytes; lia).
    change (4 * 12) with 48. fold b0.
    destruct (Z.ltb_spec b0 1) as [? | _]; [lia|].
    pose proof (next_pow2_bounds b0 ltac:(lia)).
    apply to_size_t_id. lia. }
  pose proof (next_pow2_bounds b0 ltac:(lia)) as Hp.
  pose proof (next_pow2_spec b0 ltac:(lia)) as Hspec.
  set (k := Z.log2_up b0) in *.
  assert (Hk : 0 <= k < 63).
  { split; [apply Z.log2_up_nonneg|].
    apply (Z.pow_lt_mono_r_iff 2); [lia | lia |]. rewrite <- Hspec. lia. }
  assert (Hr : resize_buckets (entries_for_mb mb) = 2 ^ k).
  { rewrite He, Hspec. unfold resize_buckets, CLUSTER_SIZE.
    assert (4 <= 2 ^ k * 4) by lia.
    destruct (Z.ltb_spec (2 ^ k * 4) 4) as [? | _]; [lia|].
    rewrite Z.div_mul by lia.
    destruct (Z.ltb_spec (2 ^ k) 1) as [? | _]; [lia|].
    apply next_pow2_pow2. lia. }
  exists k. rewrite resize_unfold, Hr. cbn [table_ mask_ capacity_entries_ gen_].
  unfold sizeof_Bucket, sizeof_PackedEntry, CLUSTER_SIZE. fold bytes.
  rewrite <- Hspec.
  rewrite !to_size_t_id by lia.
  repeat split; try reflexivity; lia.
Qed.

(** C7, the code at [mb = 1]: the table has [2 ^ 15] buckets, all empty,
    generation 1, and takes 1572864 bytes, more than the [2 ^ 20] bytes
    asked for: [entries_for_mb] counts the buckets that fit and then rounds
    that count up to a power of two. *)
Theorem hash_one_megabyte_overshoots :
  let t := resizeTT_MB 1 TranspositionTable_default in
  entries_for_mb 1 = 131072 /\
  table_ t = replicate (Z.to_nat (2 ^ 15)) Bucket.default /\
  mask_ t = 2 ^ 15 - 1 /\
  gen_ t = 1 /\
  Z.of_nat (length (table_ t)) * sizeof_Bucket = 1572864 /\
  1 * 2 ^ 20 < Z.of_nat (length (table_ t)) * sizeof_Bucket.
Proof.
  assert (He : entries_for_mb 1 = 131072) by (vm_compute; reflexivity).
  assert (Hr : resize_buckets 131072 = 2 ^ 15) by (vm_compute; reflexivity).
  cbv zeta. unfold resizeTT_MB.
  destruct (Z.ltb_spec 1 1) as [? | _]; [lia|].
  rewrite resize_unfold, He, Hr. cbn [table_ mask_ gen_]. rewrite length_replicate.
  rewrite Z2Nat.id by lia.
  repeat split; try reflexivity.
Qed.

Lemma all_upto_spec n p :
  all_upto n p = true -> forall x, 1 <= x <= Z.of_nat n -> p x = true.
Proof.
  induction n as [| n IH]; intros H x Hx; [cbn in Hx; lia|].
  cbn [all_upto] in H. apply andb_true_iff in H. destruct H as [Hn Hrest].
  destruct (Z.eq_dec x (Z.of_nat (S n))) as [-> | Hne]; [exact Hn|].
  apply IH; [exact Hrest | lia].
Qed.

(** Over the range of the [Hash] option, the footprint stays within the
    request only for the sizes [3 * 2 ^ j]. *)
Lemma footprint_fits_iff mb :
  1 <= mb <= 4096 -> footprint_fits mb = member mb fitting_hash_sizes.
Proof.
  intros Hmb.
  assert (H : all_upto 4096 (fun x => Bool.eqb (footprint_fits x) (member x fitting_hash_sizes))
              = true) by (vm_compute; reflexivity).
  apply Bool.eqb_prop. apply (all_upto_spec 4096 _ H). lia.
Qed.

(** ** Time manager *)

(** C4, counterexample: with [movetime 10] and the default overhead of
    20 ms the code answers hard = soft = 0, where [movetime - overhead] is
    -10; with a negative increment the code takes the increment as 0. *)
Lemma time_budget_is_clamped :
  budget_of (compute_time_budget short_movetime WHITE default_overhead) = Some (0, 0) /\
  spec_time_budget short_movetime WHITE default_overhead = Some (-10, -10) /\
  budget_of (compute_time_budget negative_increment WHITE default_overhead) = Some (15, 30) /\
  spec_time_budget negative_increment WHITE default_overhead = Some (-180, -180) /\
  budget_of (compute_time_budget short_movetime WHITE default_overhead)
  <> spec_time_budget short_movetime WHITE default_overhead.
Proof. repeat split; try reflexivity. discriminate. Qed.

Lemma quot_nonneg_div a b : 0 <= a -> 0 < b -> a ÷ b = a / b.
Proof. apply Z.quot_div_nonneg. Qed.

Lemma div_bounds a b : 0 <= a -> 0 < b -> 0 <= a / b <= a.
Proof.
  intros Ha Hb. split; [apply Z.div_pos; lia|].
  apply Z.div_le_upper_bound; [lia|]. nia.
Qed.

(** C4, amended: for inputs in range, the budget is enabled exactly when a
    move time or the clock of the side to move is given (not negative).
    With a move time, [hard = max(0, movetime - overhead)] and [soft] is
    [0.95 hard] rounded down.  With a clock, the increment counts as 0 when
    negative, [available = max(0, my_time - overhead)], [mtg] is [movestogo]
    if positive and 64 otherwise, the slice is [available / (mtg + 1) +
    0.6 my_inc] with both quotients rounded down, [hard] is the least of
    twice the slice, [available], [my_time / 4] and four times the slice,
    and [soft] is the slice capped by [hard].  The overhead is the
    configured one, 0 if that is negative. *)
Theorem compute_time_budget_formulas (limits : SearchLimits.t) (stm : Color)
    (cfg : EngineConfig.t) (Hr : limits_in_range limits cfg) :
  budget_of (compute_time_budget limits stm cfg) = code_time_budget limits stm cfg /\
  TimeBudget.overhead_ms (compute_time_budget limits stm cfg)
  = Z.max 0 (EngineConfig.move_overhead_ms cfg) /\
  TimeBudget.enabled (compute_time_budget limits stm cfg)
  = (0 <=? SearchLimits.movetime_ms limits) || (0 <=? my_time_of limits stm) /\
  match code_time_budget limits stm cfg with
  | Some _ => True
  | None => TimeBudget.soft_ms (compute_time_budget limits stm cfg) = 0 /\
            TimeBudget.hard_ms (compute_time_budget limits stm cfg) = 0
  end /\
  0 <= TimeBudget.soft_ms (compute_time_budget limits stm cfg)
    <= TimeBudget.hard_ms (compute_time_budget limits stm cfg).
Proof.
  destruct Hr as (Hmt & Hwt & Hbt & Hwi & Hbi & Hmtg & Hov & Hmtg' & Hmt').
  unfold in_int, INT_MIN, INT_MAX in *.
  unfold compute_time_budget, code_time_budget, budget_of.
  set (ov := Z.max 0 (EngineConfig.move_overhead_ms cfg)).
  assert (Hov' : 0 <= ov <= 2147483647) by (subst ov; lia).
  rewrite Z.geb_leb.
  destruct (Z.leb_spec 0 (SearchLimits.movetime_ms limits)) as [Hm | Hm].
  - (* movetime *)
    cbn [TimeBudget.enabled TimeBudget.soft_ms TimeBudget.hard_ms TimeBudget.overhead_ms].
    rewrite (to_int_id (SearchLimits.movetime_ms limits - ov))
      by (unfold in_int, INT_MIN, INT_MAX; lia).
    set (av := Z.max 0 (SearchLimits.movetime_ms limits - ov)).
    assert (Hav : 0 <= av <= 22605091) by (subst av; lia).
    rewrite (to_int_id (av * 95)) by (unfold in_int, INT_MIN, INT_MAX; lia).
    rewrite quot_nonneg_div by lia.
    unfold movetime_budget. fold av. replace (95 * av) with (av * 95) by lia.
    pose proof (div_bounds (av * 95) 100 ltac:(lia) ltac:(lia)).
    assert (av * 95 / 100 <= av) by (apply Z.div_le_upper_bound; lia).
    repeat split; try reflexivity; try lia; try discriminate.
  - (* clock *)
    fold (my_time_of limits stm). fold (my_inc_of limits stm).
    assert (Htime : in_int (my_time_of limits stm))
      by (unfold in_int, INT_MIN, INT_MAX; destruct stm; cbn; lia).
    assert (Hinc : in_int (my_inc_of limits stm))
      by (unfold in_int, INT_MIN, INT_MAX; destruct stm; cbn; lia).
    unfold in_int, INT_MIN, INT_MAX in Htime, Hinc.
    set (mt := my_time_of limits stm) in *. set (mi := my_inc_of limits stm) in *.
    destruct (Z.ltb_spec mt 0) as [Hneg | Hpos].
    + destruct (Z.leb_spec 0 mt); [lia|]. cbn. repeat split; try reflexivity; lia.
    + destruct (Z.leb_spec 0 mt) as [_ | ?]; [| lia].
      cbn [TimeBudget.enabled TimeBudget.soft_ms TimeBudget.hard_ms TimeBudget.overhead_ms].
      unfold clock_budget.
      replace (Z.max 0 mt) with mt by lia.
      rewrite (to_int_id (mt - ov)) by (unfold in_int, INT_MIN, INT_MAX; lia).
      set (av := Z.max 0 (mt - ov)). set (inc := Z.max 0 mi).
      assert (Hav : 0 <= av <= 2147483647) by (subst av; lia).
      assert (Hi : 0 <= inc <= 2147483647) by (subst inc; lia).
      rewrite !Z.gtb_ltb.
      set (mtg := if 0 <? SearchLimits.movestogo limits
                  then SearchLimits.movestogo limits else 64).
      assert (Hg : 1 <= mtg < 2147483647)
        by (subst mtg; destruct (Z.ltb_spec 0 (SearchLimits.movestogo limits)); lia).
      rewrite (to_int_id (mtg + 1)) by (unfold in_int, INT_MIN, INT_MAX; lia).
      rewrite (quot_nonneg_div av) by lia.
      pose proof (div_bounds av (mtg + 1) ltac:(lia) ltac:(lia)) as Hs1.
      rewrite (to_long_long_id (0 + av / (mtg + 1))) by lia.
      rewrite (to_long_long_id (inc * 6)) by lia.
      rewrite (quot_nonneg_div (inc * 6)) by lia.
      pose proof (div_bounds (inc * 6) 10 ltac:(lia) ltac:(lia)) as Hs2.
      replace (6 * inc) with (inc * 6) by lia.
      set (soft := av / (mtg + 1) + inc * 6 / 10).
      replace (0 + av / (mtg + 1) + inc * 6 / 10) with soft by (subst soft; lia).
      assert (Hsoft : 0 <= soft <= 2 ^ 35) by (subst soft; lia).
      rewrite (to_long_long_id soft) by lia.
      rewrite (to_long_long_id (soft * 2)) by lia.
      rewrite (to_long_long_id (soft * 4)) by lia.
      rewrite (quot_nonneg_div mt) by lia.
      pose proof (div_bounds mt 4 ltac:(lia) ltac:(lia)) as Hq.
      replace (soft * 2) with (2 * soft) by lia.
      replace (soft * 4) with (4 * soft) by lia.
      set (hard := Z.min (Z.min (Z.min (2 * soft) av) (mt / 4)) (4 * soft)).
      assert (Hhard : 0 <= hard <= 2147483647) by (subst hard; lia).
      destruct (Z.ltb_spec hard 0) as [? | _]; [lia|].
      destruct (Z.ltb_spec soft 0) as [? | _]; [lia|].
      assert (Hmin : (if hard <? soft then hard else soft) = Z.min soft hard)
        by (destruct (Z.ltb_spec hard soft); lia).
      rewrite Hmin. rewrite !Z.mul_1_r.
      rewrite (to_long_long_id (Z.min soft hard)) by lia.
      rewrite (to_long_long_id hard) by lia.
      rewrite (to_int_id (Z.min soft hard)) by (unfold in_int, INT_MIN, INT_MAX; lia).
      rewrite (to_int_id hard) by (unfold in_int, INT_MIN, INT_MAX; lia).
      repeat split; try reflexivity; try lia; try discriminate.
Qed.

Lemma compute_time_budget_formulas_witness :
  budget_of (compute_time_budget negative_increment WHITE default_overhead)
  = code_time_budget negative_increment WHITE default_overhead /\
  TimeBudget.overhead_ms (compute_time_budget negative_increment WHITE default_overhead)
  = Z.max 0 (EngineConfig.move_overhead_ms default_overhead) /\
  TimeBudget.enabled (compute_time_budget negative_increment WHITE default_overhead)
  = (0 <=? SearchLimits.movetime_ms negative_increment)
    || (0 <=? my_time_of negative_increment WHITE) /\
  match code_time_budget negative_increment WHITE default_overhead with
  | Some _ => True
  | None =>
      TimeBudget.soft_ms (compute_time_budget negative_increment WHITE default_overhead) = 0 /\
      TimeBudget.hard_ms (compute_time_budget negative_increment WHITE default_overhead) = 0
  end /\
  0 <= TimeBudget.soft_ms (compute_time_budget negative_increment WHITE default_overhead)
    <= TimeBudget.hard_ms (compute_time_budget negative_increment WHITE default_overhead).
Proof.
  apply (compute_time_budget_formulas negative_increment WHITE default_overhead).
  unfold limits_in_range, in_int, INT_MIN, INT_MAX. cbn. lia.
Defined.

(** ** Aspiration window *)

Section TriesShape.
Variables (have_prev : bool) (prev_score : Z).

Lemma tries_shape_length n window alpha beta tries :
  tries_shape have_prev prev_score n window alpha beta tries ->
  (length tries <= n)%nat /\ (n <> 0%nat -> tries <> []).
Proof.
  induction 1; cbn; split; try lia; try discriminate; try tauto.
Qed.

Lemma tries_shape_unforced n window alpha beta tries :
  tries_shape have_prev prev_score n window alpha beta tries ->
  Forall (fun a => Attempt.forced a = false) tries.
Proof. induction 1; repeat constructor; assumption. Qed.

Lemma tries_shape_window n window alpha beta tries (i : nat) a :
  tries_shape have_prev prev_score n window alpha beta tries ->
  tries !! i = Some a ->
  Attempt.window a = Nat.iter i widen window.
Proof.
  intros H. revert i. induction H; intros i Hi.
  - cbn in Hi. discriminate.
  - destruct i as [| i]; cbn in Hi; [| discriminate].
    inversion Hi; subst. reflexivity.
  - destruct i as [| i]; cbn in Hi.
    + inversion Hi; subst. reflexivity.
    + rewrite (IHtries_shape i Hi). symmetry. apply Nat.iter_succ_r.
Qed.

(** A later attempt has its window around the previous score, and the
    attempt before it failed. *)
Lemma tries_shape_retry n window alpha beta tries (i : nat) a :
  tries_shape have_prev prev_score n window alpha beta tries ->
  tries !! S i = Some a ->
  (exists p, tries !! i = Some p /\ fails p) /\
  Attempt.alpha a
  = (if have_prev then to_int (prev_score - Attempt.window a) else - SCORE_INF) /\
  Attempt.beta a
  = (if have_prev then to_int (prev_score + Attempt.window a) else SCORE_INF).
Proof.
  intros H. revert i. induction H; intros i Hi.
  - cbn in Hi. discriminate.
  - cbn in Hi. discriminate.
  - destruct i as [| i].
    + split; [eexists; split; [reflexivity | assumption]|].
      cbn in Hi. inversion H0; subst; cbn in Hi; try discriminate;
        inversion Hi; subst; cbn; auto.
    + destruct (IHtries_shape i Hi) as ((p & Hp & Hf) & Ha & Hb).
      split; [exists p; auto | auto].
Qed.

(** A failed attempt is followed by another one while tries remain. *)
Lemma tries_shape_continues n window alpha beta tries (i : nat) a :
  tries_shape have_prev prev_score n window alpha beta tries ->
  tries !! i = Some a -> fails a -> (S i < n)%nat ->
  is_Some (tries !! S i).
Proof.
  intros H. revert i. induction H; intros i Hi Hf Hn.
  - lia.
  - destruct i as [| i]; cbn in Hi; [| discriminate].
    inversion Hi; subst. contradiction.
  - destruct i as [| i]; cbn in Hi.
    + destruct (tries_shape_length _ _ _ _ _ H0) as [_ Hne].
      destruct rest as [| r rest]; [exfalso; apply Hne; [lia | reflexivity]|].
      cbn. eauto.
    + cbn. apply IHtries_shape; [assumption | assumption | lia].
Qed.
End TriesShape.

Lemma widen_50 (i : nat) : (i <= 5)%nat -> Nat.iter i widen 50 = 50 * 2 ^ Z.of_nat i.
Proof.
  intros Hi.
  destruct i as [| [| [| [| [| [| i]]]]]]; [reflexivity .. | exfalso; lia].
Qed.

Section DeepenerProofs.
Context {World : Type}.
Variable find_best_move :
  World -> Z -> Z -> Z -> Move -> Z -> World * RootSearch.t.

(** The loop appends a well-shaped sequence of attempts, and ends with
    [ok && !in_window] exactly when every one of its [n] tries failed. *)
Lemma aspiration_tries_shape (n : nat) depth have_prev prev_score :
  forall w window alpha beta mv sc ok0 log,
  exists tries,
    Iteration.attempts
      (aspiration_tries find_best_move n depth have_prev prev_score
         w window alpha beta mv sc ok0 log) = log ++ tries /\
    tries_shape have_prev prev_score n window alpha beta tries /\
    (Iteration.ok
       (aspiration_tries find_best_move n depth have_prev prev_score
          w window alpha beta mv sc ok0 log)
     && negb (Iteration.in_window
                (aspiration_tries find_best_move n depth have_prev prev_score
                   w window alpha beta mv sc ok0 log)) = true
     <-> length tries = n /\ Forall fails tries /\ (n = 0%nat -> ok0 = true)).
Proof.
  induction n as [| n IH]; intros w window alpha beta mv sc ok0 log.
  - exists []. cbn. rewrite app_nil_r. split; [reflexivity|]. split; [constructor|].
    rewrite andb_true_r. split.
    + intros ->. auto.
    + intros (_ & _ & H). now apply H.
  - cbn [aspiration_tries].
    destruct (find_best_move w depth alpha beta mv sc) as [w' [rok rstopped rmv score]].
    cbn [RootSearch.ok RootSearch.stopped RootSearch.best_move_out RootSearch.best_score_out].
    set (ok := if rstopped then false else rok).
    assert (Hsettled : forall inw,
      ~ fails (Attempt.mk window alpha beta false ok score) ->
      ok && negb inw = false ->
      exists tries,
        Iteration.attempts
          (Iteration.mk w' window alpha beta rmv score ok inw
             (log ++ [Attempt.mk window alpha beta false ok score])) = log ++ tries /\
        tries_shape have_prev prev_score (S n) window alpha beta tries /\
        (Iteration.ok
           (Iteration.mk w' window alpha beta rmv score ok inw
              (log ++ [Attempt.mk window alpha beta false ok score]))
         && negb (Iteration.in_window
                    (Iteration.mk w' window alpha beta rmv score ok inw
                       (log ++ [Attempt.mk window alpha beta false ok score]))) = true
         <-> length tries = S n /\ Forall fails tries /\ (S n = 0%nat -> ok0 = true))).
    { intros inw Hnf Hb. eexists [_]. cbn [Iteration.attempts Iteration.ok Iteration.in_window].
      split; [reflexivity|]. split; [now apply shape_settled|].
      rewrite Hb. split; [discriminate|].
      intros (_ & HF & _). inversion HF; subst. contradiction. }
    assert (Hretry :
      fails (Attempt.mk window alpha beta false ok score) ->
      exists tries,
        Iteration.attempts
          (aspiration_tries find_best_move n depth have_prev prev_score w'
             (to_int (window * 2))
             (if have_prev then to_int (prev_score - to_int (window * 2)) else - SCORE_INF)
             (if have_prev then to_int (prev_score + to_int (window * 2)) else SCORE_INF)
             rmv score ok (log ++ [Attempt.mk window alpha beta false ok score]))
        = log ++ tries /\
        tries_shape have_prev prev_score (S n) window alpha beta tries /\
        (Iteration.ok
           (aspiration_tries find_best_move n depth have_prev prev_score w'
              (to_int (window * 2))
              (if have_prev then to_int (prev_score - to_int (window * 2)) else - SCORE_INF)
              (if have_prev then to_int (prev_score + to_int (window * 2)) else SCORE_INF)
              rmv score ok (log ++ [Attempt.mk window alpha beta false ok score]))
         && negb (Iteration.in_window
                    (aspiration_tries find_best_move n depth have_prev prev_score w'
                       (to_int (window * 2))
                       (if have_prev then to_int (prev_score - to_int (window * 2))
                        else - SCORE_INF)
                       (if have_prev then to_int (prev_score + to_int (window * 2))
                        else SCORE_INF)
                       rmv score ok (log ++ [Attempt.mk window alpha beta false ok score])))
           = true
         <-> length tries = S n /\ Forall fails tries /\ (S n = 0%nat -> ok0 = true))).
    { intros Hf.
      destruct (IH w' (to_int (window * 2))
                  (if have_prev then to_int (prev_score - to_int (window * 2)) else - SCORE_INF)
                  (if have_prev then to_int (prev_score + to_int (window * 2)) else SCORE_INF)
                  rmv score ok (log ++ [Attempt.mk window alpha beta false ok score]))
        as (rest & Hatt & Hshape & Hiff).
      exists (Attempt.mk window alpha beta false ok score :: rest).
      rewrite Hatt, <- app_assoc. cbn [app].
      split; [reflexivity|]. split; [now apply shape_retry|].
      rewrite Hiff. cbn [length]. split.
      - intros (Hl & HF & _). split; [now f_equal|]. split; [now constructor | discriminate].
      - intros (Hl & HF & _). inversion HF; subst.
        split; [now inversion Hl|]. split; [assumption|]. intros _. apply Hf. }
    destruct ok eqn:Hok; cbn [negb].
    + destruct (Z.leb_spec score alpha) as [Hlo | Hlo];
        [| destruct (Z.geb_spec score beta) as [Hhi | Hhi]].
      * apply Hretry. split; [reflexivity | left; exact Hlo].
      * apply Hretry. split; [reflexivity | right; cbn; lia].
      * apply Hsettled; [| reflexivity]. intros [_ [H | H]]; cbn in H; lia.
    + apply Hsettled; [| reflexivity]. intros [H _]. discriminate H.
Qed.
End DeepenerProofs.

Section RunProofs.
Context {World : Type}.
Variable find_best_move :
  World -> Z -> Z -> Z -> Move -> Z -> World * RootSearch.t.
Variable depth : Z.

Lemma attempts_run_app (l1 l2 : list Attempt.t) :
  forall w mv sc w1 mv1 sc1 w2 mv2 sc2,
  attempts_run find_best_move depth w mv sc l1 w1 mv1 sc1 ->
  attempts_run find_best_move depth w1 mv1 sc1 l2 w2 mv2 sc2 ->
  attempts_run find_best_move depth w mv sc (l1 ++ l2) w2 mv2 sc2.
Proof.
  induction l1 as [| a l1 IH]; intros w mv sc w1 mv1 sc1 w2 mv2 sc2 H1 H2.
  - inversion H1; subst. exact H2.
  - inversion H1; subst. cbn [app]. eapply run_call; eauto.
Qed.

(** The last attempt of a run is the call that left the final world, move
    and score. *)
Lemma attempts_run_last (init : list Attempt.t) (last : Attempt.t) :
  forall w mv sc w' mv' sc',
  attempts_run find_best_move depth w mv sc (init ++ [last]) w' mv' sc' ->
  exists w0 mv0 sc0 r,
    attempts_run find_best_move depth w mv sc init w0 mv0 sc0 /\
    find_best_move w0 depth (Attempt.alpha last) (Attempt.beta last) mv0 sc0 = (w', r) /\
    mv' = RootSearch.best_move_out r /\
    sc' = RootSearch.best_score_out r /\
    Attempt.ok last = (if RootSearch.stopped r then false else RootSearch.ok r) /\
    Attempt.score last = RootSearch.best_score_out r.
Proof.
  induction init as [| a init IH]; intros w mv sc w' mv' sc' H.
  - cbn [app] in H. inversion H as [| ? ? ? ? w1 r ? ? ? ? Hcall Hok Hsc Hrest]; subst.
    inversion Hrest; subst. exists w, mv, sc, r.
    repeat split; auto. constructor.
  - cbn [app] in H. inversion H as [| ? ? ? ? w1 r ? ? ? ? Hcall Hok Hsc Hrest]; subst.
    destruct (IH _ _ _ _ _ _ Hrest) as (w0 & mv0 & sc0 & r0 & Hinit & Hlast).
    exists w0, mv0, sc0, r0. split; [| exact Hlast]. eapply run_call; eauto.
Qed.

(** The attempts the loop appends are the calls it makes, and it leaves the
    world, move and score of the last of them. *)
Lemma aspiration_tries_run (n : nat) have_prev prev_score :
  forall w window alpha beta mv sc ok0 log,
  exists tries,
    Iteration.attempts
      (aspiration_tries find_best_move n depth have_prev prev_score
         w window alpha beta mv sc ok0 log) = log ++ tries /\
    attempts_run find_best_move depth w mv sc tries
      (Iteration.world
         (aspiration_tries find_best_move n depth have_prev prev_score
            w window alpha beta mv sc ok0 log))
      (Iteration.iter_best_move
         (aspiration_tries find_best_move n depth have_prev prev_score
            w window alpha beta mv sc ok0 log))
      (Iteration.iter_best_score
         (aspiration_tries find_best_move n depth have_prev prev_score
            w window alpha beta mv sc ok0 log)).
Proof.
  induction n as [| n IH]; intros w window alpha beta mv sc ok0 log.
  - exists []. cbn. rewrite app_nil_r. split; [reflexivity | constructor].
  - cbn [aspiration_tries].
    destruct (find_best_move w depth alpha beta mv sc) as [w' r] eqn:Ecall.
    set (ok := if RootSearch.stopped r then false else RootSearch.ok r).
    set (a := Attempt.mk window alpha beta false ok (RootSearch.best_score_out r)).
    assert (Hone : forall inw,
      exists tries,
        Iteration.attempts
          (Iteration.mk w' window alpha beta (RootSearch.best_move_out r)
             (RootSearch.best_score_out r) ok inw (log ++ [a])) = log ++ tries /\
        attempts_run find_best_move depth w mv sc tries w'
          (RootSearch.best_move_out r) (RootSearch.best_score_out r)).
    { intros inw. exists [a]. split; [reflexivity|].
      eapply run_call; [exact Ecall | reflexivity | reflexivity | constructor]. }
    assert (Hmore :
      let it := aspiration_tries find_best_move n depth have_prev prev_score w'
                  (to_int (window * 2))
                  (if have_prev then to_int (prev_score - to_int (window * 2))
                   else - SCORE_INF)
                  (if have_prev then to_int (prev_score + to_int (window * 2))
                   else SCORE_INF)
                  (RootSearch.best_move_out r) (RootSearch.best_score_out r) ok
                  (log ++ [a]) in
      exists tries,
        Iteration.attempts it = log ++ tries /\
        attempts_run find_best_move depth w mv sc tries
          (Iteration.world it) (Iteration.iter_best_move it)
          (Iteration.iter_best_score it)).
    { cbv zeta.
      destruct (IH w' (to_int (window * 2))
                  (if have_prev then to_int (prev_score - to_int (window * 2))
                   else - SCORE_INF)
                  (if have_prev then to_int (prev_score + to_int (window * 2))
                   else SCORE_INF)
                  (RootSearch.best_move_out r) (RootSearch.best_score_out r) ok
                  (log ++ [a])) as (rest & Hatt & Hrun).
      exists (a :: rest). rewrite Hatt, <- app_assoc. split; [reflexivity|].
      eapply run_call; [exact Ecall | reflexivity | reflexivity | exact Hrun]. }
    cbv zeta in Hmore.
    destruct (negb ok); [apply Hone|].
    destruct (RootSearch.best_score_out r <=? alpha); [exact Hmore|].
    destruct (RootSearch.best_score_out r >=? beta); [exact Hmore | apply Hone].
Qed.

(** The attempts of an iteration are the calls it makes, from the world it
    starts in, with no move and score 0 in the out-parameters, to the
    world, move and score it ends with. *)
Lemma search_iteration_run (have_prev : bool) (prev_score : Z) (w : World) :
  attempts_run find_best_move depth w NO_MOVE 0
    (Iteration.attempts (search_iteration find_best_move depth have_prev prev_score w))
    (Iteration.world (search_iteration find_best_move depth have_prev prev_score w))
    (Iteration.iter_best_move
       (search_iteration find_best_move depth have_prev prev_score w))
    (Iteration.iter_best_score
       (search_iteration find_best_move depth have_prev prev_score w)).
Proof.
  unfold search_iteration.
  set (narrow := have_prev && (Z.abs prev_score <? MATE_BOUND)).
  set (alpha0 := if narrow then to_int (prev_score - 50) else - SCORE_INF).
  set (beta0 := if narrow then to_int (prev_score + 50) else SCORE_INF).
  destruct (aspiration_tries_run 5 have_prev prev_score
              w 50 alpha0 beta0 NO_MOVE 0 false []) as (tries & Hatt & Hrun).
  set (it := aspiration_tries find_best_move 5 depth have_prev prev_score
               w 50 alpha0 beta0 NO_MOVE 0 false []) in *.
  cbn [app] in Hatt.
  destruct (Iteration.ok it && negb (Iteration.in_window it)).
  - destruct (find_best_move (Iteration.world it) depth (- SCORE_INF) SCORE_INF
                (Iteration.iter_best_move it) (Iteration.iter_best_score it))
      as [w' r] eqn:Ecall.
    cbn [Iteration.attempts Iteration.world Iteration.iter_best_move
         Iteration.iter_best_score].
    rewrite Hatt. eapply attempts_run_app; [exact Hrun|].
    eapply run_call; [exact Ecall | reflexivity | reflexivity | constructor].
  - rewrite Hatt. exact Hrun.
Qed.
End RunProofs.

(** The attempts of an iteration: up to five windowed ones with doubling
    windows, each after a failure of the one before, and the forced one
    exactly after five failures. *)
Lemma aspiration_attempts_shape {World : Type}
    (find_best_move : World -> Z -> Z -> Z -> Move -> Z -> World * RootSearch.t)
    (depth_to_search : Z) (have_prev : bool) (prev_score : Z) (w : World) :
  exists tries forced,
    Iteration.attempts
      (search_iteration find_best_move depth_to_search have_prev prev_score w)
    = tries ++ forced /\
    (1 <= length tries <= 5)%nat /\
    Forall (fun a => Attempt.forced a = false) tries /\
    (forall (i : nat) a, tries !! i = Some a -> Attempt.window a = 50 * 2 ^ Z.of_nat i) /\
    (forall (i : nat) a, tries !! S i = Some a ->
       (exists p, tries !! i = Some p /\ fails p) /\
       Attempt.alpha a
       = (if have_prev then to_int (prev_score - Attempt.window a) else - SCORE_INF) /\
       Attempt.beta a
       = (if have_prev then to_int (prev_score + Attempt.window a) else SCORE_INF)) /\
    (forall (i : nat) a, tries !! i = Some a -> fails a -> (S i < 5)%nat ->
       is_Some (tries !! S i)) /\
    (length tries = 5%nat /\ Forall fails tries ->
     exists f, forced = [f] /\ Attempt.forced f = true /\
               Attempt.alpha f = - SCORE_INF /\ Attempt.beta f = SCORE_INF) /\
    (~ (length tries = 5%nat /\ Forall fails tries) -> forced = []).
Proof.
  unfold search_iteration.
  set (narrow := have_prev && (Z.abs prev_score <? MATE_BOUND)).
  set (alpha0 := if narrow then to_int (prev_score - 50) else - SCORE_INF).
  set (beta0 := if narrow then to_int (prev_score + 50) else SCORE_INF).
  destruct (aspiration_tries_shape find_best_move 5 depth_to_search have_prev prev_score
              w 50 alpha0 beta0 NO_MOVE 0 false [])
    as (tries & Hatt & Hshape & Hex).
  set (it := aspiration_tries find_best_move 5 depth_to_search have_prev prev_score
               w 50 alpha0 beta0 NO_MOVE 0 false []) in *.
  cbn [app] in Hatt.
  destruct (tries_shape_length _ _ _ _ _ _ _ Hshape) as [Hlen Hne].
  assert (Hlen1 : (1 <= length tries)%nat).
  { destruct tries; [exfalso; apply Hne; [discriminate | reflexivity] | cbn; lia]. }
  assert (Hcommon :
    (1 <= length tries <= 5)%nat /\
    Forall (fun a => Attempt.forced a = false) tries /\
    (forall (i : nat) a, tries !! i = Some a -> Attempt.window a = 50 * 2 ^ Z.of_nat i) /\
    (forall (i : nat) a, tries !! S i = Some a ->
       (exists p, tries !! i = Some p /\ fails p) /\
       Attempt.alpha a
       = (if have_prev then to_int (prev_score - Attempt.window a) else - SCORE_INF) /\
       Attempt.beta a
       = (if have_prev then to_int (prev_score + Attempt.window a) else SCORE_INF)) /\
    (forall (i : nat) a, tries !! i = Some a -> fails a -> (S i < 5)%nat ->
       is_Some (tries !! S i))).
  { split; [lia|]. split; [eapply tries_shape_unforced; exact Hshape|].
    split; [| split].
    - intros i a Hi. rewrite (tries_shape_window _ _ _ _ _ _ _ i a Hshape Hi).
      apply widen_50. apply lookup_lt_Some in Hi. lia.
    - intros i a Hi. eapply tries_shape_retry; eassumption.
    - intros i a Hi Hf Hlt. eapply tries_shape_continues; eassumption. }
  destruct (Iteration.ok it && negb (Iteration.in_window it)) eqn:Hforce.
  - destruct (find_best_move (Iteration.world it) depth_to_search (- SCORE_INF) SCORE_INF
                (Iteration.iter_best_move it) (Iteration.iter_best_score it)) as [w' r].
    cbn [Iteration.attempts]. rewrite Hatt.
    eexists tries, [_]. split; [reflexivity|].
    destruct Hcommon as (H1 & H2 & H3 & H4 & H5).
    repeat (split; [assumption|]). split.
    + intros _. eexists. split; [reflexivity|]. cbn. auto.
    + intros Hn. exfalso. apply Hn. destruct (proj1 Hex eq_refl) as (Hl & HF & _). auto.
  - exists tries, []. rewrite app_nil_r. split; [exact Hatt|].
    destruct Hcommon as (H1 & H2 & H3 & H4 & H5).
    repeat (split; [assumption|]). split.
    + intros [Hl HF].
      assert (Ht : false = true)
        by (apply Hex; repeat split; [assumption | assumption | discriminate]).
      discriminate Ht.
    + reflexivity.
Qed.

(** C5: in one iteration the calls of the root search are at most five
    windowed tries followed by at most one forced full-window search.
    Each of them is a call of [find_best_move] in the world the call before
    it left, with the bounds listed for it, and what is listed as its
    outcome is what the call returned; the iteration ends in the world the
    last call left.  The try number [i] (from 0) uses [W = 50 * 2 ^ i]; a
    try after the first is made only when the call before it came back
    complete with a score at or below its [alpha] or at or above its
    [beta], with the window [prev_score -+ W] (the full window when there
    is no previous score); such a failed try is followed by another while
    fewer than five were made; and the forced search with the window
    [(-INF, INF)] is made exactly when all five tries failed. *)
Theorem aspiration_retries_bounded {World : Type}
    (find_best_move : World -> Z -> Z -> Z -> Move -> Z -> World * RootSearch.t)
    (depth_to_search : Z) (have_prev : bool) (prev_score : Z) (w : World) :
  exists tries forced,
    Iteration.attempts
      (search_iteration find_best_move depth_to_search have_prev prev_score w)
    = tries ++ forced /\
    attempts_run find_best_move depth_to_search w NO_MOVE 0 (tries ++ forced)
      (Iteration.world
         (search_iteration find_best_move depth_to_search have_prev prev_score w))
      (Iteration.iter_best_move
         (search_iteration find_best_move depth_to_search have_prev prev_score w))
      (Iteration.iter_best_score
         (search_iteration find_best_move depth_to_search have_prev prev_score w)) /\
    (1 <= length tries <= 5)%nat /\
    Forall (fun a => Attempt.forced a = false) tries /\
    (forall (i : nat) a, tries !! i = Some a -> Attempt.window a = 50 * 2 ^ Z.of_nat i) /\
    (forall (i : nat) a, tries !! S i = Some a ->
       (exists p, tries !! i = Some p /\ fails p) /\
       Attempt.alpha a
       = (if have_prev then to_int (prev_score - Attempt.window a) else - SCORE_INF) /\
       Attempt.beta a
       = (if have_prev then to_int (prev_score + Attempt.window a) else SCORE_INF)) /\
    (forall (i : nat) a, tries !! i = Some a -> fails a -> (S i < 5)%nat ->
       is_Some (tries !! S i)) /\
    (length tries = 5%nat /\ Forall fails tries ->
     exists f, forced = [f] /\ Attempt.forced f = true /\
               Attempt.alpha f = - SCORE_INF /\ Attempt.beta f = SCORE_INF) /\
    (~ (length tries = 5%nat /\ Forall fails tries) -> forced = []).
Proof.
  destruct (aspiration_attempts_shape find_best_move depth_to_search have_prev
              prev_score w) as (tries & forced & Hatt & Hshape).
  exists tries, forced. split; [exact Hatt|]. split; [| exact Hshape].
  rewrite <- Hatt. apply search_iteration_run.
Qed.

(** With a root search that always scores 2000 around a previous score of
    0, the five windows 50 .. 800 all fail high and the sixth call is the
    forced one. *)
Example aspiration_exhausted_run :
  map (fun a => (Attempt.alpha a, Attempt.beta a, Attempt.forced a))
      (Iteration.attempts (search_iteration always_scores_2000 1 true 0 tt))
  = [(-50, 50, false); (-100, 100, false); (-200, 200, false);
     (-400, 400, false); (-800, 800, false);
     (- SCORE_INF, SCORE_INF, true)].
Proof. reflexivity. Qed.

Lemma aspiration_retries_bounded_witness :
  exists tries forced,
    Iteration.attempts
      (search_iteration always_scores_2000 1 true 0 tt)
    = tries ++ forced /\
    attempts_run always_scores_2000 1 tt NO_MOVE 0 (tries ++ forced) tt 5 2000 /\
    (1 <= length tries <= 5)%nat /\
    Forall (fun a => Attempt.forced a = false) tries /\
    (forall (i : nat) a, tries !! i = Some a -> Attempt.window a = 50 * 2 ^ Z.of_nat i) /\
    (forall (i : nat) a, tries !! S i = Some a ->
       (exists p, tries !! i = Some p /\ fails p) /\
       Attempt.alpha a = to_int (0 - Attempt.window a) /\
       Attempt.beta a = to_int (0 + Attempt.window a)) /\
    (forall (i : nat) a, tries !! i = Some a -> fails a -> (S i < 5)%nat ->
       is_Some (tries !! S i)) /\
    (length tries = 5%nat /\ Forall fails tries ->
     exists f, forced = [f] /\ Attempt.forced f = true /\
               Attempt.alpha f = - SCORE_INF /\ Attempt.beta f = SCORE_INF) /\
    (~ (length tries = 5%nat /\ Forall fails tries) -> forced = []).
Proof. exact (aspiration_retries_bounded always_scores_2000 1 true 0 tt). Defined.

(** ** UCI score output *)

Lemma string_app_assoc (a b c : string) : ((a ++ b) ++ c = a ++ (b ++ c))%string.
Proof. induction a as [| x a IH]; cbn; [reflexivity | now rewrite IH]. Qed.

Lemma strip_prefix_app (p s : string) : strip_prefix p (p ++ s) = Some s.
Proof.
  induction p as [| c p IH]; cbn; [reflexivity|]. now rewrite Ascii.eqb_refl.
Qed.

Lemma int_of_string_of_int (k : Z) :
  NilZero.int_of_string (string_of_int k) = Some (Z.to_int k).
Proof.
  unfold string_of_int. apply NilZero.isi.
  - destruct k; cbn; try discriminate. intros H. inversion H.
    now apply Unsigned.to_uint_nonnil in H1.
  - destruct k; cbn; try discriminate. intros H. inversion H.
    now apply Unsigned.to_uint_nonnil in H1.
Qed.

Lemma read_mate_printed (k : Z) :
  read_mate (" score mate " ++ string_of_int k) = Some k.
Proof.
  unfold read_mate. rewrite strip_prefix_app, int_of_string_of_int.
  now rewrite DecimalZ.of_to.
Qed.

Lemma mate_cp_differ (info k c : string) :
  (info ++ " score mate " ++ k <> info ++ " score cp " ++ c)%string.
Proof.
  induction info as [| x info IH]; cbn.
  - discriminate.
  - intros H. inversion H. contradiction.
Qed.

Lemma score_to_mate_moves_cp s m :
  Z.abs s <= MATE_BOUND -> score_to_mate_moves s m = (false, m).
Proof.
  intros H. unfold score_to_mate_moves, UCI_MATE_BOUND. rewrite Z.gtb_ltb.
  destruct (Z.ltb_spec MATE_BOUND s); [lia|].
  destruct (Z.ltb_spec s (- MATE_BOUND)); [lia | reflexivity].
Qed.

Lemma score_to_mate_moves_mate s m :
  MATE_BOUND < Z.abs s -> exists k, score_to_mate_moves s m = (true, k).
Proof.
  intros H. unfold score_to_mate_moves, UCI_MATE_BOUND. rewrite Z.gtb_ltb.
  destruct (Z.ltb_spec MATE_BOUND s); [eauto|].
  destruct (Z.ltb_spec s (- MATE_BOUND)); [eauto | lia].
Qed.

Lemma half_up_ceil d : 0 <= d -> (d + 1) ÷ 2 = ceil_half d /\ 0 <= ceil_half d <= d.
Proof.
  intros Hd. unfold ceil_half. Z.to_euclidean_division_equations. lia.
Qed.

Lemma score_to_mate_moves_formula s m :
  MATE_BOUND < Z.abs s <= MATE_SCORE ->
  score_to_mate_moves s m = (true, spec_mate_moves s).
Proof.
  unfold MATE_BOUND, MATE_SCORE. intros H.
  unfold score_to_mate_moves, spec_mate_moves,
    UCI_MATE_BOUND, UCI_MATE_SCORE, MATE_BOUND, MATE_SCORE.
  rewrite Z.gtb_ltb.
  destruct (Z.ltb_spec (1000000 - 1000) s) as [Hp | Hp].
  - rewrite (to_int_id (1000000 - s)) by (unfold in_int, INT_MIN, INT_MAX; lia).
    rewrite Z.abs_eq, Z.sgn_pos by lia.
    destruct (half_up_ceil (1000000 - s) ltac:(lia)) as [-> Hc].
    rewrite to_int_id by (unfold in_int, INT_MIN, INT_MAX; lia).
    f_equal. lia.
  - destruct (Z.ltb_spec s (- (1000000 - 1000))) as [Hn | Hn]; [| lia].
    rewrite (to_int_id (1000000 + s)) by (unfold in_int, INT_MIN, INT_MAX; lia).
    rewrite Z.abs_neq, Z.sgn_neg by lia.
    replace (1000000 - - s) with (1000000 + s) by lia.
    destruct (half_up_ceil (1000000 + s) ltac:(lia)) as [-> Hc].
    rewrite (to_int_id (ceil_half (1000000 + s))) by (unfold in_int, INT_MIN, INT_MAX; lia).
    rewrite to_int_id by (unfold in_int, INT_MIN, INT_MAX; lia).
    f_equal. lia.
Qed.

(** C6, counterexample: two centipawns above [MATE] the truncating division
    of the code gives [mate 0], where the formula gives -1.  For the round
    trip: a mate 0 plies away prints [mate 0] for either side, and a mate
    1000 plies away prints as centipawns. *)
Lemma mate_formula_fails_above_mate :
  append_uci_score "" 1000002 = " score mate 0"%string /\
  spec_mate_moves 1000002 = -1 /\
  append_uci_score "" 1000002
  <> (" score mate " ++ string_of_int (spec_mate_moves 1000002))%string /\
  append_uci_score "" (mate_score true 0) = append_uci_score "" (mate_score false 0) /\
  append_uci_score "" (mate_score true 1000) = " score cp 999000"%string.
Proof.
  split; [reflexivity|]. split; [reflexivity|]. split; [discriminate|].
  split; reflexivity.
Qed.

(** C6, amended: the formatter prints [score mate k] exactly when [|s|]
    exceeds the mate bound and [score cp s] otherwise; for [|s| <= MATE] the
    [k] is [ceil((MATE - |s|) / 2) * sign(s)]; and for a mate [n] plies away,
    [1 <= n < 1000], reading the printed [mate k] back yields the count of
    moves [ceil(n / 2)], positive when the side to move mates and negative
    when it is mated. *)
Theorem uci_score_format (info : string) (s : Z) :
  (Z.abs s <= MATE_BOUND ->
   append_uci_score info s = (info ++ " score cp " ++ string_of_int s)%string) /\
  (MATE_BOUND < Z.abs s ->
   exists k, append_uci_score info s = (info ++ " score mate " ++ string_of_int k)%string /\
             (Z.abs s <= MATE_SCORE -> k = spec_mate_moves s)) /\
  (forall k c : string, (info ++ " score mate " ++ k <> info ++ " score cp " ++ c)%string) /\
  (forall (stm_wins : bool) (n : Z),
     1 <= n < 1000 ->
     read_mate (append_uci_score "" (mate_score stm_wins n))
     = Some ((if stm_wins then 1 else -1) * ceil_half n) /\
     1 <= ceil_half n <= 500).
Proof.
  split; [| split; [| split]].
  - intros H. unfold append_uci_score. now rewrite score_to_mate_moves_cp.
  - intros H. unfold append_uci_score.
    destruct (Z_le_gt_dec (Z.abs s) MATE_SCORE) as [Hle | Hgt].
    + rewrite score_to_mate_moves_formula by lia. eauto.
    + destruct (score_to_mate_moves_mate s 0 H) as [k ->].
      exists k. split; [reflexivity | lia].
  - intros k c. apply mate_cp_differ.
  - intros stm_wins n Hn.
    assert (Hc : 1 <= ceil_half n <= 500)
      by (unfold ceil_half; Z.to_euclidean_division_equations; lia).
    split; [| exact Hc].
    unfold append_uci_score.
    rewrite score_to_mate_moves_formula
      by (unfold mate_score, MATE_BOUND, MATE_SCORE; destruct stm_wins; lia).
    etransitivity; [apply read_mate_printed|]. f_equal.
    unfold spec_mate_moves, mate_score, MATE_SCORE. destruct stm_wins.
    + rewrite Z.abs_eq, Z.sgn_pos by lia.
      replace (1000000 - (1000000 - n)) with n by lia. lia.
    + rewrite Z.abs_neq, Z.sgn_neg by lia.
      replace (1000000 - - - (1000000 - n)) with n by lia. lia.
Qed.

Lemma uci_score_format_witness :
  append_uci_score "info depth 3" 37 = "info depth 3 score cp 37"%string
  /\
  (exists k, append_uci_score "info depth 3" (-999997)
             = ("info depth 3" ++ " score mate " ++ string_of_int k)%string /\
             (Z.abs (-999997) <= MATE_SCORE -> k = spec_mate_moves (-999997)))
  /\
  (read_mate (append_uci_score "" (mate_score false 3)) = Some ((-1) * ceil_half 3) /\
   1 <= ceil_half 3 <= 500).
Proof.
  split; [| split].
  - apply (proj1 (uci_score_format "info depth 3" 37)). vm_compute. discriminate.
  - apply (proj1 (proj2 (uci_score_format "info depth 3" (-999997)))).
    vm_compute. reflexivity.
  - apply (proj2 (proj2 (proj2 (uci_score_format "" 0))) false 3). lia.
Defined.

(** ** The move after [bestmove] *)

Lemma move_in_list_In (candidate : Move) (ml : list Move) :
  move_in_list candidate ml = true <-> In candidate ml.
Proof.
  induction ml as [| m rest IH]; cbn.
  - split; [discriminate | tauto].
  - destruct (Z.eqb_spec m candidate) as [-> | Hne].
    + split; auto.
    + rewrite IH. split; [auto | intros [H | H]; [congruence | exact H]].
Qed.

Section BestMoveProofs.
Variable Board : Type.
Variable legalmoves : Board -> list Move.
Variable moveToUci : Move -> string.
Variable compute_ponder_move_depth1 : Board -> Move -> Move.

Lemma ensure_legal_or_fallback_spec (board : Board) (candidate : Move) :
ensure_legal_or_fallback Board legalmoves board candidate
= match legalmoves board with
  | [] => NO_MOVE
  | m0 :: _ => if move_in_list candidate (legalmoves board) then candidate else m0
  end.
Proof. reflexivity. Qed.




End BestMoveProofs.

Lemma example_legal_not_null (b : bool) (m : Move) :
  In m (example_legalmoves b) -> m <> NO_MOVE.
Proof. destruct b; cbn; [| tauto]. intros [<- | [<- | []]]; discriminate. Qed.



(** * Further properties *)

(** ** Transposition table: safety and the shape of reachable tables *)

Lemma store_keeps_sizes e t t' :
  store e t = Ok t' ->
  length (table_ t') = length (table_ t) /\
  mask_ t' = mask_ t /\
  capacity_entries_ t' = capacity_entries_ t /\
  gen_ t' = gen_ t.
Proof.
  unfold store. destruct (table_ t) as [| b0 bs] eqn:Et.
  - intros H. inversion H; subst. rewrite Et. auto.
  - destruct (_ !! _); [| discriminate]. intros H. inversion H; subst.
    cbn [table_ mask_ capacity_entries_ gen_]. rewrite length_insert. auto.
Qed.

Lemma clear_keeps_sizes t :
  length (table_ (clear t)) = length (table_ t) /\
  mask_ (clear t) = mask_ t /\
  capacity_entries_ (clear t) = capacity_entries_ t.
Proof.
  unfold clear. destruct (to_u8 (gen_ t + 1) =? 0); cbn [table_ mask_ capacity_entries_].
  - rewrite length_map. auto.
  - auto.
Qed.

Lemma sized_transfer t t' :
  length (table_ t') = length (table_ t) ->
  mask_ t' = mask_ t ->
  capacity_entries_ t' = capacity_entries_ t ->
  tt_sized t -> tt_sized t'.
Proof.
  intros Hl Hm Hc [(Ht & Hm0 & Hc0) | (k & Hk & Hlen & Hmk & Hck)].
  - left. rewrite Ht in Hl. destruct (table_ t'); [| discriminate]. split; [reflexivity|].
    split; congruence.
  - right. exists k. rewrite Hl, Hm, Hc. auto.
Qed.

Lemma reachable_sized t : reachable t -> tt_sized t.
Proof.
  induction 1 as [| n t Hr IH Hn | t Hr IH | e t t' Hr IH Hs].
  - left. cbn. auto.
  - right. destruct (resize_buckets_pow2 n Hn) as [Hp Hb].
    exists (Z.log2_up (Z.max 1 (n / 4))).
    rewrite resize_unfold. cbn [table_ mask_ capacity_entries_].
    rewrite length_replicate, Z2Nat.id, (to_size_t_id (resize_buckets n - 1)) by lia.
    rewrite <- Hp. split; [| auto].
    split; [apply Z.log2_up_nonneg|].
    apply (Z.pow_lt_mono_r_iff 2); [lia | lia |]. rewrite <- Hp. lia.
  - destruct (clear_keeps_sizes t) as (Hl & Hm & Hc). now apply (sized_transfer t).
  - destruct (store_keeps_sizes e t t' Hs) as (Hl & Hm & Hc & _).
    now apply (sized_transfer t).
Qed.

(** X1: in every state a table can be in, [probe] and [store] stay inside
    the bucket vector, the table is well formed, and its sizes are those of
    a power-of-two bucket count. *)
Theorem reachable_table_is_safe (t : TranspositionTable) (Hr : reachable t) :
  tt_wf t /\
  tt_sized t /\
  (forall k, exists r, probe t k = Ok r) /\
  (forall e, exists t', store e t = Ok t' /\ reachable t').
Proof.
  pose proof (reachable_wf t Hr) as Hwf.
  split; [exact Hwf|]. split; [now apply reachable_sized|]. split.
  - intros k. now apply probe_Ok.
  - intros e. destruct (store_Ok e t Hwf) as [t' Hs]. exists t'. split; [exact Hs|].
    eapply reach_store; eassumption.
Qed.

Lemma reachable_table_is_safe_witness :
  tt_wf table_with_deep_entry /\
  tt_sized table_with_deep_entry /\
  (forall k, exists r, probe table_with_deep_entry k = Ok r) /\
  (forall e, exists t', store e table_with_deep_entry = Ok t' /\ reachable t').
Proof.
  apply (reachable_table_is_safe table_with_deep_entry).
  apply table_with_deep_entry_reachable.
Defined.

(** ** Transposition table: what a [store] leaves alone *)

Lemma bucket_index_nonneg t key : 0 <= bucket_index t key.
Proof.
  unfold bucket_index. apply Z.land_nonneg. left. apply to_size_t_range.
Qed.

Lemma store_unfold e t b :
  table_ t !! Z.to_nat (bucket_index t (TTEntry.key e)) = Some b ->
  store e t
  = Ok {| table_ := <[Z.to_nat (bucket_index t (TTEntry.key e))
                      := store_bucket (gen_ t) (key_signature16 (TTEntry.key e)) e b]>
                      (table_ t);
          mask_ := mask_ t;
          capacity_entries_ := capacity_entries_ t;
          gen_ := gen_ t |}.
Proof.
  intros Hb. unfold store. destruct (table_ t) as [| b0 bs] eqn:Et.
  - rewrite lookup_nil in Hb. discriminate.
  - now rewrite Hb.
Qed.

Lemma store_cases e t t' :
  store e t = Ok t' ->
  (table_ t = [] /\ t' = t) \/
  exists b,
    table_ t !! Z.to_nat (bucket_index t (TTEntry.key e)) = Some b /\
    t' = {| table_ := <[Z.to_nat (bucket_index t (TTEntry.key e))
                        := store_bucket (gen_ t) (key_signature16 (TTEntry.key e)) e b]>
                        (table_ t);
            mask_ := mask_ t;
            capacity_entries_ := capacity_entries_ t;
            gen_ := gen_ t |}.
Proof.
  unfold store. destruct (table_ t) as [| b0 bs] eqn:Et.
  - intros H. inversion H. auto.
  - destruct (_ !! _) as [b |] eqn:Hb; [| discriminate].
    intros H. inversion H. right. exists b. auto.
Qed.

Lemma probe_insert_other t key (i : nat) b' :
  Z.to_nat (bucket_index t key) <> i ->
  probe {| table_ := <[i := b']> (table_ t);
           mask_ := mask_ t;
           capacity_entries_ := capacity_entries_ t;
           gen_ := gen_ t |} key
  = probe t key.
Proof.
  intros Hne. unfold probe, bucket_index. cbn [table_ mask_ gen_].
  rewrite list_lookup_insert_ne by (unfold bucket_index in Hne; congruence).
  destruct (table_ t) as [| b0 bs]; [reflexivity|].
  destruct (<[i := b']> (b0 :: bs)) as [| c0 cs] eqn:E; [| reflexivity].
  apply (f_equal length) in E. rewrite length_insert in E. discriminate.
Qed.

(** X2: a [store] changes one bucket only: lookups of keys that index
    another bucket return what they returned before, and the bucket count,
    mask, capacity and generation stay as they were. *)
Theorem store_leaves_other_buckets (e : TTEntry.t) (t t' : TranspositionTable) (k : Z)
    (Hs : store e t = Ok t')
    (Hk : bucket_index t k <> bucket_index t (TTEntry.key e)) :
  probe t' k = probe t k /\
  length (table_ t') = length (table_ t) /\
  mask_ t' = mask_ t /\
  capacity_entries_ t' = capacity_entries_ t /\
  gen_ t' = gen_ t.
Proof.
  split; [| now apply (store_keeps_sizes e)].
  destruct (store_cases e t t' Hs) as [[_ ->] | (b & Hb & ->)]; [reflexivity|].
  apply probe_insert_other. intros E. apply Hk.
  apply Z2Nat.inj; [apply bucket_index_nonneg | apply bucket_index_nonneg | exact E].
Qed.

Lemma find_insert_same_miss {A : Type} (f : A -> bool) (es : list A) (i : nat) (old new : A) :
  es !! i = Some old -> f old = false -> f new = false ->
  find f (<[i := new]> es) = find f es.
Proof.
  revert i. induction es as [| x rest IH]; intros i Hi Ho Hn; [discriminate|].
  destruct i as [| i]; cbn in *.
  - inversion Hi; subst. now rewrite Ho, Hn.
  - destruct (f x); [reflexivity|]. now apply IH.
Qed.

Lemma slot_hit_other_sig g sig sig' pe :
  sig' <> sig -> slot_hit g sig pe = true -> slot_hit g sig' pe = false.
Proof.
  intros Hne H. apply slot_hit_true in H. destruct H as (Hg & Hd & Hk).
  apply not_true_is_false. intros H'. apply slot_hit_true in H'. destruct H' as (_ & _ & Hk').
  congruence.
Qed.

Lemma slot_free_not_hit g sig pe : slot_free g pe = true -> slot_hit g sig pe = false.
Proof.
  unfold slot_free, slot_hit. destruct (negb (PackedEntry.gen pe =? g)); [reflexivity|].
  cbn [orb]. now intros ->.
Qed.

Lemma store_free_slot_Some_free g sig entry es es' :
  store_free_slot g sig entry es = Some es' ->
  exists (i : nat) pe,
    es !! i = Some pe /\ slot_free g pe = true /\ es' = <[i := write g sig entry pe]> es.
Proof.
  revert es'. induction es as [| pe rest IH]; cbn; intros es' H; [discriminate|].
  fold (slot_free g pe) in H. destruct (slot_free g pe) eqn:Hf.
  - inversion H; subst. exists 0%nat, pe. auto.
  - destruct (store_free_slot g sig entry rest) as [rest' |]; [| discriminate].
    inversion H; subst. destruct (IH rest' eq_refl) as (i & p & Hi & Hp & ->).
    exists (S i), p. auto.
Qed.

Lemma store_free_slot_None g sig entry es :
  store_free_slot g sig entry es = None ->
  Forall (fun pe => slot_free g pe = false) es.
Proof.
  induction es as [| pe rest IH]; cbn; intros H; [constructor|].
  fold (slot_free g pe) in H. destruct (slot_free g pe) eqn:Hf; [discriminate|].
  destruct (store_free_slot g sig entry rest); [discriminate|].
  constructor; [exact Hf | now apply IH].
Qed.

Lemma store_bucket_other_sig g sig sig' entry b :
  sig' <> sig ->
  existsb (fun pe => slot_hit g sig pe || slot_free g pe) (Bucket.e b) = true ->
  find (slot_hit g sig') (Bucket.e (store_bucket g sig entry b))
  = find (slot_hit g sig') (Bucket.e b).
Proof.
  intros Hne Hroom. unfold store_bucket.
  destruct (store_same_key g sig entry (Bucket.e b)) as [es' |] eqn:H1.
  - destruct (store_same_key_Some _ _ _ _ _ H1) as (i & pe & Hi & Hf & ->).
    apply find_some in Hf. destruct Hf as [_ Hhit]. cbn [Bucket.e].
    apply (find_insert_same_miss _ _ i pe); [exact Hi | |].
    + now apply (slot_hit_other_sig g sig).
    + apply (slot_hit_other_sig g sig); [exact Hne|].
      destruct (replace entry pe); [apply write_hit | now rewrite fill_move_hit].
  - destruct (store_free_slot g sig entry (Bucket.e b)) as [es' |] eqn:H2.
    + destruct (store_free_slot_Some_free _ _ _ _ _ H2) as (i & pe & Hi & Hfree & ->).
      cbn [Bucket.e]. apply (find_insert_same_miss _ _ i pe); [exact Hi | |].
      * now apply slot_free_not_hit.
      * apply (slot_hit_other_sig g sig); [exact Hne | apply write_hit].
    + exfalso. apply store_same_key_None in H1. apply store_free_slot_None in H2.
      apply existsb_exists in Hroom. destruct Hroom as (pe & Hin & Hpe).
      rewrite Forall_forall in H1, H2. apply list_elem_of_In in Hin.
      rewrite (H1 pe Hin), (H2 pe Hin) in Hpe. discriminate.
Qed.

(** X3: while the bucket has room (a slot of the same signature in the
    current generation, or a stale or empty slot), a [store] costs no
    other position its entry: every key of another signature is looked up
    with the same result as before. *)
Theorem store_keeps_other_entries_while_room
    (e : TTEntry.t) (t t' : TranspositionTable) (k : Z)
    (Hs : store e t = Ok t')
    (Hroom : bucket_has_room t (TTEntry.key e) = true)
    (Hsig : key_signature16 k <> key_signature16 (TTEntry.key e)) :
  probe t' k = probe t k.
Proof.
  unfold bucket_has_room in Hroom.
  destruct (table_ t !! Z.to_nat (bucket_index t (TTEntry.key e))) as [b |] eqn:Hb;
    [| discriminate].
  rewrite (store_unfold e t b Hb) in Hs. inversion Hs; subst t'. clear Hs.
  destruct (Z.eq_dec (bucket_index t k) (bucket_index t (TTEntry.key e))) as [E | E].
  - rewrite (probe_unfold t k b) by (rewrite E; exact Hb).
    erewrite probe_unfold.
    + cbn [gen_]. rewrite (store_bucket_other_sig _ _ _ e _ Hsig Hroom). reflexivity.
    + unfold bucket_index in *. cbn [table_ mask_]. rewrite E.
      apply list_lookup_insert_eq. apply lookup_lt_is_Some. eauto.
  - apply probe_insert_other. intros E'. apply E.
    apply Z2Nat.inj; [apply bucket_index_nonneg | apply bucket_index_nonneg | exact E'].
Qed.

(** ** Transposition table: eviction *)

(** The scan for the victim: with [victim] the best slot among the first
    [i] and [es] the slots from [i] on, the result is the first slot of
    least quality. *)
Lemma pick_victim_min g (slots : list PackedEntry.t) :
  forall es (i victim : nat) q pv,
    drop i slots = es ->
    slots !! victim = Some pv -> quality g pv = q ->
    (forall (j : nat) pe, (j < i)%nat -> slots !! j = Some pe -> q <= quality g pe) ->
    (forall (j : nat) pe, (j < victim)%nat -> slots !! j = Some pe -> q < quality g pe) ->
    exists pw,
      slots !! pick_victim g es i victim q = Some pw /\
      (forall (j : nat) pe, slots !! j = Some pe -> quality g pw <= quality g pe) /\
      (forall (j : nat) pe, (j < pick_victim g es i victim q)%nat ->
         slots !! j = Some pe -> quality g pw < quality g pe).
Proof.
  induction es as [| pe rest IH]; intros i victim q pv Hdrop Hv Hq Hle Hlt.
  - cbn [pick_victim]. exists pv. split; [exact Hv|]. split.
    + intros j p Hj. rewrite Hq. apply (Hle j); [| exact Hj].
      apply lookup_lt_Some in Hj.
      assert (length (drop i slots) = 0%nat) by now rewrite Hdrop.
      rewrite length_drop in H. lia.
    + intros j p Hj. rewrite Hq. now apply Hlt.
  - assert (Hi : slots !! i = Some pe).
    { rewrite <- (Nat.add_0_r i), <- lookup_drop, Hdrop. reflexivity. }
    assert (Hdrop' : drop (S i) slots = rest).
    { rewrite (drop_S _ _ _ Hi) in Hdrop. now inversion Hdrop. }
    cbn [pick_victim]. destruct (Z.ltb_spec (quality g pe) q) as [Hlow | Hhigh].
    + apply (IH (S i) i (quality g pe) pe Hdrop' Hi eq_refl).
      * intros j p Hj Hp. destruct (Nat.eq_dec j i) as [-> | Hne].
        -- rewrite Hi in Hp. inversion Hp; subst. lia.
        -- specialize (Hle j p ltac:(lia) Hp). lia.
      * intros j p Hj Hp. specialize (Hle j p Hj Hp). lia.
    + apply (IH (S i) victim q pv Hdrop' Hv Hq).
      * intros j p Hj Hp. destruct (Nat.eq_dec j i) as [-> | Hne].
        -- rewrite Hi in Hp. inversion Hp; subst. lia.
        -- apply (Hle j p); [lia | exact Hp].
      * exact Hlt.
Qed.

(** X4: when every slot of the bucket holds a current-generation entry of
    another signature, [store] overwrites exactly one slot, the first among
    those of least [quality] (here four times the depth, plus 2 for an
    exact bound, plus 1 for a stored move), and leaves the other slots as
    they are. *)
Theorem store_evicts_lowest_quality
    (e : TTEntry.t) (t t' : TranspositionTable) (b : Bucket.t)
    (Hs : store e t = Ok t')
    (Hb : table_ t !! Z.to_nat (bucket_index t (TTEntry.key e)) = Some b)
    (Hne : Bucket.e b <> [])
    (Hfull : bucket_has_room t (TTEntry.key e) = false) :
  exists (v : nat) victim,
    Bucket.e b !! v = Some victim /\
    table_ t'
    = <[Z.to_nat (bucket_index t (TTEntry.key e))
        := Bucket.mk (<[v := write (gen_ t) (key_signature16 (TTEntry.key e)) e victim]>
                        (Bucket.e b))]> (table_ t) /\
    (forall (j : nat) pe, Bucket.e b !! j = Some pe ->
       quality (gen_ t) victim <= quality (gen_ t) pe) /\
    (forall (j : nat) pe, (j < v)%nat -> Bucket.e b !! j = Some pe ->
       quality (gen_ t) victim < quality (gen_ t) pe).
Proof.
  rewrite (store_unfold e t b Hb) in Hs. inversion Hs; subst t'. clear Hs.
  cbn [table_]. unfold bucket_has_room in Hfull. rewrite Hb in Hfull.
  set (g := gen_ t) in *. set (sig := key_signature16 (TTEntry.key e)) in *.
  assert (Hall : forall pe, pe ∈ Bucket.e b ->
            slot_hit g sig pe = false /\ slot_free g pe = false).
  { intros pe Hin. apply list_elem_of_In in Hin.
    destruct (slot_hit g sig pe || slot_free g pe) eqn:E.
    - assert (existsb (fun pe => slot_hit g sig pe || slot_free g pe) (Bucket.e b) = true)
        by (apply existsb_exists; eauto).
      congruence.
    - now apply orb_false_elim in E. }
  assert (H1 : store_same_key g sig e (Bucket.e b) = None).
  { apply store_same_key_None. apply Forall_forall. intros pe Hin. now apply Hall. }
  assert (H2 : store_free_slot g sig e (Bucket.e b) = None).
  { destruct (store_free_slot g sig e (Bucket.e b)) as [es' |] eqn:H2; [| reflexivity].
    destruct (store_free_slot_Some_free _ _ _ _ _ H2) as (i & pe & Hi & Hfree & _).
    destruct (Hall pe (list_elem_of_lookup_2 _ _ _ Hi)) as [_ Hnf]. congruence. }
  unfold store_bucket. rewrite H1, H2.
  destruct (Bucket.e b) as [| e0 rest] eqn:Ees; [congruence|].
  unfold store_victim.
  destruct (pick_victim_min g (e0 :: rest) (e0 :: rest) 0 0 (quality g e0) e0
              eq_refl eq_refl eq_refl) as (pw & Hpw & Hmin & Hfirst).
  { intros j pe Hj. lia. }
  { intros j pe Hj. lia. }
  rewrite Hpw. eexists _, pw. split; [exact Hpw|]. split; [reflexivity|].
  split; assumption.
Qed.

Lemma store_leaves_other_buckets_witness :
  probe two_bucket_table 1 = Ok (Some (TTEntry.mk 1 2 TT_EXACT 15 NO_MOVE false)) /\
  exists t',
    store (TTEntry.mk 0 4 TT_EXACT 9 NO_MOVE false) two_bucket_table = Ok t' /\
    probe t' 1 = probe two_bucket_table 1 /\
    length (table_ t') = length (table_ two_bucket_table) /\
    mask_ t' = mask_ two_bucket_table /\
    capacity_entries_ t' = capacity_entries_ two_bucket_table /\
    gen_ t' = gen_ two_bucket_table.
Proof.
  split; [reflexivity|]. eexists. split; [reflexivity|].
  apply (store_leaves_other_buckets (TTEntry.mk 0 4 TT_EXACT 9 NO_MOVE false)
           two_bucket_table _ 1).
  - reflexivity.
  - vm_compute. discriminate.
Defined.

Lemma store_keeps_other_entries_while_room_witness :
  exists t',
    store (TTEntry.mk (key_of_signature 1 + 7) 4 TT_EXACT 9 NO_MOVE false)
      table_with_deep_entry = Ok t' /\
    probe t' 7 = probe table_with_deep_entry 7.
Proof.
  eexists. split; [reflexivity|].
  apply (store_keeps_other_entries_while_room
           (TTEntry.mk (key_of_signature 1 + 7) 4 TT_EXACT 9 NO_MOVE false)
           table_with_deep_entry _ 7).
  - reflexivity.
  - reflexivity.
  - vm_compute. discriminate.
Defined.

Lemma store_evicts_lowest_quality_witness :
  exists (v : nat) victim,
    [PackedEntry.mk 10 1 0 6 TT_EXACT 1 0;
     PackedEntry.mk 20 2 77 3 TT_LOWERBOUND 1 1;
     PackedEntry.mk 30 3 0 3 TT_UPPERBOUND 1 0;
     PackedEntry.mk 40 4 0 5 TT_EXACT 1 0] !! v = Some victim /\
    table_ full_bucket_table_after
    = <[Z.to_nat (bucket_index full_bucket_table (TTEntry.key fifth_entry))
        := Bucket.mk
             (<[v := write (gen_ full_bucket_table)
                       (key_signature16 (TTEntry.key fifth_entry)) fifth_entry victim]>
                [PackedEntry.mk 10 1 0 6 TT_EXACT 1 0;
                 PackedEntry.mk 20 2 77 3 TT_LOWERBOUND 1 1;
                 PackedEntry.mk 30 3 0 3 TT_UPPERBOUND 1 0;
                 PackedEntry.mk 40 4 0 5 TT_EXACT 1 0])]> (table_ full_bucket_table) /\
    (forall (j : nat) pe,
       [PackedEntry.mk 10 1 0 6 TT_EXACT 1 0;
        PackedEntry.mk 20 2 77 3 TT_LOWERBOUND 1 1;
        PackedEntry.mk 30 3 0 3 TT_UPPERBOUND 1 0;
        PackedEntry.mk 40 4 0 5 TT_EXACT 1 0] !! j = Some pe ->
       quality (gen_ full_bucket_table) victim <= quality (gen_ full_bucket_table) pe) /\
    (forall (j : nat) pe, (j < v)%nat ->
       [PackedEntry.mk 10 1 0 6 TT_EXACT 1 0;
        PackedEntry.mk 20 2 77 3 TT_LOWERBOUND 1 1;
        PackedEntry.mk 30 3 0 3 TT_UPPERBOUND 1 0;
        PackedEntry.mk 40 4 0 5 TT_EXACT 1 0] !! j = Some pe ->
       quality (gen_ full_bucket_table) victim < quality (gen_ full_bucket_table) pe).
Proof.
  apply (store_evicts_lowest_quality fifth_entry full_bucket_table full_bucket_table_after
           (Bucket.mk [PackedEntry.mk 10 1 0 6 TT_EXACT 1 0;
                       PackedEntry.mk 20 2 77 3 TT_LOWERBOUND 1 1;
                       PackedEntry.mk 30 3 0 3 TT_UPPERBOUND 1 0;
                       PackedEntry.mk 40 4 0 5 TT_EXACT 1 0])).
  - reflexivity.
  - reflexivity.
  - discriminate.
  - reflexivity.
Defined.

(** ** Transposition table: storing twice *)

Lemma store_same_key_fixed g sig entry es (i : nat) w :
  es !! i = Some w ->
  (forall (j : nat) pe, (j < i)%nat -> es !! j = Some pe -> slot_hit g sig pe = false) ->
  slot_hit g sig w = true ->
  (if replace entry w then write g sig entry w else fill_move entry w) = w ->
  store_same_key g sig entry es = Some es.
Proof.
  revert i. induction es as [| pe rest IH]; intros i Hi Hbefore Hhit Hfix; [discriminate|].
  destruct i as [| i]; cbn in Hi |- *.
  - inversion Hi; subst. now rewrite Hhit, Hfix.
  - rewrite (Hbefore 0%nat pe) by (reflexivity || lia).
    rewrite (IH i Hi); [reflexivity | | exact Hhit | exact Hfix].
    intros j p Hj Hp. apply (Hbefore (S j) p); [lia | exact Hp].
Qed.

Lemma store_same_key_Some_first g sig entry es es' :
  store_same_key g sig entry es = Some es' ->
  exists (i : nat) pe,
    es !! i = Some pe /\ slot_hit g sig pe = true /\
    (forall (j : nat) p, (j < i)%nat -> es !! j = Some p -> slot_hit g sig p = false) /\
    es' = <[i := if replace entry pe then write g sig entry pe else fill_move entry pe]> es.
Proof.
  revert es'. induction es as [| pe rest IH]; cbn; intros es' H; [discriminate|].
  destruct (slot_hit g sig pe) eqn:Hh.
  - inversion H; subst. exists 0%nat, pe. repeat split; auto. intros j p Hj. lia.
  - destruct (store_same_key g sig entry rest) as [rest' |]; [| discriminate].
    inversion H; subst. destruct (IH rest' eq_refl) as (i & p & Hi & Hp & Hbefore & ->).
    exists (S i), p. repeat split; auto.
    intros [| j] q Hj Hq; cbn in Hq.
    + inversion Hq; subst. exact Hh.
    + apply (Hbefore j q); [lia | exact Hq].
Qed.

Lemma write_fixed g sig entry pe :
  (if replace entry (write g sig entry pe) then write g sig entry (write g sig entry pe)
   else fill_move entry (write g sig entry pe))
  = write g sig entry pe.
Proof.
  destruct (replace entry (write g sig entry pe)); [reflexivity|].
  unfold fill_move. cbn [PackedEntry.hasMove write].
  destruct (TTEntry.hasMove entry); reflexivity.
Qed.

Lemma replace_fill_move entry pe : replace entry (fill_move entry pe) = replace entry pe.
Proof. unfold fill_move. destruct (_ && _); reflexivity. Qed.

Lemma fill_move_fixed entry pe : fill_move entry (fill_move entry pe) = fill_move entry pe.
Proof.
  unfold fill_move. destruct (TTEntry.hasMove entry); cbn [andb]; [| reflexivity].
  destruct (PackedEntry.hasMove pe =? 0) eqn:E; [reflexivity | now rewrite E].
Qed.

(** After [store], the bucket is empty (it was so before), or its first
    slot matching the signature is one a second [store] rewrites to itself. *)
Lemma store_bucket_settled g sig entry b :
  (Bucket.e b = [] /\ store_bucket g sig entry b = Bucket.mk []) \/
  exists (i : nat) w,
    Bucket.e (store_bucket g sig entry b) !! i = Some w /\
    (forall (j : nat) pe, (j < i)%nat ->
       Bucket.e (store_bucket g sig entry b) !! j = Some pe -> slot_hit g sig pe = false) /\
    slot_hit g sig w = true /\
    (if replace entry w then write g sig entry w else fill_move entry w) = w.
Proof.
  unfold store_bucket.
  destruct (store_same_key g sig entry (Bucket.e b)) as [es' |] eqn:H1.
  - right. destruct (store_same_key_Some_first _ _ _ _ _ H1) as (i & pe & Hi & Hhit & Hbefore & ->).
    assert (Hlt : (i < length (Bucket.e b))%nat) by (apply lookup_lt_is_Some; eauto).
    eexists i, _. cbn [Bucket.e]. split; [now apply list_lookup_insert_eq|]. split; [| split].
    + intros j p Hj Hp. rewrite list_lookup_insert_ne in Hp by lia. eapply Hbefore; eassumption.
    + destruct (replace entry pe); [apply write_hit | now rewrite fill_move_hit].
    + destruct (replace entry pe) eqn:R.
      * apply write_fixed.
      * now rewrite replace_fill_move, R, fill_move_fixed.
  - pose proof (proj1 (store_same_key_None _ _ _ _) H1) as Hno.
    assert (Hins : forall (i : nat) pe es', Bucket.e b !! i = Some pe ->
              es' = <[i := write g sig entry pe]> (Bucket.e b) ->
              exists (i : nat) w,
                es' !! i = Some w /\
                (forall (j : nat) pe, (j < i)%nat -> es' !! j = Some pe ->
                   slot_hit g sig pe = false) /\
                slot_hit g sig w = true /\
                (if replace entry w then write g sig entry w else fill_move entry w) = w).
    { intros i pe es' Hi ->.
      assert (Hlt : (i < length (Bucket.e b))%nat) by (apply lookup_lt_is_Some; eauto).
      eexists i, _. split; [now apply list_lookup_insert_eq|]. split; [| split].
      - intros j p Hj Hp. rewrite list_lookup_insert_ne in Hp by lia.
        eapply Forall_lookup_1 in Hno; [exact Hno | exact Hp].
      - apply write_hit.
      - apply write_fixed. }
    destruct (store_free_slot g sig entry (Bucket.e b)) as [es' |] eqn:H2.
    + right. destruct (store_free_slot_Some _ _ _ _ _ H2) as (i & pe & Hi & E).
      cbn [Bucket.e]. now apply (Hins i pe).
    + destruct (Bucket.e b) as [| e0 rest] eqn:Ees.
      * left. split; reflexivity.
      * right. destruct (store_victim_shape g sig entry (e0 :: rest) ltac:(discriminate))
          as (i & pe & Hi & E).
        cbn [Bucket.e]. now apply (Hins i pe).
Qed.

Lemma store_bucket_idempotent g sig entry b :
  store_bucket g sig entry (store_bucket g sig entry b) = store_bucket g sig entry b.
Proof.
  destruct (store_bucket_settled g sig entry b) as [[_ ->] | (i & w & Hi & Hb & Hh & Hf)].
  - reflexivity.
  - destruct (store_bucket g sig entry b) as [es']. cbn [Bucket.e] in *.
    unfold store_bucket. cbn [Bucket.e].
    now rewrite (store_same_key_fixed g sig entry es' i w Hi Hb Hh Hf).
Qed.

(** X5: storing the same entry a second time changes nothing. *)
Theorem store_twice (e : TTEntry.t) (t t' : TranspositionTable)
    (Hs : store e t = Ok t') :
  store e t' = Ok t'.
Proof.
  destruct (store_cases e t t' Hs) as [[_ ->] | (b & Hb & ->)]; [exact Hs|].
  assert (Hlt : (Z.to_nat (bucket_index t (TTEntry.key e)) < length (table_ t))%nat)
    by (apply lookup_lt_is_Some; eauto).
  erewrite store_unfold.
  - cbn [table_ mask_ capacity_entries_ gen_]. unfold bucket_index. cbn [mask_].
    fold (bucket_index t (TTEntry.key e)).
    rewrite store_bucket_idempotent, list_insert_insert_eq. reflexivity.
  - unfold bucket_index. cbn [table_ mask_]. fold (bucket_index t (TTEntry.key e)).
    now apply list_lookup_insert_eq.
Qed.

Lemma store_twice_witness :
  store fifth_entry full_bucket_table_after = Ok full_bucket_table_after.
Proof. apply (store_twice fifth_entry full_bucket_table). reflexivity. Defined.

(** ** Transposition table: colliding keys *)

Lemma unpack_rekey k1 k2 pe : unpack k2 pe = rekey k2 (unpack k1 pe).
Proof. reflexivity. Qed.

Lemma probe_colliding t k1 k2 :
  bucket_index t k2 = bucket_index t k1 ->
  key_signature16 k2 = key_signature16 k1 ->
  probe t k2 = rekeyed k2 (probe t k1).
Proof.
  intros Hi Hs. unfold probe. rewrite <- Hi, <- Hs.
  destruct (table_ t) as [| b0 bs]; [reflexivity|].
  destruct (_ !! _) as [b |]; [| reflexivity].
  rewrite !probe_bucket_find. cbn [rekeyed].
  destruct (find _ _); reflexivity.
Qed.

(** X8: [probe] compares the bucket index and the 16-bit signature only.
    A key that agrees with the key of a stored entry on both gets that
    entry's data under its own key: after [store e], probing the colliding
    key answers what probing [e]'s key answers, with the key replaced. *)
Theorem colliding_keys_share_entries (e : TTEntry.t) (t t' : TranspositionTable) (k2 : Z)
    (Hs : store e t = Ok t')
    (Hi : bucket_index t k2 = bucket_index t (TTEntry.key e))
    (Hsig : key_signature16 k2 = key_signature16 (TTEntry.key e)) :
  probe t k2 = rekeyed k2 (probe t (TTEntry.key e)) /\
  probe t' k2 = rekeyed k2 (probe t' (TTEntry.key e)).
Proof.
  split; [now apply probe_colliding|].
  apply probe_colliding; [| now symmetry].
  destruct (store_keeps_sizes e t t' Hs) as (_ & Hm & _).
  unfold bucket_index in *. now rewrite Hm.
Qed.

Lemma colliding_keys_share_entries_witness :
  exists t',
    store (TTEntry.mk 7 12 TT_LOWERBOUND 40 NO_MOVE false) table_with_deep_entry = Ok t' /\
    probe table_with_deep_entry 8 = Ok (Some (TTEntry.mk 8 9 TT_EXACT 35 NO_MOVE false)) /\
    probe t' 8 = Ok (Some (TTEntry.mk 8 12 TT_LOWERBOUND 40 NO_MOVE false)).
Proof.
  eexists. split; [reflexivity|].
  exact (colliding_keys_share_entries (TTEntry.mk 7 12 TT_LOWERBOUND 40 NO_MOVE false)
           table_with_deep_entry _ 8 eq_refl eq_refl eq_refl).
Defined.

(** ** Transposition table: [next_pow2], [resize] and the megabyte helpers *)

Lemma next_pow2_smear x :
  2 <= x <= 2 ^ 64 ->
  next_pow2 x = to_size_t (Z.ones (Z.log2 (x - 1) + 1) + 1).
Proof.
  intros Hx. unfold next_pow2.
  destruct (Z.leb_spec x 1) as [H1 | H1]; [lia|].
  rewrite (to_size_t_id (x - 1)) by lia.
  set (x1 := Z.lor (x - 1) (Z.shiftr (x - 1) 1)).
  set (x2 := Z.lor x1 (Z.shiftr x1 2)).
  set (x3 := Z.lor x2 (Z.shiftr x2 4)).
  set (x4 := Z.lor x3 (Z.shiftr x3 8)).
  set (x5 := Z.lor x4 (Z.shiftr x4 16)).
  set (x6 := Z.lor x5 (Z.shiftr x5 32)).
  assert (S1 : smeared (x - 1) 2 x1) by (apply (smeared_step _ 1); [lia | apply smeared_init]).
  assert (S2 : smeared (x - 1) 4 x2) by (apply (smeared_step _ 2); [lia | exact S1]).
  assert (S3 : smeared (x - 1) 8 x3) by (apply (smeared_step _ 4); [lia | exact S2]).
  assert (S4 : smeared (x - 1) 16 x4) by (apply (smeared_step _ 8); [lia | exact S3]).
  assert (S5 : smeared (x - 1) 32 x5) by (apply (smeared_step _ 16); [lia | exact S4]).
  assert (S6 : smeared (x - 1) 64 x6) by (apply (smeared_step _ 32); [lia | exact S5]).
  assert (N1 : 0 <= x1) by (apply Z.lor_nonneg; split; [lia | apply Z.shiftr_nonneg; lia]).
  assert (N2 : 0 <= x2) by (apply Z.lor_nonneg; split; [lia | apply Z.shiftr_nonneg; lia]).
  assert (N3 : 0 <= x3) by (apply Z.lor_nonneg; split; [lia | apply Z.shiftr_nonneg; lia]).
  assert (N4 : 0 <= x4) by (apply Z.lor_nonneg; split; [lia | apply Z.shiftr_nonneg; lia]).
  assert (N5 : 0 <= x5) by (apply Z.lor_nonneg; split; [lia | apply Z.shiftr_nonneg; lia]).
  assert (N6 : 0 <= x6) by (apply Z.lor_nonneg; split; [lia | apply Z.shiftr_nonneg; lia]).
  now rewrite (smeared_ones (x - 1) x6) by (try assumption; lia).
Qed.

(** X7: [next_pow2] returns the least power of two that is at least [x], as
    long as that power fits [std::size_t]; above [2 ^ 63] the last
    increment wraps and the result is 0. *)
Theorem next_pow2_least (x : Z) :
  (x <= 1 -> next_pow2 x = 1) /\
  (1 <= x <= 2 ^ 63 ->
   exists k, 0 <= k <= 63 /\ next_pow2 x = 2 ^ k /\ x <= 2 ^ k /\
             forall j, 0 <= j -> x <= 2 ^ j -> 2 ^ k <= 2 ^ j) /\
  (2 ^ 63 < x < 2 ^ 64 -> next_pow2 x = 0).
Proof.
  split; [| split].
  - intros H. unfold next_pow2. destruct (Z.leb_spec x 1); [reflexivity | lia].
  - intros Hx. exists (Z.log2_up x).
    pose proof (next_pow2_spec x Hx) as Hs. pose proof (next_pow2_bounds x Hx) as Hb.
    pose proof (Z.log2_up_nonneg x) as H0.
    assert (Hk : Z.log2_up x <= 63).
    { destruct (Z.eq_dec x 1) as [-> | Hne]; [cbn; lia|].
      apply Z.log2_up_le_pow2; lia. }
    split; [lia|]. split; [exact Hs|]. split; [lia|].
    intros j Hj Hxj. apply Z.pow_le_mono_r; [lia|].
    destruct (Z.eq_dec x 1) as [-> | Hne]; [cbn; lia|].
    apply Z.log2_up_le_pow2; lia.
  - intros Hx. rewrite next_pow2_smear by lia.
    assert (Hl : Z.log2 (x - 1) = 63).
    { apply Z.log2_unique; lia. }
    rewrite Hl. reflexivity.
Qed.

Lemma next_pow2_least_witness :
  next_pow2 0 = 1 /\
  (exists k, 0 <= k <= 63 /\ next_pow2 21845 = 2 ^ k /\ 21845 <= 2 ^ k /\
             forall j, 0 <= j -> 21845 <= 2 ^ j -> 2 ^ k <= 2 ^ j) /\
  next_pow2 (2 ^ 63 + 1) = 0.
Proof.
  split; [| split].
  - apply (proj1 (next_pow2_least 0)). lia.
  - apply (proj1 (proj2 (next_pow2_least 21845))). lia.
  - apply (proj2 (proj2 (next_pow2_least (2 ^ 63 + 1)))). lia.
Defined.

Lemma probe_all_empty t k : tt_wf t -> all_empty t -> probe t k = Ok None.
Proof.
  intros Hwf He. unfold probe. destruct (table_ t) as [| b0 bs] eqn:Et; [reflexivity|].
  destruct (bucket_index_in_range t k Hwf) as [b Hb]; [rewrite Et; discriminate|].
  rewrite Et in Hb. rewrite Hb. f_equal.
  rewrite probe_bucket_find, find_nohit; [reflexivity|].
  unfold all_empty in He. rewrite Et, Forall_forall in He.
  specialize (He b (list_elem_of_lookup_2 _ _ _ Hb)).
  eapply Forall_impl; [exact He|]. intros pe ->.
  pose proof (wf_gen t Hwf) as Hg. unfold slot_hit. cbn [PackedEntry.gen PackedEntry.default].
  destruct (Z.eqb_spec 0 (gen_ t)); [lia | reflexivity].
Qed.

(** X6: [resize] builds a fresh table whatever the old one held: every
    lookup misses, the generation is 1, the bucket count is the least power
    of two that is at least [maxEntries / 4] (at least 1), the mask is that
    count minus one, and the capacity is four times the count. *)
Theorem resize_gives_empty_table (n : Z) (t : TranspositionTable)
    (Hn : 0 <= n < 2 ^ 63) :
  (forall k, probe (resize n t) k = Ok None) /\
  all_empty (resize n t) /\
  gen_ (resize n t) = 1 /\
  exists j, 0 <= j /\
    Z.of_nat (length (table_ (resize n t))) = 2 ^ j /\
    mask_ (resize n t) = 2 ^ j - 1 /\
    capacity_entries_ (resize n t) = 4 * 2 ^ j /\
    Z.max 1 (n / 4) <= 2 ^ j < 2 * Z.max 1 (n / 4).
Proof.
  assert (Hn' : 0 <= n < 2 ^ 64) by lia.
  pose proof (resize_wf n t Hn') as Hwf.
  assert (He : all_empty (resize n t)).
  { unfold all_empty. rewrite resize_unfold. cbn [table_].
    apply Forall_replicate. cbn. repeat constructor. }
  split; [intros k; now apply probe_all_empty|]. split; [exact He|].
  split; [reflexivity|].
  destruct (resize_buckets_pow2 n Hn') as [Hp Hb].
  assert (Hm : 1 <= Z.max 1 (n / 4) < 2 ^ 61).
  { assert (n / 4 < 2 ^ 61) by (apply Z.div_lt_upper_bound; lia). lia. }
  assert (Hnp : Z.max 1 (n / 4) <= resize_buckets n < 2 * Z.max 1 (n / 4)).
  { unfold resize_buckets, CLUSTER_SIZE.
    replace (if (if n <? 4 then 4 else n) / 4 <? 1 then 1 else (if n <? 4 then 4 else n) / 4)
      with (Z.max 1 (n / 4)).
    - apply next_pow2_bounds. lia.
    - destruct (Z.ltb_spec n 4).
      + rewrite (Z.div_small n 4) by lia. reflexivity.
      + assert (1 <= n / 4) by (apply Z.div_le_lower_bound; lia).
        destruct (Z.ltb_spec (n / 4) 1); lia. }
  exists (Z.log2_up (Z.max 1 (n / 4))). rewrite <- Hp.
  rewrite resize_unfold. cbn [table_ mask_ capacity_entries_]. unfold CLUSTER_SIZE.
  rewrite length_replicate, Z2Nat.id, !to_size_t_id by lia.
  split; [apply Z.log2_up_nonneg|]. repeat split; lia.
Qed.

Lemma resize_gives_empty_table_witness :
  (forall k, probe (resize 10 table_with_deep_entry) k = Ok None) /\
  all_empty (resize 10 table_with_deep_entry) /\
  gen_ (resize 10 table_with_deep_entry) = 1 /\
  exists j, 0 <= j /\
    Z.of_nat (length (table_ (resize 10 table_with_deep_entry))) = 2 ^ j /\
    mask_ (resize 10 table_with_deep_entry) = 2 ^ j - 1 /\
    capacity_entries_ (resize 10 table_with_deep_entry) = 4 * 2 ^ j /\
    Z.max 1 (10 / 4) <= 2 ^ j < 2 * Z.max 1 (10 / 4).
Proof. apply (resize_gives_empty_table 10 table_with_deep_entry). lia. Defined.

(** X9: over the range of the [Hash] option, converting megabytes to
    entries and back never reports less than was asked and always less
    than twice as much; it reports the same number exactly for the sizes
    [3 * 2 ^ j] and for 1 (where the division back to megabytes truncates
    one and a half to 1). *)
Theorem megabytes_round_trip (mb : Z) (Hmb : 1 <= mb <= 4096) :
  mb <= mb_for_entries (entries_for_mb mb) < 2 * mb /\
  (mb_for_entries (entries_for_mb mb) = mb <->
   mb = 1 \/ member mb fitting_hash_sizes = true).
Proof.
  assert (H : all_upto 4096
                (fun x => (x <=? mb_for_entries (entries_for_mb x))
                          && (mb_for_entries (entries_for_mb x) <? 2 * x)
                          && Bool.eqb (mb_for_entries (entries_for_mb x) =? x)
                                      ((x =? 1) || member x fitting_hash_sizes)) = true)
    by (vm_compute; reflexivity).
  pose proof (all_upto_spec 4096 _ H mb ltac:(lia)) as Hx. cbn beta in Hx.
  apply andb_true_iff in Hx. destruct Hx as [Hx He].
  apply andb_true_iff in Hx. destruct Hx as [Hlo Hhi].
  apply Z.leb_le in Hlo. apply Z.ltb_lt in Hhi. apply Bool.eqb_prop in He.
  split; [lia|]. rewrite <- (Z.eqb_eq mb 1), <- orb_true_iff, <- He.
  symmetry. apply Z.eqb_eq.
Qed.

Lemma megabytes_round_trip_witness :
  256 <= mb_for_entries (entries_for_mb 256) < 2 * 256 /\
  (mb_for_entries (entries_for_mb 256) = 256 <->
   256 = 1 \/ member 256 fitting_hash_sizes = true).
Proof. apply (megabytes_round_trip 256). lia. Defined.

(** ** Transposition table: repeated [clear] *)

Lemma clear_at_255 t :
  gen_ t = 255 ->
  clear t = mkTT (map (fun b => Bucket.mk (map (fun _ => PackedEntry.default) (Bucket.e b)))
                      (table_ t))
                 (mask_ t) (capacity_entries_ t) 1.
Proof. intros E. unfold clear. now rewrite (clear_gen_wrap t E). Qed.

Lemma iter_clear_keeps_sizes (n : nat) t :
  length (table_ (Nat.iter n clear t)) = length (table_ t) /\
  mask_ (Nat.iter n clear t) = mask_ t /\
  capacity_entries_ (Nat.iter n clear t) = capacity_entries_ t.
Proof.
  induction n as [| n IH]; [auto|].
  change (Nat.iter (S n) clear t) with (clear (Nat.iter n clear t)).
  destruct (clear_keeps_sizes (Nat.iter n clear t)) as (-> & -> & ->). exact IH.
Qed.

(** X10: entries written before a [clear] never come back, however many
    clears follow: after one or more clears every lookup misses.  The
    generation counter cycles through 1..255, and after exactly 255 clears
    it is back at its old value over a table whose slots have all been
    reset; the bucket count, mask and capacity never change. *)
Theorem clear_never_revives_entries (t : TranspositionTable) (Hwf : tt_wf t) :
  (forall n k, probe (Nat.iter (S n) clear t) k = Ok None) /\
  gen_ (Nat.iter 255 clear t) = gen_ t /\
  all_empty (Nat.iter 255 clear t) /\
  (forall n, length (table_ (Nat.iter n clear t)) = length (table_ t) /\
             mask_ (Nat.iter n clear t) = mask_ t /\
             capacity_entries_ (Nat.iter n clear t) = capacity_entries_ t).
Proof.
  split; [| split; [| split]].
  - intros n k.
    change (Nat.iter (S n) clear t) with (clear (Nat.iter n clear t)).
    pose proof (iter_clear_wf n t Hwf) as Hw.
    apply stale_probe_None; [now apply clear_wf | now apply clear_all_stale].
  - pose proof (wf_gen t Hwf) as Hg.
    replace 255%nat with (Z.to_nat (gen_ t - 1) + S (Z.to_nat (255 - gen_ t)))%nat by lia.
    rewrite Nat.iter_add.
    change (Nat.iter (S ?n) clear t) with (clear (Nat.iter n clear t)).
    destruct (iter_clear_no_wrap (Z.to_nat (255 - gen_ t)) t) as [_ Hg1]; [lia | lia|].
    rewrite clear_at_255 by lia.
    match goal with |- gen_ (Nat.iter _ clear ?u) = _ =>
      destruct (iter_clear_no_wrap (Z.to_nat (gen_ t - 1)) u) as [_ Hg2] end;
      [cbn [gen_]; lia | cbn [gen_]; lia|].
    rewrite Hg2. cbn [gen_]. lia.
  - pose proof (wf_gen t Hwf) as Hg.
    replace 255%nat with (Z.to_nat (gen_ t - 1) + S (Z.to_nat (255 - gen_ t)))%nat by lia.
    rewrite Nat.iter_add.
    change (Nat.iter (S ?n) clear t) with (clear (Nat.iter n clear t)).
    destruct (iter_clear_no_wrap (Z.to_nat (255 - gen_ t)) t) as [_ Hg1]; [lia | lia|].
    rewrite clear_at_255 by lia.
    match goal with |- all_empty (Nat.iter _ clear ?u) =>
      destruct (iter_clear_no_wrap (Z.to_nat (gen_ t - 1)) u) as [Ht2 _] end;
      [cbn [gen_]; lia | cbn [gen_]; lia|].
    unfold all_empty. rewrite Ht2. cbn [table_].
    apply Forall_map. apply Forall_true. intros b. cbn [Bucket.e].
    apply Forall_map. apply Forall_true. reflexivity.
  - intros n. apply iter_clear_keeps_sizes.
Qed.

Lemma clear_never_revives_entries_witness :
  (forall n k, probe (Nat.iter (S n) clear table_with_deep_entry) k = Ok None) /\
  gen_ (Nat.iter 255 clear table_with_deep_entry) = 1 /\
  all_empty (Nat.iter 255 clear table_with_deep_entry) /\
  (forall n, length (table_ (Nat.iter n clear table_with_deep_entry)) = 1%nat /\
             mask_ (Nat.iter n clear table_with_deep_entry) = 0 /\
             capacity_entries_ (Nat.iter n clear table_with_deep_entry) = 4).
Proof.
  apply (clear_never_revives_entries table_with_deep_entry).
  apply reachable_wf, table_with_deep_entry_reachable.
Defined.

(** ** Time manager: bounds and monotonicity *)

Lemma compute_time_budget_movetime limits stm cfg :
  limits_in_range limits cfg ->
  0 <= SearchLimits.movetime_ms limits ->
  compute_time_budget limits stm cfg
  = TimeBudget.mk true
      (fst (movetime_budget (SearchLimits.movetime_ms limits)
              (Z.max 0 (EngineConfig.move_overhead_ms cfg))))
      (snd (movetime_budget (SearchLimits.movetime_ms limits)
              (Z.max 0 (EngineConfig.move_overhead_ms cfg))))
      (Z.max 0 (EngineConfig.move_overhead_ms cfg)).
Proof.
  intros (Hmt & Hwt & Hbt & Hwi & Hbi & Hmtg & Hov & Hmtg' & Hmt') Hm.
  unfold in_int, INT_MIN, INT_MAX in *.
  unfold compute_time_budget.
  set (ov := Z.max 0 (EngineConfig.move_overhead_ms cfg)).
  assert (Hov' : 0 <= ov <= 2147483647) by (subst ov; lia).
  rewrite Z.geb_leb.
  destruct (Z.leb_spec 0 (SearchLimits.movetime_ms limits)) as [_ | ?]; [| lia].
  rewrite (to_int_id (SearchLimits.movetime_ms limits - ov))
    by (unfold in_int, INT_MIN, INT_MAX; lia).
  unfold movetime_budget. cbn [fst snd].
  set (av := Z.max 0 (SearchLimits.movetime_ms limits - ov)).
  assert (Hav : 0 <= av <= 22605091) by (subst av; lia).
  rewrite (to_int_id (av * 95)) by (unfold in_int, INT_MIN, INT_MAX; lia).
  rewrite quot_nonneg_div by lia.
  now replace (95 * av) with (av * 95) by lia.
Qed.

Lemma compute_time_budget_clock limits stm cfg :
  limits_in_range limits cfg ->
  SearchLimits.movetime_ms limits < 0 ->
  0 <= my_time_of limits stm ->
  compute_time_budget limits stm cfg
  = TimeBudget.mk true
      (fst (clock_budget (my_time_of limits stm) (my_inc_of limits stm)
              (SearchLimits.movestogo limits) (Z.max 0 (EngineConfig.move_overhead_ms cfg))))
      (snd (clock_budget (my_time_of limits stm) (my_inc_of limits stm)
              (SearchLimits.movestogo limits) (Z.max 0 (EngineConfig.move_overhead_ms cfg))))
      (Z.max 0 (EngineConfig.move_overhead_ms cfg)).
Proof.
  intros (Hmt & Hwt & Hbt & Hwi & Hbi & Hmtg & Hov & Hmtg' & Hmt') Hm Hpos.
  unfold in_int, INT_MIN, INT_MAX in *.
  unfold compute_time_budget.
  set (ov := Z.max 0 (EngineConfig.move_overhead_ms cfg)).
  assert (Hov' : 0 <= ov <= 2147483647) by (subst ov; lia).
  rewrite Z.geb_leb.
  destruct (Z.leb_spec 0 (SearchLimits.movetime_ms limits)) as [? | _]; [lia|].
  fold (my_time_of limits stm). fold (my_inc_of limits stm).
  assert (Htime : in_int (my_time_of limits stm))
    by (unfold in_int, INT_MIN, INT_MAX; destruct stm; cbn; lia).
  assert (Hinc : in_int (my_inc_of limits stm))
    by (unfold in_int, INT_MIN, INT_MAX; destruct stm; cbn; lia).
  unfold in_int, INT_MIN, INT_MAX in Htime, Hinc.
  set (mt := my_time_of limits stm) in *. set (mi := my_inc_of limits stm) in *.
  destruct (Z.ltb_spec mt 0) as [? | _]; [lia|].
  unfold clock_budget. cbn [fst snd].
  replace (Z.max 0 mt) with mt by lia.
  rewrite (to_int_id (mt - ov)) by (unfold in_int, INT_MIN, INT_MAX; lia).
  set (av := Z.max 0 (mt - ov)). set (inc := Z.max 0 mi).
  assert (Hav : 0 <= av <= 2147483647) by (subst av; lia).
  assert (Hi : 0 <= inc <= 2147483647) by (subst inc; lia).
  rewrite !Z.gtb_ltb.
  set (mtg := if 0 <? SearchLimits.movestogo limits
              then SearchLimits.movestogo limits else 64).
  assert (Hg : 1 <= mtg < 2147483647)
    by (subst mtg; destruct (Z.ltb_spec 0 (SearchLimits.movestogo limits)); lia).
  rewrite (to_int_id (mtg + 1)) by (unfold in_int, INT_MIN, INT_MAX; lia).
  rewrite (quot_nonneg_div av) by lia.
  pose proof (div_bounds av (mtg + 1) ltac:(lia) ltac:(lia)) as Hs1.
  rewrite (to_long_long_id (0 + av / (mtg + 1))) by lia.
  rewrite (to_long_long_id (inc * 6)) by lia.
  rewrite (quot_nonneg_div (inc * 6)) by lia.
  pose proof (div_bounds (inc * 6) 10 ltac:(lia) ltac:(lia)) as Hs2.
  replace (6 * inc) with (inc * 6) by lia.
  set (soft := av / (mtg + 1) + inc * 6 / 10).
  replace (0 + av / (mtg + 1) + inc * 6 / 10) with soft by (subst soft; lia).
  assert (Hsoft : 0 <= soft <= 2 ^ 35) by (subst soft; lia).
  rewrite (to_long_long_id soft) by lia.
  rewrite (to_long_long_id (soft * 2)) by lia.
  rewrite (to_long_long_id (soft * 4)) by lia.
  rewrite (quot_nonneg_div mt) by lia.
  pose proof (div_bounds mt 4 ltac:(lia) ltac:(lia)) as Hq.
  replace (soft * 2) with (2 * soft) by lia.
  replace (soft * 4) with (4 * soft) by lia.
  set (hard := Z.min (Z.min (Z.min (2 * soft) av) (mt / 4)) (4 * soft)).
  assert (Hhard : 0 <= hard <= 2147483647) by (subst hard; lia).
  destruct (Z.ltb_spec hard 0) as [? | _]; [lia|].
  destruct (Z.ltb_spec soft 0) as [? | _]; [lia|].
  assert (Hmin : (if hard <? soft then hard else soft) = Z.min soft hard)
    by (destruct (Z.ltb_spec hard soft); lia).
  rewrite Hmin. rewrite !Z.mul_1_r.
  rewrite (to_long_long_id (Z.min soft hard)) by lia.
  rewrite (to_long_long_id hard) by lia.
  rewrite (to_int_id (Z.min soft hard)) by (unfold in_int, INT_MIN, INT_MAX; lia).
  rewrite (to_int_id hard) by (unfold in_int, INT_MIN, INT_MAX; lia).
  reflexivity.
Qed.

(** X11: the budget never plans past the time there is.  With a move time
    the hard limit plus the overhead is at most the move time (or the limit
    is 0 when the overhead is larger); with a clock the hard limit is at
    most a quarter of the remaining time and, with the overhead, at most
    the remaining time; with less than 4 ms on the clock, or no more than
    the overhead, both limits are 0. *)
Theorem time_budget_within_clock (limits : SearchLimits.t) (stm : Color)
    (cfg : EngineConfig.t) (Hr : limits_in_range limits cfg) :
  let tb := compute_time_budget limits stm cfg in
  (0 <= SearchLimits.movetime_ms limits ->
   TimeBudget.hard_ms tb
   = Z.max 0 (SearchLimits.movetime_ms limits - TimeBudget.overhead_ms tb)) /\
  (SearchLimits.movetime_ms limits < 0 -> 0 <= my_time_of limits stm ->
   4 * TimeBudget.hard_ms tb <= my_time_of limits stm /\
   TimeBudget.hard_ms tb
   <= Z.max 0 (my_time_of limits stm - TimeBudget.overhead_ms tb) /\
   (my_time_of limits stm < 4 \/ my_time_of limits stm <= TimeBudget.overhead_ms tb ->
    TimeBudget.soft_ms tb = 0 /\ TimeBudget.hard_ms tb = 0)).
Proof.
  cbv zeta. split.
  - intros Hm. rewrite (compute_time_budget_movetime limits stm cfg Hr Hm).
    reflexivity.
  - intros Hm Hpos. rewrite (compute_time_budget_clock limits stm cfg Hr Hm Hpos).
    cbn [TimeBudget.hard_ms TimeBudget.soft_ms TimeBudget.overhead_ms].
    unfold clock_budget. cbn [fst snd].
    set (ov := Z.max 0 (EngineConfig.move_overhead_ms cfg)).
    set (mt := my_time_of limits stm) in *.
    set (av := Z.max 0 (mt - ov)).
    set (mtg := if 0 <? SearchLimits.movestogo limits
                then SearchLimits.movestogo limits else 64).
    assert (Hg : 1 <= mtg)
      by (subst mtg; destruct (Z.ltb_spec 0 (SearchLimits.movestogo limits)); lia).
    set (soft := av / (mtg + 1) + 6 * Z.max 0 (my_inc_of limits stm) / 10).
    assert (0 <= av / (mtg + 1)) by (apply Z.div_pos; lia).
    assert (0 <= 6 * Z.max 0 (my_inc_of limits stm) / 10) by (apply Z.div_pos; lia).
    assert (Hq : 4 * (mt / 4) <= mt) by (apply Z.mul_div_le; lia).
    assert (0 <= mt / 4) by (apply Z.div_pos; lia).
    split; [lia|]. split; [lia|].
    intros [Hs | Hs].
    + assert (mt / 4 = 0) by (apply Z.div_small; lia). lia.
    + assert (av = 0) by lia. lia.
Qed.

Lemma time_budget_within_clock_witness :
  TimeBudget.hard_ms (compute_time_budget short_movetime WHITE default_overhead)
  = Z.max 0 (10 - 20) /\
  (4 * TimeBudget.hard_ms (compute_time_budget negative_increment WHITE default_overhead)
   <= 1000 /\
   TimeBudget.hard_ms (compute_time_budget negative_increment WHITE default_overhead)
   <= Z.max 0 (1000 - 20)) /\
  (TimeBudget.soft_ms (compute_time_budget three_ms_left BLACK default_overhead) = 0 /\
   TimeBudget.hard_ms (compute_time_budget three_ms_left BLACK default_overhead) = 0).
Proof.
  assert (Hr : forall l, In l [short_movetime; negative_increment; three_ms_left] ->
                         limits_in_range l default_overhead).
  { intros l [<- | [<- | [<- | []]]];
      unfold limits_in_range, in_int, INT_MIN, INT_MAX; cbn; lia. }
  split; [| split].
  - apply (proj1 (time_budget_within_clock short_movetime WHITE default_overhead
                    (Hr _ ltac:(cbn; tauto)))).
    cbn. lia.
  - pose proof (proj2 (time_budget_within_clock negative_increment WHITE default_overhead
                         (Hr _ ltac:(cbn; tauto)))) as H.
    cbv zeta in H. destruct H as (H1 & H2 & _); [cbn; lia | cbn; lia|].
    split; [exact H1 | exact H2].
  - pose proof (proj2 (time_budget_within_clock three_ms_left BLACK default_overhead
                         (Hr _ ltac:(cbn; tauto)))) as H.
    cbv zeta in H. destruct H as (_ & _ & H3); [cbn; lia | cbn; lia|].
    apply H3. left. cbn. lia.
Defined.

Lemma clock_budget_mono t1 t2 i1 i2 mtg ov :
  0 <= t1 <= t2 -> i1 <= i2 -> 0 <= ov ->
  fst (clock_budget t1 i1 mtg ov) <= fst (clock_budget t2 i2 mtg ov) /\
  snd (clock_budget t1 i1 mtg ov) <= snd (clock_budget t2 i2 mtg ov).
Proof.
  intros Ht Hi Hov. unfold clock_budget. cbn [fst snd].
  set (g := if 0 <? mtg then mtg else 64).
  assert (Hg : 1 <= g) by (subst g; destruct (Z.ltb_spec 0 mtg); lia).
  assert (H1 : Z.max 0 (t1 - ov) / (g + 1) <= Z.max 0 (t2 - ov) / (g + 1))
    by (apply Z.div_le_mono; lia).
  assert (H2 : 6 * Z.max 0 i1 / 10 <= 6 * Z.max 0 i2 / 10)
    by (apply Z.div_le_mono; lia).
  assert (H3 : t1 / 4 <= t2 / 4) by (apply Z.div_le_mono; lia).
  lia.
Qed.

(** X12: with a clock, the budget grows with the time and the increment:
    of two requests that differ only in that the second has at least as
    much remaining time and increment, the second gets at least as large a
    soft and a hard limit. *)
Theorem time_budget_monotone (l1 l2 : SearchLimits.t) (stm : Color)
    (cfg : EngineConfig.t)
    (Hr1 : limits_in_range l1 cfg) (Hr2 : limits_in_range l2 cfg)
    (Hm1 : SearchLimits.movetime_ms l1 < 0) (Hm2 : SearchLimits.movetime_ms l2 < 0)
    (Hg : SearchLimits.movestogo l1 = SearchLimits.movestogo l2)
    (Ht : 0 <= my_time_of l1 stm <= my_time_of l2 stm)
    (Hi : my_inc_of l1 stm <= my_inc_of l2 stm) :
  TimeBudget.soft_ms (compute_time_budget l1 stm cfg)
  <= TimeBudget.soft_ms (compute_time_budget l2 stm cfg) /\
  TimeBudget.hard_ms (compute_time_budget l1 stm cfg)
  <= TimeBudget.hard_ms (compute_time_budget l2 stm cfg).
Proof.
  rewrite (compute_time_budget_clock l1 stm cfg Hr1 Hm1) by lia.
  rewrite (compute_time_budget_clock l2 stm cfg Hr2 Hm2) by lia.
  cbn [TimeBudget.soft_ms TimeBudget.hard_ms]. rewrite Hg.
  apply clock_budget_mono; lia.
Qed.

Lemma time_budget_monotone_witness :
  TimeBudget.soft_ms (compute_time_budget negative_increment WHITE default_overhead)
  <= TimeBudget.soft_ms (compute_time_budget one_minute_each WHITE default_overhead) /\
  TimeBudget.hard_ms (compute_time_budget negative_increment WHITE default_overhead)
  <= TimeBudget.hard_ms (compute_time_budget one_minute_each WHITE default_overhead).
Proof.
  apply (time_budget_monotone negative_increment one_minute_each WHITE default_overhead);
    try (unfold limits_in_range, in_int, INT_MIN, INT_MAX; cbn; lia);
    reflexivity.
Defined.

(** ** Iterative deepener: what an iteration hands on *)

Section IterationProofs.
Context {World : Type}.
Variable find_best_move :
  World -> Z -> Z -> Z -> Move -> Z -> World * RootSearch.t.

(** The loop, entered with at least one try to go, leaves the outcome of
    its last attempt in the locals; the attempts before it all failed. *)
Lemma aspiration_tries_last (n : nat) depth have_prev prev_score :
  forall w window alpha beta mv sc ok0 log,
  exists init last,
    let it := aspiration_tries find_best_move (S n) depth have_prev prev_score
                w window alpha beta mv sc ok0 log in
    Iteration.attempts it = log ++ init ++ [last] /\
    Forall fails init /\
    Iteration.ok it = Attempt.ok last /\
    Iteration.iter_best_score it = Attempt.score last /\
    Attempt.forced last = false /\
    (Iteration.in_window it = true ->
     Attempt.ok last = true /\ Attempt.alpha last < Attempt.score last < Attempt.beta last) /\
    (Iteration.in_window it = false -> Iteration.ok it = true -> fails last).
Proof.
  induction n as [| n IH]; intros w window alpha beta mv sc ok0 log.
  - cbn [aspiration_tries].
    destruct (find_best_move w depth alpha beta mv sc) as [w' [rok rstopped rmv score]].
    cbn [RootSearch.ok RootSearch.stopped RootSearch.best_move_out RootSearch.best_score_out].
    set (ok := if rstopped then false else rok).
    exists [], (Attempt.mk window alpha beta false ok score). cbv zeta.
    destruct ok eqn:Hok; cbn [negb].
    + destruct (Z.leb_spec score alpha) as [Hlo | Hlo];
        [| destruct (Z.geb_spec score beta) as [Hhi | Hhi]];
        cbn [Iteration.attempts Iteration.ok Iteration.iter_best_score Iteration.in_window
             Attempt.ok Attempt.score Attempt.forced Attempt.alpha Attempt.beta app];
        (repeat split; try constructor; try discriminate; try reflexivity);
        unfold fails; cbn [Attempt.ok Attempt.score Attempt.alpha Attempt.beta];
        intros; try lia; split; auto; lia.
    + cbn [Iteration.attempts Iteration.ok Iteration.iter_best_score Iteration.in_window
           Attempt.ok Attempt.score Attempt.forced Attempt.alpha Attempt.beta app].
      repeat split; try constructor; try discriminate; reflexivity.
  - cbn [aspiration_tries].
    destruct (find_best_move w depth alpha beta mv sc) as [w' [rok rstopped rmv score]].
    cbn [RootSearch.ok RootSearch.stopped RootSearch.best_move_out RootSearch.best_score_out].
    set (ok := if rstopped then false else rok).
    set (a := Attempt.mk window alpha beta false ok score).
    assert (Hretry : fails a ->
      exists init last,
        let it := aspiration_tries find_best_move (S n) depth have_prev prev_score w'
                    (to_int (window * 2))
                    (if have_prev then to_int (prev_score - to_int (window * 2))
                     else - SCORE_INF)
                    (if have_prev then to_int (prev_score + to_int (window * 2))
                     else SCORE_INF)
                    rmv score ok (log ++ [a]) in
        Iteration.attempts it = log ++ init ++ [last] /\
        Forall fails init /\
        Iteration.ok it = Attempt.ok last /\
        Iteration.iter_best_score it = Attempt.score last /\
        Attempt.forced last = false /\
        (Iteration.in_window it = true ->
         Attempt.ok last = true /\
         Attempt.alpha last < Attempt.score last < Attempt.beta last) /\
        (Iteration.in_window it = false -> Iteration.ok it = true -> fails last)).
    { intros Hf.
      destruct (IH w' (to_int (window * 2))
                  (if have_prev then to_int (prev_score - to_int (window * 2))
                   else - SCORE_INF)
                  (if have_prev then to_int (prev_score + to_int (window * 2))
                   else SCORE_INF)
                  rmv score ok (log ++ [a])) as (init & last & H).
      cbv zeta in H. destruct H as (Hatt & Hfs & Hrest).
      exists (a :: init), last. cbv zeta.
      split; [rewrite Hatt, <- app_assoc; reflexivity|].
      split; [now constructor | exact Hrest]. }
    destruct ok eqn:Hok; cbn [negb].
    + destruct (Z.leb_spec score alpha) as [Hlo | Hlo];
        [| destruct (Z.geb_spec score beta) as [Hhi | Hhi]].
      * apply Hretry. split; [reflexivity | left; exact Hlo].
      * apply Hretry. split; [reflexivity | right; cbn; lia].
      * exists [], a. cbv zeta.
        cbn [Iteration.attempts Iteration.ok Iteration.iter_best_score Iteration.in_window
             Attempt.ok Attempt.score Attempt.forced Attempt.alpha Attempt.beta app a].
        repeat split; try constructor; try discriminate; try reflexivity; lia.
    + exists [], a. cbv zeta.
      cbn [Iteration.attempts Iteration.ok Iteration.iter_best_score Iteration.in_window
           Attempt.ok Attempt.score Attempt.forced Attempt.alpha Attempt.beta app a].
      repeat split; try constructor; try discriminate; reflexivity.
Qed.
End IterationProofs.

(** An iteration ends on its last attempt, and an accepted one on an
    attempt inside its window or on the forced one. *)
Lemma iteration_ends_on_last_attempt {World : Type}
    (find_best_move : World -> Z -> Z -> Z -> Move -> Z -> World * RootSearch.t)
    (depth_to_search : Z) (have_prev : bool) (prev_score : Z) (w : World) :
  exists init last,
    let it := search_iteration find_best_move depth_to_search have_prev prev_score w in
    Iteration.attempts it = init ++ [last] /\
    Forall fails init /\
    Iteration.ok it = Attempt.ok last /\
    Iteration.iter_best_score it = Attempt.score last /\
    Iteration.in_window it = Iteration.ok it /\
    (Iteration.ok it = true ->
     (Attempt.forced last = true /\
      Attempt.alpha last = - SCORE_INF /\ Attempt.beta last = SCORE_INF) \/
     (Attempt.forced last = false /\
      Attempt.alpha last < Attempt.score last < Attempt.beta last)).
Proof.
  unfold search_iteration.
  set (narrow := have_prev && (Z.abs prev_score <? MATE_BOUND)).
  set (alpha0 := if narrow then to_int (prev_score - 50) else - SCORE_INF).
  set (beta0 := if narrow then to_int (prev_score + 50) else SCORE_INF).
  destruct (aspiration_tries_last find_best_move 4 depth_to_search have_prev prev_score
              w 50 alpha0 beta0 NO_MOVE 0 false [])
    as (init & last & H).
  cbv zeta in H.
  set (it := aspiration_tries find_best_move 5 depth_to_search have_prev prev_score
               w 50 alpha0 beta0 NO_MOVE 0 false []) in *.
  cbn [app] in H. destruct H as (Hatt & Hfs & Hok & Hsc & Hfo & Hin & Hout).
  destruct (Iteration.ok it) eqn:Eok; cbn [andb].
  - destruct (Iteration.in_window it) eqn:Ein; cbn [negb].
    + exists init, last. cbv zeta. rewrite Eok, Ein.
      repeat split; try assumption; try reflexivity.
      intros _. right. split; [exact Hfo | now apply Hin].
    + destruct (find_best_move (Iteration.world it) depth_to_search (- SCORE_INF) SCORE_INF
                  (Iteration.iter_best_move it) (Iteration.iter_best_score it))
        as [w' r].
      eexists (init ++ [last]), _. cbv zeta.
      cbn [Iteration.attempts Iteration.ok Iteration.iter_best_score Iteration.in_window].
      rewrite Hatt. split; [reflexivity|].
      cbn [Attempt.ok Attempt.score Attempt.forced Attempt.alpha Attempt.beta].
      split.
      { apply Forall_app. split; [exact Hfs|]. constructor; [| constructor].
        now apply Hout. }
      repeat split. intros _. left. repeat split.
  - exists init, last. cbv zeta. rewrite Eok.
    destruct (Iteration.in_window it) eqn:Ein.
    + destruct (Hin eq_refl) as [Ht _]. congruence.
    + repeat split; try assumption; try reflexivity. discriminate.
Qed.

(** X13: an iteration ends on its last call of the root search.  The calls
    before it are the attempts that failed low or high; the last call is
    made in the world they left, and the world, the move, the score and the
    [ok] flag the iteration hands on are what that call returned ([ok]
    being false when the call was stopped), with [in_window] equal to
    [ok].  When the iteration is accepted, the score that call returned is
    strictly inside the bounds it was called with, or the call was the
    forced full-window search: a score that only bounds the value is never
    handed on. *)
Theorem accepted_iteration_is_exact {World : Type}
    (find_best_move : World -> Z -> Z -> Z -> Move -> Z -> World * RootSearch.t)
    (depth_to_search : Z) (have_prev : bool) (prev_score : Z) (w : World) :
  exists init last w0 mv0 sc0 r,
    let it := search_iteration find_best_move depth_to_search have_prev prev_score w in
    Iteration.attempts it = init ++ [last] /\
    attempts_run find_best_move depth_to_search w NO_MOVE 0 init w0 mv0 sc0 /\
    Forall fails init /\
    find_best_move w0 depth_to_search (Attempt.alpha last) (Attempt.beta last) mv0 sc0
    = (Iteration.world it, r) /\
    Iteration.iter_best_move it = RootSearch.best_move_out r /\
    Iteration.iter_best_score it = RootSearch.best_score_out r /\
    Iteration.ok it = (if RootSearch.stopped r then false else RootSearch.ok r) /\
    Iteration.in_window it = Iteration.ok it /\
    (Iteration.ok it = true ->
     (Attempt.forced last = true /\
      Attempt.alpha last = - SCORE_INF /\ Attempt.beta last = SCORE_INF) \/
     (Attempt.forced last = false /\
      Attempt.alpha last < RootSearch.best_score_out r < Attempt.beta last)).
Proof.
  destruct (iteration_ends_on_last_attempt find_best_move depth_to_search have_prev
              prev_score w) as (init & last & H).
  cbv zeta in H. destruct H as (Hatt & Hfs & Hok & Hsc & Hin & Hacc).
  pose proof (search_iteration_run find_best_move depth_to_search have_prev prev_score w)
    as Hrun.
  rewrite Hatt in Hrun.
  destruct (attempts_run_last find_best_move depth_to_search init last _ _ _ _ _ _ Hrun)
    as (w0 & mv0 & sc0 & r & Hinit & Hcall & Hmv & Hsc' & Hokl & Hscl).
  exists init, last, w0, mv0, sc0, r. cbv zeta.
  split; [exact Hatt|]. split; [exact Hinit|]. split; [exact Hfs|].
  split; [exact Hcall|]. split; [exact Hmv|]. split; [exact Hsc'|].
  split; [now rewrite Hok|]. split; [exact Hin|].
  intros Ht. rewrite <- Hscl. now apply Hacc.
Qed.

(** ** Mate scores in the deepener and in the UCI output *)

Lemma tries_shape_head have_prev prev_score n window alpha beta tries :
  tries_shape have_prev prev_score (S n) window alpha beta tries ->
  exists a rest, tries = a :: rest /\
    Attempt.window a = window /\ Attempt.alpha a = alpha /\ Attempt.beta a = beta /\
    Attempt.forced a = false.
Proof. intros H. inversion H; subst; eauto 10. Qed.

Lemma is_mate_score_abs s : is_mate_score s = negb (Z.abs s <? MATE_BOUND).
Proof.
  unfold is_mate_score, MATE_BOUND, MATE_SCORE.
  destruct (Z.geb_spec s (1000000 - 1000)), (Z.leb_spec s (- (1000000 - 1000))),
    (Z.ltb_spec (Z.abs s) (1000000 - 1000)); cbn; try reflexivity; lia.
Qed.

(** The first attempt of an iteration has window 50, around the previous
    score when there is one that is no mate score. *)
Lemma first_attempt_window {World : Type}
    (find_best_move : World -> Z -> Z -> Z -> Move -> Z -> World * RootSearch.t)
    (depth_to_search : Z) (have_prev : bool) (prev_score : Z) (w : World) :
  exists a rest,
    Iteration.attempts
      (search_iteration find_best_move depth_to_search have_prev prev_score w)
    = a :: rest /\
    Attempt.window a = 50 /\ Attempt.forced a = false /\
    (Attempt.alpha a, Attempt.beta a)
    = (if have_prev && negb (is_mate_score prev_score)
       then (prev_score - 50, prev_score + 50)
       else (- SCORE_INF, SCORE_INF)).
Proof.
  unfold search_iteration. rewrite is_mate_score_abs, negb_involutive.
  set (narrow := have_prev && (Z.abs prev_score <? MATE_BOUND)).
  set (alpha0 := if narrow then to_int (prev_score - 50) else - SCORE_INF).
  set (beta0 := if narrow then to_int (prev_score + 50) else SCORE_INF).
  assert (Hwin : (alpha0, beta0)
                 = (if narrow then (prev_score - 50, prev_score + 50)
                    else (- SCORE_INF, SCORE_INF))).
  { subst alpha0 beta0. destruct narrow eqn:En; [| reflexivity].
    apply andb_true_iff in En. destruct En as [_ En]. apply Z.ltb_lt in En.
    unfold MATE_BOUND, MATE_SCORE in En.
    rewrite !to_int_id by (unfold in_int, INT_MIN, INT_MAX; lia). reflexivity. }
  destruct (aspiration_tries_shape find_best_move 5 depth_to_search have_prev prev_score
              w 50 alpha0 beta0 NO_MOVE 0 false [])
    as (tries & Hatt & Hshape & _).
  cbn [app] in Hatt.
  destruct (tries_shape_head _ _ _ _ _ _ _ Hshape) as (a & rest & -> & Hw & Ha & Hb & Hf).
  set (it := aspiration_tries find_best_move 5 depth_to_search have_prev prev_score
               w 50 alpha0 beta0 NO_MOVE 0 false []) in *.
  assert (Hgoal : forall l, exists a' rest', (a :: rest) ++ l = a' :: rest' /\
            Attempt.window a' = 50 /\ Attempt.forced a' = false /\
            (Attempt.alpha a', Attempt.beta a')
            = (if narrow then (prev_score - 50, prev_score + 50)
               else (- SCORE_INF, SCORE_INF))).
  { intros l. exists a, (rest ++ l). rewrite Ha, Hb. auto. }
  destruct (Iteration.ok it && negb (Iteration.in_window it)).
  - destruct (find_best_move _ _ _ _ _ _) as [w' r].
    cbn [Iteration.attempts]. rewrite Hatt. apply Hgoal.
  - rewrite Hatt. destruct (Hgoal []) as (a' & rest' & He & H).
    rewrite app_nil_r in He. eauto.
Qed.

(** X14: every iteration opens with a call of the root search in the
    world it starts in, with no move and score 0 in the out-parameters and
    with the bounds of a try of window 50: [prev_score - 50] and
    [prev_score + 50] exactly when there is a previous score and it is not
    a mate score ([is_mate_score]), [-INF] and [INF] otherwise.  What the
    call returns is the outcome of the first try, and the rest of the
    iteration goes on from the world the call left. *)
Theorem first_try_window {World : Type}
    (find_best_move : World -> Z -> Z -> Z -> Move -> Z -> World * RootSearch.t)
    (depth_to_search : Z) (have_prev : bool) (prev_score : Z) (w : World) :
  exists a rest w1 r,
    let it := search_iteration find_best_move depth_to_search have_prev prev_score w in
    find_best_move w depth_to_search (Attempt.alpha a) (Attempt.beta a) NO_MOVE 0
    = (w1, r) /\
    (Attempt.alpha a, Attempt.beta a)
    = (if have_prev && negb (is_mate_score prev_score)
       then (prev_score - 50, prev_score + 50)
       else (- SCORE_INF, SCORE_INF)) /\
    Iteration.attempts it = a :: rest /\
    Attempt.window a = 50 /\ Attempt.forced a = false /\
    Attempt.ok a = (if RootSearch.stopped r then false else RootSearch.ok r) /\
    Attempt.score a = RootSearch.best_score_out r /\
    attempts_run find_best_move depth_to_search w1
      (RootSearch.best_move_out r) (RootSearch.best_score_out r) rest
      (Iteration.world it) (Iteration.iter_best_move it) (Iteration.iter_best_score it).
Proof.
  destruct (first_attempt_window find_best_move depth_to_search have_prev prev_score w)
    as (a & rest & Hatt & Hw & Hf & Hab).
  pose proof (search_iteration_run find_best_move depth_to_search have_prev prev_score w)
    as Hrun.
  rewrite Hatt in Hrun.
  inversion Hrun as [| ? ? ? ? w1 r ? ? ? ? Hcall Hok Hsc Hrest]; subst.
  exists a, rest, w1, r. cbv zeta. auto 10.
Qed.

(** X15: the formatter is symmetric in the two sides: negating a score
    negates the mate count and leaves the choice between [mate] and [cp]
    unchanged.  It prints [mate] for the mate scores of [is_mate_score]
    except the two on the bound itself, [+-MATE_BOUND], which it prints
    as centipawns. *)
Theorem mate_count_is_odd_function (s m : Z) (Hs : INT_MIN < s <= INT_MAX) :
  fst (score_to_mate_moves (- s) 0) = fst (score_to_mate_moves s 0) /\
  snd (score_to_mate_moves (- s) 0) = - snd (score_to_mate_moves s 0) /\
  fst (score_to_mate_moves s m) = is_mate_score s && negb (Z.abs s =? MATE_BOUND) /\
  (fst (score_to_mate_moves s m) = false -> snd (score_to_mate_moves s m) = m).
Proof.
  unfold INT_MIN, INT_MAX in Hs.
  assert (Hhalf : forall d, - 2 ^ 31 < d <= 2 ^ 31 - 2 ->
            to_int (- to_int ((to_int d + 1) ÷ 2)) = - to_int ((to_int d + 1) ÷ 2)).
  { intros d Hd. rewrite (to_int_id d) by (unfold in_int, INT_MIN, INT_MAX; lia).
    assert (- 2 ^ 30 <= (d + 1) ÷ 2 <= 2 ^ 30)
      by (Z.to_euclidean_division_equations; lia).
    rewrite (to_int_id ((d + 1) ÷ 2)) by (unfold in_int, INT_MIN, INT_MAX; lia).
    apply to_int_id. unfold in_int, INT_MIN, INT_MAX. lia. }
  unfold score_to_mate_moves, is_mate_score, UCI_MATE_BOUND, UCI_MATE_SCORE,
    MATE_BOUND, MATE_SCORE.
  rewrite !Z.gtb_ltb.
  destruct (Z.ltb_spec (1000000 - 1000) s), (Z.ltb_spec s (- (1000000 - 1000))),
    (Z.ltb_spec (1000000 - 1000) (- s)), (Z.ltb_spec (- s) (- (1000000 - 1000)));
    try lia; cbn [fst snd].
  - replace (1000000 + - s) with (1000000 - s) by lia.
    split; [reflexivity|]. split; [apply Hhalf; lia|]. split; [| discriminate].
    destruct (Z.geb_spec s (1000000 - 1000)); [| lia].
    destruct (Z.eqb_spec (Z.abs s) (1000000 - 1000)); [lia | reflexivity].
  - replace (1000000 - - s) with (1000000 + s) by lia.
    split; [reflexivity|]. split; [rewrite Hhalf by lia; lia|]. split; [| discriminate].
    destruct (Z.geb_spec s (1000000 - 1000)), (Z.leb_spec s (- (1000000 - 1000)));
      destruct (Z.eqb_spec (Z.abs s) (1000000 - 1000)); cbn; try reflexivity; lia.
  - repeat split; try reflexivity.
    destruct (Z.geb_spec s (1000000 - 1000)), (Z.leb_spec s (- (1000000 - 1000)));
      destruct (Z.eqb_spec (Z.abs s) (1000000 - 1000)); cbn; try reflexivity; lia.
Qed.

Lemma mate_count_is_odd_function_witness :
  fst (score_to_mate_moves (- 999993) 0) = fst (score_to_mate_moves 999993 0) /\
  snd (score_to_mate_moves (- 999993) 0) = - snd (score_to_mate_moves 999993 0) /\
  fst (score_to_mate_moves 999993 7) = is_mate_score 999993 && negb (Z.abs 999993 =? MATE_BOUND) /\
  snd (score_to_mate_moves 999000 7) = 7.
Proof.
  destruct (mate_count_is_odd_function 999993 7) as (H1 & H2 & H3 & _);
    [unfold INT_MIN, INT_MAX; lia|].
  destruct (mate_count_is_odd_function 999000 7) as (_ & _ & _ & H4);
    [unfold INT_MIN, INT_MAX; lia|].
  split; [exact H1|]. split; [exact H2|]. split; [exact H3|]. apply H4. reflexivity.
Defined.

(** ** The move after [bestmove]: the general case *)

Lemma string_app_nil_r (s : string) : (s ++ "")%string = s.
Proof. induction s as [| c s IH]; cbn; congruence. Qed.

Section BestMoveLegal.
Variable Board : Type.
Variable legalmoves : Board -> list Move.
Variable moveToUci : Move -> string.
Variable compute_ponder_move_depth1 : Board -> Move -> Move.

(** The move the worker settles on is the reported one if that is legal,
    and the first legal move otherwise. *)
Lemma worker_best_move (board : Board) (ok : bool) (result : SearchResult.t) :
legalmoves board <> [] ->
let best :=
  if ok && SearchResult.has_best_move result
  then ensure_legal_or_fallback Board legalmoves board (SearchResult.best_move result)
  else pick_fallback_legal_move Board legalmoves board in
In best (legalmoves board) /\
best = (if ok && SearchResult.has_best_move result
           && move_in_list (SearchResult.best_move result) (legalmoves board)
        then SearchResult.best_move result
        else hd NO_MOVE (legalmoves board)).
Proof.
intros Hne. cbv zeta. unfold ensure_legal_or_fallback, pick_fallback_legal_move.
destruct (legalmoves board) as [| m0 rest] eqn:E; [contradiction|].
destruct (ok && SearchResult.has_best_move result); cbn [andb hd].
- destruct (move_in_list (SearchResult.best_move result) (m0 :: rest)) eqn:Hin.
  + split; [now apply move_in_list_In | reflexivity].
  + split; [now left | reflexivity].
- split; [now left | reflexivity].
Qed.

(** X16: on a position with a legal move, the worker sends nothing when its
  output is suppressed or when a ponder search ends otherwise than by
  [stop]; else it sends exactly one line, [bestmove m], where [m] is a
  legal move: the move the search reported if the search succeeded and
  that move is legal, the first legal move otherwise.  A [ponder] move
  follows only after a normal search with the [Ponder] option on, and
  only if the depth-1 search found one. *)
Theorem worker_reply_names_a_legal_move
  (legal_not_null : forall b m, In m (legalmoves b) -> m <> NO_MOVE)
  (pondering_mode : bool) (reason : StopReason.t) (suppress_bestmove : bool)
  (config : EngineConfig.t) (search_board : Board) (ok : bool)
  (result : SearchResult.t)
  (Hlegal : legalmoves search_board <> []) :
if replies pondering_mode reason suppress_bestmove then
  exists best tail,
    worker_reply Board legalmoves moveToUci compute_ponder_move_depth1
      pondering_mode reason suppress_bestmove config search_board ok result
    = [("bestmove " ++ moveToUci best ++ tail)%string] /\
    In best (legalmoves search_board) /\
    best = (if ok && SearchResult.has_best_move result
               && move_in_list (SearchResult.best_move result) (legalmoves search_board)
            then SearchResult.best_move result
            else hd NO_MOVE (legalmoves search_board)) /\
    tail = (if negb pondering_mode && EngineConfig.ponder config
               && negb (compute_ponder_move_depth1 search_board best =? NO_MOVE)
            then (" ponder " ++ moveToUci (compute_ponder_move_depth1 search_board best))%string
            else ""%string)
else
  worker_reply Board legalmoves moveToUci compute_ponder_move_depth1
    pondering_mode reason suppress_bestmove config search_board ok result = [].
Proof.
destruct (worker_best_move search_board ok result Hlegal) as [Hin Hbest].
cbv zeta in Hin, Hbest.
unfold replies, worker_reply.
set (best := if ok && SearchResult.has_best_move result
             then ensure_legal_or_fallback Board legalmoves search_board
                    (SearchResult.best_move result)
             else pick_fallback_legal_move Board legalmoves search_board) in *.
assert (Hnn : (best =? NO_MOVE) = false).
{ apply Z.eqb_neq. now apply (legal_not_null search_board). }
destruct pondering_mode; cbn [negb andb].
- destruct (StopReason.is_StopCmd reason && negb suppress_bestmove); [| reflexivity].
  rewrite Hnn. exists best, ""%string.
  rewrite string_app_nil_r. auto.
- destruct suppress_bestmove; cbn [negb]; [reflexivity|].
  rewrite Hnn. unfold print_search_output.
  destruct (EngineConfig.ponder config); cbn [andb].
  + destruct (compute_ponder_move_depth1 search_board best =? NO_MOVE) eqn:Ep;
      cbn [negb].
    * exists best, ""%string. rewrite Ep, string_app_nil_r. auto.
    * exists best,
        (" ponder " ++ moveToUci (compute_ponder_move_depth1 search_board best))%string.
      rewrite Ep, string_app_assoc. auto.
  + exists best, ""%string. rewrite string_app_nil_r. auto.
Qed.
End BestMoveLegal.

Lemma worker_reply_names_a_legal_move_witness :
  exists best tail,
    worker_reply bool example_legalmoves string_of_int (fun _ _ => 9)
      false StopReason.None false (EngineConfig.mk 20 true) true true
      (SearchResult.mk 12 9 true)
    = [("bestmove " ++ string_of_int best ++ tail)%string] /\
    In best (example_legalmoves true) /\
    best = 9 /\
    tail = " ponder 9"%string.
Proof.
  exact (worker_reply_names_a_legal_move bool example_legalmoves string_of_int
           (fun _ _ => 9) example_legal_not_null
           false StopReason.None false (EngineConfig.mk 20 true) true true
           (SearchResult.mk 12 9 true) ltac:(discriminate)).
Defined.

(** ** Iterative deepener: the loop over depths *)

Section DeepeningProofs.
Context {World : Type}.
Variable find_best_move :
  World -> Z -> Z -> Z -> Move -> Z -> World * RootSearch.t.
Variable last_has_best_move : World -> bool.
Variable hard_deadline_passed : World -> World * bool.
Variable soft_expired : World -> World * bool.
Variable external_stop : World -> World * bool.
Variable update_soft_deadline : World -> Z -> Move -> World.
Variable on_iter : World -> Z -> Z -> Move -> bool -> World.
Variable wait_for_stop : World -> World.
Variable max_depth : Z.
Variable keep : bool.
Hypothesis max_depth_int : max_depth <= INT_MAX.







End DeepeningProofs.



(** ** Principal variation from the table *)

Lemma member_In (x : Z) (l : list Z) : member x l = true <-> In x l.
Proof.
  induction l as [| y l IH]; cbn; [split; [discriminate | tauto]|].
  rewrite orb_true_iff, IH, Z.eqb_eq. split; (intros [H | H]; [left | right]); auto.
Qed.

Section PrincipalVariationProofs.
Variable Board : Type.
Variable legalmoves : Board -> list Move.
Variable makeMove : Board -> Move -> Board.
Variable hash : Board -> Z.
Variable moveToUci : Move -> string.

Lemma is_legal_move_spec (board : Board) (mv : Move) :
is_legal_move Board legalmoves board mv = true <->
mv <> NO_MOVE /\ In mv (legalmoves board).
Proof.
unfold is_legal_move. destruct (Z.eqb_spec mv NO_MOVE) as [E | E].
- split; [discriminate | tauto].
- rewrite move_in_list_In. tauto.
Qed.

(** The loop extends the line by moves of the table that are legal, and
  never into a position whose hash it has seen. *)
Lemma pv_loop_spec (tt : TranspositionTable) (Hwf : tt_wf tt) (n : nat) :
forall (root : Board) (seen : list Z) (pv : string) (line : list Move),
exists ext,
  pv_loop Board legalmoves makeMove hash moveToUci n tt root seen pv line
  = Ok ((pv ++ pv_tail moveToUci ext)%string, line ++ ext) /\
  (length ext <= n)%nat /\
  playable Board legalmoves makeMove root ext /\
  NoDup (map hash (positions Board makeMove root ext)) /\
  (forall h, In h (map hash (positions Board makeMove root ext)) -> ~ In h seen) /\
  table_line Board makeMove hash tt root ext.
Proof.
assert (Hstop : forall (root : Board) (seen : list Z) pv (line : list Move) (k : nat),
  exists ext,
    @Ok (string * list Move) (pv, line)
    = Ok ((pv ++ pv_tail moveToUci ext)%string, line ++ ext) /\
    (length ext <= k)%nat /\
    playable Board legalmoves makeMove root ext /\
    NoDup (map hash (positions Board makeMove root ext)) /\
    (forall h, In h (map hash (positions Board makeMove root ext)) -> ~ In h seen) /\
    table_line Board makeMove hash tt root ext).
{ intros root seen pv line k. exists []. cbn.
  rewrite string_app_nil_r, app_nil_r.
  repeat split; auto; try lia; try constructor. }
induction n as [| n IH]; intros root seen pv line; [apply Hstop|].
cbn [pv_loop].
destruct (probe_Ok tt (hash root) Hwf) as [r Hr]. rewrite Hr.
destruct r as [e |]; [| apply Hstop].
destruct (TTEntry.hasMove e) eqn:Hhas; cbn [negb]; [| apply Hstop].
destruct (is_legal_move Board legalmoves root (TTEntry.bestMove e)) eqn:Hlegal;
  cbn [negb]; [| apply Hstop].
destruct (member (hash (makeMove root (TTEntry.bestMove e))) seen) eqn:Hseen;
  [apply Hstop|].
set (mv := TTEntry.bestMove e) in *.
destruct (IH (makeMove root mv) (hash (makeMove root mv) :: seen)
            (pv ++ " " ++ moveToUci mv)%string (line ++ [mv]))
  as (ext & Hrun & Hlen & Hplay & Hnd & Hfresh & Htab).
apply is_legal_move_spec in Hlegal. destruct Hlegal as [Hnn Hin].
exists (mv :: ext). rewrite Hrun. cbn [pv_tail length playable positions map table_line].
split; [| split; [lia | split; [auto | split; [| split]]]].
- rewrite <- app_assoc. cbn [app]. now rewrite !string_app_assoc.
- constructor; [| exact Hnd]. intros Hh. apply list_elem_of_In in Hh.
  apply (Hfresh _ Hh). now left.
- intros h [<- | Hh].
  + intros Hs. apply member_In in Hs. congruence.
  + intros Hs. apply (Hfresh _ Hh). now right.
- split; [| exact Htab]. exists e. auto.
Qed.

(** X18: on a well-formed table, [build_pv_uci] answers the empty string
  when the root move is no move or illegal.  Otherwise it answers a line
  that starts with the root move and has at most [max(1, max_len)] moves,
  separated by single spaces; every move of it is legal where it is
  played; every later move is the table's move for its position; and no
  two of the positions reached have the same hash. *)
Theorem build_pv_uci_is_playable (tt : TranspositionTable) (root : Board)
  (root_best : Move) (max_len : Z) (Hwf : tt_wf tt) :
exists line,
  build_pv_uci Board legalmoves makeMove hash moveToUci root tt root_best max_len
  = Ok (pv_text moveToUci line, line) /\
  Z.of_nat (length line) <= Z.max 1 max_len /\
  playable Board legalmoves makeMove root line /\
  NoDup (map hash (positions Board makeMove root line)) /\
  match line with
  | [] => root_best = NO_MOVE \/ ~ In root_best (legalmoves root)
  | m0 :: rest =>
      m0 = root_best /\ table_line Board makeMove hash tt (makeMove root m0) rest
  end.
Proof.
unfold build_pv_uci.
destruct (Z.eqb_spec root_best NO_MOVE) as [E | E]; cbn [negb andb].
{ exists []. cbn. repeat split; auto; try lia. constructor. }
destruct (is_legal_move Board legalmoves root root_best) eqn:Hlegal.
- apply is_legal_move_spec in Hlegal. destruct Hlegal as [_ Hin].
  destruct (pv_loop_spec tt Hwf (Z.to_nat (max_len - (0 + 1))) (makeMove root root_best)
              [hash (makeMove root root_best)] (moveToUci root_best) [root_best])
    as (ext & Hrun & Hlen & Hplay & Hnd & Hfresh & Htab).
  exists (root_best :: ext). rewrite Hrun.
  cbn [pv_text app length playable positions map].
  split; [reflexivity|]. split; [lia|]. split; [auto|]. split; [| auto].
  constructor; [| exact Hnd]. intros Hh. apply list_elem_of_In in Hh.
  apply (Hfresh _ Hh). now left.
- exists []. cbn. split; [reflexivity|]. split; [lia|]. split; [exact I|].
  split; [constructor|]. right. intros Hin.
  assert (is_legal_move Board legalmoves root root_best = true)
    by (apply is_legal_move_spec; auto).
  congruence.
Qed.
End PrincipalVariationProofs.

Lemma table_with_move_wf : tt_wf table_with_move.
Proof.
  split; cbn; [lia | reflexivity|].
  repeat constructor; cbn; lia.
Qed.

Lemma build_pv_uci_is_playable_witness :
  exists line,
    build_pv_uci Z counting_moves counting_make counting_hash string_of_int
      0 table_with_move 1 16
    = Ok (pv_text string_of_int line, line) /\
    line = [1; 3] /\ pv_text string_of_int line = "1 3"%string /\
    playable Z counting_moves counting_make 0 line /\
    NoDup (map counting_hash (positions Z counting_make 0 line)).
Proof.
  destruct (build_pv_uci_is_playable Z counting_moves counting_make counting_hash
              string_of_int table_with_move 0 1 16 table_with_move_wf)
    as (line & Hrun & _ & Hplay & Hnd & _).
  exists line. split; [exact Hrun|].
  assert (Hl : line = [1; 3]).
  { assert (H : Ok (pv_text string_of_int line, line)
                = Ok ("1 3"%string, [1; 3]))
      by (rewrite <- Hrun; vm_compute; reflexivity).
    now inversion H. }
  split; [exact Hl|]. split; [rewrite Hl; reflexivity|]. split; [exact Hplay | exact Hnd].
Defined.

(** ** Text helpers of the UCI front end *)

(** [rtrim], read from the front of the string. *)
Lemma rtrim_index_cons (c : ascii) (s : string) (i : nat) :
  rtrim_index (String c s) (S i)
  = match rtrim_index s i with
    | O => if isspace c then O else 1%nat
    | S k => S (S k)
    end.
Proof.
  induction i as [| i IH].
  - cbn. destruct (isspace c); reflexivity.
  - cbn [rtrim_index]. change (String.get (S i) (String c s)) with (String.get i s).
    destruct (String.get i s) as [x |]; [| reflexivity].
    destruct (isspace x); [exact IH | reflexivity].
Qed.

Lemma rtrim_cons (c : ascii) (s : string) :
  rtrim (String c s)
  = match rtrim s with
    | EmptyString => if isspace c then EmptyString else String c EmptyString
    | r => String c r
    end.
Proof.
  unfold rtrim at 1. cbn [String.length]. rewrite rtrim_index_cons.
  destruct s as [| x s'].
  - cbn. destruct (isspace c); reflexivity.
  - unfold rtrim. set (k := rtrim_index (String x s') (String.length (String x s'))).
    destruct k as [| k].
    + cbn. destruct (isspace c); reflexivity.
    + reflexivity.
Qed.

Lemma rtrim_spec (s : string) :
  exists r, s = (rtrim s ++ r)%string /\ all_space r = true /\
            (forall c, last_char (rtrim s) = Some c -> isspace c = false).
Proof.
  induction s as [| c s (r & Hs & Hr & Hl)].
  - exists ""%string. cbn. repeat split; auto. discriminate.
  - rewrite rtrim_cons. destruct (rtrim s) as [| x t] eqn:Et.
    + destruct (isspace c) eqn:Ec.
      * exists (String c s). cbn [append all_space last_char]. rewrite Ec.
        cbn [append] in Hs. subst r. cbn [andb].
        split; [reflexivity|]. split; [exact Hr | discriminate].
      * exists r. cbn [append last_char]. cbn [append] in Hs. subst r.
        split; [reflexivity|]. split; [exact Hr|].
        intros c' H. inversion H; subst. exact Ec.
    + exists r. change ((String c (String x t) ++ r)%string)
        with (String c (String x t ++ r)%string).
      split; [now rewrite <- Hs|]. split; [exact Hr|].
      intros c' H. apply Hl. exact H.
Qed.

Lemma ltrim_spec (s : string) :
  exists l, s = (l ++ ltrim s)%string /\ all_space l = true /\
            (forall c, first_char (ltrim s) = Some c -> isspace c = false).
Proof.
  induction s as [| c s (l & Hs & Hl & Hf)].
  - exists ""%string. cbn. repeat split; auto. discriminate.
  - cbn [ltrim]. destruct (isspace c) eqn:Ec.
    + exists (String c l). cbn. rewrite Ec, <- Hs. auto.
    + exists ""%string. cbn. repeat split; auto.
      intros c' H. now inversion H; subst.
Qed.

Lemma rtrim_first_inv (s : string) (c : ascii) :
  first_char (rtrim s) = Some c -> first_char s = Some c.
Proof.
  destruct s as [| x s]; [cbn; discriminate|]. rewrite rtrim_cons.
  destruct (rtrim s); [destruct (isspace x); [cbn; discriminate|]|]; cbn; auto.
Qed.

Lemma ltrim_id (s : string) :
  (forall c, first_char s = Some c -> isspace c = false) -> ltrim s = s.
Proof.
  destruct s as [| x s]; [reflexivity|]. intros H. cbn.
  now rewrite (H x eq_refl).
Qed.

Lemma rtrim_id (s : string) :
  (forall c, last_char s = Some c -> isspace c = false) -> rtrim s = s.
Proof.
  induction s as [| x s IH]; [reflexivity|]. intros H. rewrite rtrim_cons.
  destruct s as [| y s'].
  - cbn. now rewrite (H x eq_refl).
  - rewrite IH; [reflexivity|]. intros c Hc. apply H. exact Hc.
Qed.

Lemma trim_id (s : string) : no_space_at_ends s -> trim s = s.
Proof.
  intros [Hf Hl]. unfold trim. rewrite (ltrim_id s Hf). now apply rtrim_id.
Qed.

(** X19: [trim] removes white space from the two ends and nothing else:
    the input is the result with white space before and after it, the
    result neither starts nor ends with white space, and trimming a second
    time changes nothing. *)
Theorem trim_strips_exactly_the_ends (s : string) :
  (exists l r, s = (l ++ trim s ++ r)%string /\ all_space l = true /\ all_space r = true) /\
  no_space_at_ends (trim s) /\
  trim (trim s) = trim s.
Proof.
  destruct (ltrim_spec s) as (l & Hs & Hl & Hf).
  destruct (rtrim_spec (ltrim s)) as (r & Hs' & Hr & Hlast).
  assert (Hends : no_space_at_ends (trim s)).
  { split; [| exact Hlast]. intros c Hc. apply Hf. now apply rtrim_first_inv. }
  split; [| split; [exact Hends | now apply trim_id]].
  exists l, r. unfold trim. rewrite <- Hs'. auto.
Qed.

(** ** Reading a stream word by word *)

Lemma take_word_words (s : string) :
  forall c, isspace c = false ->
    words (String c s) = fst (take_word (String c s)) :: words (snd (take_word (String c s))) /\
    (String.length (snd (take_word (String c s))) <= String.length s)%nat.
Proof.
  induction s as [| c' s IH]; intros c Hc.
  - cbn. rewrite Hc. cbn. auto.
  - destruct (isspace c') eqn:Hc'.
    + cbn [take_word words]. rewrite Hc, Hc'. cbn [fst snd].
      split; [cbn [words]; rewrite ?Hc'; reflexivity | lia].
    + destruct (IH c' Hc') as [Hw Hl].
      change (take_word (String c (String c' s)))
        with (if isspace c then (EmptyString, String c (String c' s))
              else let '(w, r) := take_word (String c' s) in (String c w, r)).
      rewrite Hc. destruct (take_word (String c' s)) as [w r] eqn:Et.
      cbn [fst snd] in *.
      change (words (String c (String c' s)))
        with (if isspace c then words (String c' s)
              else if isspace c' then String c EmptyString :: words (String c' s)
                   else match words (String c' s) with
                        | w :: rest => String c w :: rest
                        | [] => [String c EmptyString]
                        end).
      rewrite Hc, Hc', Hw. split; [reflexivity|]. cbn [String.length]. lia.
Qed.

Lemma ltrim_words (s : string) : words (ltrim s) = words s.
Proof.
  induction s as [| c s IH]; [reflexivity|]. cbn [ltrim].
  destruct (isspace c) eqn:Hc; [| reflexivity].
  rewrite IH. cbn [words]. now rewrite Hc.
Qed.

Lemma ltrim_length (s : string) : (String.length (ltrim s) <= String.length s)%nat.
Proof.
  induction s as [| c s IH]; [cbn; lia|]. cbn [ltrim].
  destruct (isspace c); cbn [String.length]; lia.
Qed.

(** A token read is the first word, and leaves the other words unread. *)
Lemma read_token_words (iss : string) :
  match read_token iss with
  | None => words iss = []
  | Some (w, r) =>
      words iss = w :: words r /\ (String.length r < String.length iss)%nat
  end.
Proof.
  unfold read_token. pose proof (ltrim_words iss) as Hw.
  pose proof (ltrim_length iss) as Hl.
  destruct (ltrim_spec iss) as (_ & _ & _ & Hf).
  destruct (ltrim iss) as [| c s] eqn:El.
  - now rewrite <- Hw.
  - assert (Hc : isspace c = false) by (apply Hf; reflexivity).
    destruct (take_word_words s c Hc) as [Hws Hlen].
    destruct (take_word (String c s)) as [w r]. cbn [fst snd] in *.
    rewrite <- Hw, Hws. split; [reflexivity|]. cbn [String.length] in Hl. lia.
Qed.

Lemma words_length (s : string) : (length (words s) <= String.length s)%nat.
Proof.
  remember (String.length s) as n eqn:En. revert s En.
  induction n as [n IH] using lt_wf_ind. intros s ->.
  pose proof (read_token_words s) as H.
  destruct (read_token s) as [[w r] |].
  - destruct H as [-> Hlt]. cbn [length].
    specialize (IH _ Hlt r eq_refl). lia.
  - rewrite H. cbn. lia.
Qed.

Lemma words_all_space (r : string) : all_space r = true -> words r = [].
Proof.
  induction r as [| c r IH]; [reflexivity|]. cbn. intros H.
  apply andb_true_iff in H. destruct H as [Hc Hr]. rewrite Hc. now apply IH.
Qed.

Lemma words_app_space (a r : string) :
  all_space r = true -> words (a ++ r) = words a.
Proof.
  intros Hr. induction a as [| c a IH].
  - cbn. now apply words_all_space.
  - change ((String c a ++ r)%string) with (String c (a ++ r)%string).
    cbn [words]. rewrite IH. destruct (isspace c); [reflexivity|].
    destruct a as [| c' a'].
    + cbn [append]. destruct r as [| x r']; [reflexivity|].
      cbn in Hr. apply andb_true_iff in Hr. destruct Hr as [Hx Hr'].
      rewrite Hx. reflexivity.
    + reflexivity.
Qed.

Lemma string_length_app (a b : string) :
  String.length (a ++ b) = (String.length a + String.length b)%nat.
Proof. induction a as [| c a IH]; cbn; [reflexivity | now rewrite IH]. Qed.

Lemma trim_words (s : string) :
  words (trim s) = words s /\ (String.length (trim s) <= String.length s)%nat.
Proof.
  unfold trim. destruct (rtrim_spec (ltrim s)) as (r & Hs & Hr & _).
  pose proof (ltrim_length s) as Hl. split.
  - rewrite <- (ltrim_words s). rewrite Hs at 2. now rewrite words_app_space.
  - apply (f_equal String.length) in Hs. rewrite string_length_app in Hs. lia.
Qed.

(** ** The [position] command *)

Section PositionProofs.
Variable Board : Type.
Variable startpos : Board.
Variable from_fen : string -> Board.
Variable uciToMove : Board -> string -> Move.
Variable makeMove : Board -> Move -> Board.

Lemma position_moves_spec (fuel : nat) :
forall (iss : string) (board : Board) (n : Z),
(String.length iss < fuel)%nat ->
0 <= n -> n + Z.of_nat (String.length iss) <= INT_MAX ->
position_moves Board uciToMove makeMove fuel iss board n
= Some (n + Z.of_nat (fst (apply_moves Board uciToMove makeMove board (words iss))),
        snd (apply_moves Board uciToMove makeMove board (words iss))).
Proof.
induction fuel as [| fuel IH]; intros iss board n Hfuel Hn Hmax; [lia|].
cbn [position_moves]. pose proof (read_token_words iss) as Hw.
destruct (read_token iss) as [[w r] |].
- destruct Hw as [-> Hlt]. cbn [apply_moves].
  destruct (uciToMove board w =? NO_MOVE).
  + cbn [fst snd]. f_equal. f_equal. lia.
  + unfold INT_MAX in Hmax.
    rewrite (to_int_id (n + 1)) by (unfold in_int, INT_MIN, INT_MAX; lia).
    rewrite IH by (unfold INT_MAX; lia).
    destruct (apply_moves Board uciToMove makeMove (makeMove board (uciToMove board w))
                (words r)) as [k b].
    cbn [fst snd]. f_equal. f_equal. lia.
- rewrite Hw. cbn [apply_moves fst snd]. f_equal. f_equal. lia.
Qed.

Lemma position_after_board_spec (iss : string) (board : Board) :
Z.of_nat (String.length iss) <= INT_MAX ->
position_after_board Board uciToMove makeMove iss board 0
= Some (moves_after Board uciToMove makeMove board (words iss)).
Proof.
intros Hmax. unfold position_after_board, moves_after.
pose proof (read_token_words iss) as Hw.
destruct (read_token iss) as [[w r] |].
- destruct Hw as [-> Hlt]. destruct (w =? "moves")%string; cbn [negb]; [| reflexivity].
  rewrite position_moves_spec by lia.
  destruct (apply_moves Board uciToMove makeMove board (words r)) as [k b].
  reflexivity.
- now rewrite Hw.
Qed.

(** X20: the [position] command acts on the white-space separated words
  after the keyword.  [startpos], or [fen] and six more words, set the
  position up (a [fen] with fewer than six words, or any other first
  word, leaves the board as it was); then, if the next word is [moves],
  the moves after it are applied in order up to the first one that cannot
  be read, and their number is returned; the moves before that one stay
  applied. *)
Theorem handle_position_by_words (rest : string) (board : Board)
  (Hlen : Z.of_nat (String.length rest) <= INT_MAX) :
handle_position Board startpos from_fen uciToMove makeMove ("position" ++ rest) board
= Returns
    (Some (position_by_words Board startpos from_fen uciToMove makeMove (words rest) board)).
Proof.
unfold handle_position.
change (substr_from (String.length "position") ("position" ++ rest)) with (Returns rest).
cbv iota beta. f_equal.
destruct (trim_words rest) as [Hw0 Hl0]. rewrite <- Hw0.
set (iss0 := trim rest) in *.
assert (Hstep : forall iss, (String.length iss <= String.length iss0)%nat ->
          match read_token iss with
          | None => words iss = []
          | Some (w, r) =>
              words iss = w :: words r /\
              (String.length r <= String.length iss0)%nat /\
              Z.of_nat (String.length r) <= INT_MAX
          end).
{ intros iss Hle. pose proof (read_token_words iss) as H.
  destruct (read_token iss) as [[w r] |]; [| exact H].
  destruct H as [H1 H2]. split; [exact H1|]. split; lia. }
pose proof (Hstep iss0 ltac:(lia)) as H0.
destruct (read_token iss0) as [[token iss1] |].
2:{ rewrite H0. reflexivity. }
destruct H0 as (-> & Hl1 & Hm1). cbn [position_by_words].
destruct (token =? "startpos")%string; [now apply position_after_board_spec|].
destruct (token =? "fen")%string; [| reflexivity].
pose proof (Hstep iss1 Hl1) as H1.
destruct (read_token iss1) as [[f1 iss2] |]; [| now rewrite H1].
destruct H1 as (-> & Hl2 & Hm2).
pose proof (Hstep iss2 Hl2) as H2.
destruct (read_token iss2) as [[f2 iss3] |]; [| now rewrite H2].
destruct H2 as (-> & Hl3 & Hm3).
pose proof (Hstep iss3 Hl3) as H3.
destruct (read_token iss3) as [[f3 iss4] |]; [| now rewrite H3].
destruct H3 as (-> & Hl4 & Hm4).
pose proof (Hstep iss4 Hl4) as H4.
destruct (read_token iss4) as [[f4 iss5] |]; [| now rewrite H4].
destruct H4 as (-> & Hl5 & Hm5).
pose proof (Hstep iss5 Hl5) as H5.
destruct (read_token iss5) as [[f5 iss6] |]; [| now rewrite H5].
destruct H5 as (-> & Hl6 & Hm6).
pose proof (Hstep iss6 Hl6) as H6.
destruct (read_token iss6) as [[f6 iss7] |]; [| now rewrite H6].
destruct H6 as (-> & Hl7 & Hm7).
now apply position_after_board_spec.
Qed.
End PositionProofs.

Lemma handle_position_by_words_witness :
  handle_position Z 0 (fun _ => 1000) numeral_move add_move
    "position startpos moves 5 7 x 9" 3
  = Returns (Some (2, 12)) /\
  handle_position Z 0 (fun _ => 1000) numeral_move add_move
    "position fen a b c d e" 3
  = Returns (Some (0, 3)).
Proof.
  split.
  - exact (handle_position_by_words Z 0 (fun _ => 1000) numeral_move add_move
             " startpos moves 5 7 x 9" 3 ltac:(vm_compute; discriminate)).
  - exact (handle_position_by_words Z 0 (fun _ => 1000) numeral_move add_move
             " fen a b c d e" 3 ltac:(vm_compute; discriminate)).
Defined.

(** ** The [go] command *)

Lemma is_digit_not_space (c : ascii) : is_digit c = true -> isspace c = false.
Proof.
  destruct c as [[] [] [] [] [] [] [] []]; vm_compute; intros H;
    first [reflexivity | discriminate H].
Qed.

Lemma take_word_app (w r : string) :
  no_space w = true -> stops_word r = true -> take_word (w ++ r) = (w, r).
Proof.
  intros Hw Hr. induction w as [| c w IH].
  - cbn. destruct r as [| x r']; [reflexivity|]. cbn in Hr. cbn. now rewrite Hr.
  - cbn in Hw. apply andb_true_iff in Hw. destruct Hw as [Hc Hw].
    apply negb_true_iff in Hc.
    change (take_word (String c w ++ r))
      with (if isspace c then (EmptyString, String c (w ++ r)%string)
            else let '(w0, r0) := take_word (w ++ r) in (String c w0, r0)).
    rewrite Hc, (IH Hw). reflexivity.
Qed.

Lemma read_token_word (w r : string) :
  w <> EmptyString -> no_space w = true -> stops_word r = true ->
  read_token (" " ++ w ++ r) = Some (w, r).
Proof.
  intros Hne Hw Hr. unfold read_token.
  change (ltrim (" " ++ w ++ r)) with (ltrim (w ++ r)).
  destruct w as [| c w]; [contradiction|].
  pose proof Hw as Hw'. cbn in Hw'. apply andb_true_iff in Hw'. destruct Hw' as [Hc _].
  apply negb_true_iff in Hc.
  change (ltrim (String c w ++ r))
    with (if isspace c then ltrim (w ++ r) else String c (w ++ r)%string).
  rewrite Hc. change (String c (w ++ r)%string) with ((String c w ++ r)%string).
  now rewrite take_word_app.
Qed.

Lemma take_digits_app (ds r : string) :
  all_digits ds = true -> stops_word r = true -> take_digits (ds ++ r) = (ds, r).
Proof.
  intros Hd Hr. induction ds as [| c ds IH].
  - cbn. destruct r as [| x r']; [reflexivity|]. cbn in Hr. cbn.
    destruct (is_digit x) eqn:Ex; [| reflexivity].
    apply is_digit_not_space in Ex. congruence.
  - cbn in Hd. apply andb_true_iff in Hd. destruct Hd as [Hc Hd].
    change (take_digits (String c ds ++ r))
      with (if is_digit c then let '(d, r0) := take_digits (ds ++ r) in (String c d, r0)
            else (EmptyString, String c (ds ++ r)%string)).
    rewrite Hc, (IH Hd). reflexivity.
Qed.

Lemma uint_digits (d : Decimal.uint) : all_digits (NilEmpty.string_of_uint d) = true.
Proof. induction d; cbn; auto. Qed.

Lemma nzuint_digits (d : Decimal.uint) :
  all_digits (NilZero.string_of_uint d) = true /\
  NilZero.string_of_uint d <> EmptyString.
Proof.
  destruct d; cbn; (split; [try apply uint_digits; auto | discriminate]).
Qed.

(** A printed [int] is read back, up to where the text after it starts. *)
Lemma read_int_printed (z : Z) (r : string) :
  in_int z -> stops_word r = true ->
  read_int (" " ++ string_of_int z ++ r) = Some (z, r).
Proof.
  intros Hz Hr. unfold read_int.
  change (ltrim (" " ++ string_of_int z ++ r)) with (ltrim (string_of_int z ++ r)).
  pose proof (int_of_string_of_int z) as Hback.
  assert (Hrange : (INT_MIN <=? z) && (z <=? INT_MAX) = true).
  { unfold in_int in Hz. apply andb_true_iff. split; apply Z.leb_le; lia. }
  unfold string_of_int in *. destruct (Z.to_int z) as [d | d] eqn:Ez.
  - (* no sign *)
    cbn [NilZero.string_of_int] in *.
    destruct (nzuint_digits d) as [Hd Hne].
    destruct (NilZero.string_of_uint d) as [| c ds] eqn:Es; [contradiction|].
    pose proof Hd as Hd'. cbn in Hd'. apply andb_true_iff in Hd'. destruct Hd' as [Hc _].
    pose proof (is_digit_not_space c Hc) as Hsp.
    change (ltrim (String c ds ++ r))
      with (if isspace c then ltrim (ds ++ r) else String c (ds ++ r)%string).
    rewrite Hsp.
    assert (Hm : Ascii.eqb c "-" = false /\ Ascii.eqb c "+" = false).
    { split; apply Ascii.eqb_neq; intros ->; vm_compute in Hc; discriminate. }
    destruct Hm as [-> ->].
    change (String c (ds ++ r)%string) with ((String c ds ++ r)%string).
    rewrite take_digits_app by assumption.
    change (("" ++ String c ds)%string) with (String c ds).
    rewrite Hback. rewrite <- Ez, DecimalZ.of_to. cbv zeta. now rewrite Hrange.
  - (* minus *)
    cbn [NilZero.string_of_int] in *.
    destruct (nzuint_digits d) as [Hd Hne].
    change (ltrim (String "-" (NilZero.string_of_uint d) ++ r))
      with (String "-" (NilZero.string_of_uint d ++ r)%string).
    cbv beta iota. rewrite Ascii.eqb_refl. cbv beta iota.
    rewrite take_digits_app by assumption.
    destruct (NilZero.string_of_uint d) as [| c ds] eqn:Es; [contradiction|].
    change (("-" ++ String c ds)%string) with (String "-" (String c ds)).
    rewrite Hback. rewrite <- Ez, DecimalZ.of_to. cbv zeta. now rewrite Hrange.
Qed.

Lemma go_args_text_stops (args : list GoArg.t) : stops_word (go_args_text args) = true.
Proof. destruct args; reflexivity. Qed.

Lemma keyword_word (f : GoField.t) :
  GoField.keyword f <> EmptyString /\ no_space (GoField.keyword f) = true.
Proof. destruct f; split; (discriminate || reflexivity). Qed.

Lemma go_tokens_keyword (fuel : nat) (f : GoField.t) (r iss : string)
    (limits : SearchLimits.t) :
  read_token iss = Some (GoField.keyword f, r) ->
  go_tokens (S fuel) iss limits = go_number f r limits (go_tokens fuel).
Proof. intros H. cbn [go_tokens]. rewrite H. destruct f; reflexivity. Qed.

Lemma go_tokens_infinite (fuel : nat) (r iss : string) (limits : SearchLimits.t) :
  read_token iss = Some ("infinite"%string, r) ->
  go_tokens (S fuel) iss limits = go_tokens fuel r (set_infinite limits).
Proof. intros H. cbn [go_tokens]. rewrite H. reflexivity. Qed.

Lemma go_tokens_ponder (fuel : nat) (r iss : string) (limits : SearchLimits.t) :
  read_token iss = Some ("ponder"%string, r) ->
  go_tokens (S fuel) iss limits = go_tokens fuel r (set_ponder limits).
Proof. intros H. cbn [go_tokens]. rewrite H. reflexivity. Qed.

Lemma go_tokens_other (fuel : nat) (w r iss : string) (limits : SearchLimits.t) :
  read_token iss = Some (w, r) -> is_go_keyword w = false ->
  go_tokens (S fuel) iss limits = go_tokens fuel r limits.
Proof.
  intros H Hk. cbn [go_tokens]. rewrite H. unfold is_go_keyword in Hk.
  repeat (apply orb_false_iff in Hk; destruct Hk as [Hk ?]).
  repeat match goal with E : (_ =? _)%string = false |- _ => rewrite E; clear E end.
  reflexivity.
Qed.

(** The loop takes well-formed arguments one per pass. *)
Lemma go_tokens_args (args : list GoArg.t) :
  Forall go_arg_ok args ->
  forall (fuel : nat) (limits : SearchLimits.t) (tail : string),
  stops_word tail = true ->
  go_tokens (length args + fuel) (go_args_text args ++ tail) limits
  = go_tokens fuel tail (fold_left apply_go_arg args limits).
Proof.
  induction 1 as [| a args Ha Hargs IH]; intros fuel limits tail Htail; [reflexivity|].
  cbn [go_args_text length fold_left Nat.add].
  assert (Hnext : stops_word (go_args_text args ++ tail) = true).
  { destruct args; [exact Htail | reflexivity]. }
  destruct a as [f v | | | w]; cbn [go_arg_text apply_go_arg go_arg_ok] in *;
    rewrite !string_app_assoc.
  - destruct (keyword_word f) as [Hne Hns].
    rewrite (go_tokens_keyword (length args + fuel) f
               (" " ++ string_of_int v ++ go_args_text args ++ tail)%string)
      by (apply read_token_word; auto).
    unfold go_number. rewrite read_int_printed by assumption.
    now apply IH.
  - rewrite (go_tokens_infinite (length args + fuel) (go_args_text args ++ tail)%string)
      by (apply read_token_word; [discriminate | reflexivity | exact Hnext]).
    now apply IH.
  - rewrite (go_tokens_ponder (length args + fuel) (go_args_text args ++ tail)%string)
      by (apply read_token_word; [discriminate | reflexivity | exact Hnext]).
    now apply IH.
  - destruct Ha as (Hne & Hns & Hk).
    rewrite (go_tokens_other (length args + fuel) w (go_args_text args ++ tail)%string);
      [now apply IH | now apply read_token_word | exact Hk].
Qed.

Lemma take_digits_length (s : string) :
  (String.length (snd (take_digits s)) <= String.length s)%nat.
Proof.
  induction s as [| c s IH]; [cbn; lia|]. cbn [take_digits].
  destruct (is_digit c); [| cbn; lia].
  destruct (take_digits s) as [d r]. cbn [snd String.length] in *. lia.
Qed.

Lemma read_int_length (iss : string) (v : Z) (r : string) :
  read_int iss = Some (v, r) -> (String.length r <= String.length iss)%nat.
Proof.
  unfold read_int. pose proof (ltrim_length iss) as Hl.
  set (signed := match ltrim iss with
                 | EmptyString => (EmptyString, ltrim iss)
                 | String c s' =>
                     if Ascii.eqb c "-" then ("-"%string, s')
                     else if Ascii.eqb c "+" then (EmptyString, s')
                     else (EmptyString, ltrim iss)
                 end).
  assert (Hs : (String.length (snd signed) <= String.length iss)%nat).
  { subst signed. destruct (ltrim iss) as [| c s']; [cbn; lia|].
    cbn [String.length] in Hl.
    destruct (Ascii.eqb c "-"); [cbn; lia|].
    destruct (Ascii.eqb c "+"); cbn; lia. }
  destruct signed as [sign s]. cbn [snd] in Hs.
  pose proof (take_digits_length s) as Hd.
  destruct (take_digits s) as [digits rest]. cbn [snd] in Hd.
  destruct digits; [discriminate|].
  destruct (NilZero.int_of_string _); [| discriminate].
  cbv zeta. destruct (_ && _); [| discriminate].
  intros H. inversion H; subst. lia.
Qed.

(** The loop ends before its fuel does. *)
Lemma go_tokens_total (fuel : nat) :
  forall (iss : string) (limits : SearchLimits.t),
  (String.length iss < fuel)%nat ->
  exists l, go_tokens fuel iss limits = Some l.
Proof.
  induction fuel as [| fuel IH]; intros iss limits Hlen; [lia|].
  cbn [go_tokens]. pose proof (read_token_words iss) as Hw.
  destruct (read_token iss) as [[w r] |]; [| eauto].
  destruct Hw as [_ Hlt].
  assert (Hnum : forall f, exists l, go_number f r limits (go_tokens fuel) = Some l).
  { intros f. unfold go_number. destruct (read_int r) as [[v r'] |] eqn:Er; [| eauto].
    apply read_int_length in Er. apply IH. lia. }
  repeat match goal with
         | |- context [if ?c then _ else _] => destruct c; [apply Hnum || (apply IH; lia)|]
         end.
  apply IH. lia.
Qed.

(** More fuel than needed changes nothing. *)
Lemma go_tokens_fuel (f1 : nat) :
  forall (f2 : nat) (iss : string) (limits r1 r2 : SearchLimits.t),
  go_tokens f1 iss limits = Some r1 -> go_tokens f2 iss limits = Some r2 -> r1 = r2.
Proof.
  induction f1 as [| f1 IH]; intros f2 iss limits r1 r2; [discriminate|].
  destruct f2 as [| f2]; [discriminate|].
  cbn [go_tokens]. destruct (read_token iss) as [[w r] |]; [| congruence].
  assert (Hnum : forall f, go_number f r limits (go_tokens f1) = Some r1 ->
                           go_number f r limits (go_tokens f2) = Some r2 -> r1 = r2).
  { intros f. unfold go_number. destruct (read_int r) as [[v r'] |]; [apply IH | congruence]. }
  repeat match goal with
         | |- context [if ?c then _ else _] => destruct c; [apply Hnum || apply IH|]
         end.
  apply IH.
Qed.

Lemma ltrim_idempotent (s : string) : ltrim (ltrim s) = ltrim s.
Proof.
  destruct (ltrim_spec s) as (_ & _ & _ & Hf). now apply ltrim_id.
Qed.

Lemma go_tokens_ltrim (fuel : nat) (s : string) (limits : SearchLimits.t) :
  go_tokens fuel (ltrim s) limits = go_tokens fuel s limits.
Proof.
  destruct fuel as [| fuel]; [reflexivity|]. cbn [go_tokens].
  unfold read_token. now rewrite ltrim_idempotent.
Qed.

Lemma last_ok_tail (c : ascii) (s : string) : last_ok (String c s) -> last_ok s.
Proof.
  unfold last_ok. intros H x Hx. apply H. destruct s; [discriminate | exact Hx].
Qed.

Lemma last_ok_ltrim (s : string) : last_ok s -> last_ok (ltrim s).
Proof.
  induction s as [| c s IH]; [auto|]. intros H. cbn [ltrim].
  destruct (isspace c); [| exact H]. apply IH. now apply last_ok_tail in H.
Qed.

Lemma last_ok_app (a b : string) :
  b <> EmptyString -> last_ok b -> last_ok (a ++ b).
Proof.
  intros Hne Hb. induction a as [| c a IH]; [exact Hb|].
  intros x Hx. apply IH.
  change ((String c a ++ b)%string) with (String c (a ++ b)%string) in Hx.
  destruct (a ++ b)%string eqn:E; [| exact Hx].
  destruct a; [cbn in E; contradiction | discriminate].
Qed.

Lemma no_space_last_ok (w : string) : no_space w = true -> last_ok w.
Proof.
  induction w as [| c w IH]; [intros _ x; discriminate|].
  cbn. intros H. apply andb_true_iff in H. destruct H as [Hc Hw].
  apply negb_true_iff in Hc. intros x Hx. destruct w as [| c' w'].
  - inversion Hx; subst. exact Hc.
  - apply (IH Hw). exact Hx.
Qed.

Lemma all_digits_no_space (s : string) : all_digits s = true -> no_space s = true.
Proof.
  induction s as [| c s IH]; [reflexivity|]. cbn. intros H.
  apply andb_true_iff in H. destruct H as [Hc Hs].
  now rewrite (is_digit_not_space c Hc), IH.
Qed.

Lemma string_of_int_word (z : Z) :
  string_of_int z <> EmptyString /\ last_ok (string_of_int z).
Proof.
  unfold string_of_int. destruct (Z.to_int z) as [d | d]; cbn [NilZero.string_of_int];
    destruct (nzuint_digits d) as [Hd Hne].
  - split; [exact Hne|]. now apply no_space_last_ok, all_digits_no_space.
  - split; [discriminate|]. apply (last_ok_app "-"); [exact Hne|].
    now apply no_space_last_ok, all_digits_no_space.
Qed.

Lemma go_arg_text_word (a : GoArg.t) :
  go_arg_ok a -> go_arg_text a <> EmptyString /\ last_ok (go_arg_text a).
Proof.
  destruct a as [f v | | | w]; cbn [go_arg_ok go_arg_text].
  - intros _. destruct (string_of_int_word v) as [Hne Hl]. split.
    + destruct f; discriminate.
    + apply last_ok_app; [discriminate|]. apply (last_ok_app " "); assumption.
  - intros _. split; [discriminate | now apply no_space_last_ok].
  - intros _. split; [discriminate | now apply no_space_last_ok].
  - intros (Hne & Hns & _). split; [exact Hne | now apply no_space_last_ok].
Qed.

Lemma go_args_text_last_ok (args : list GoArg.t) (tail : string) :
  Forall go_arg_ok args -> last_ok tail -> last_ok (go_args_text args ++ tail).
Proof.
  induction 1 as [| a args Ha Hargs IH]; intros Ht; [exact Ht|].
  cbn [go_args_text]. rewrite !string_app_assoc.
  destruct (go_arg_text_word a Ha) as [Hne Hl].
  destruct (go_args_text args ++ tail)%string as [| c s] eqn:E.
  - rewrite string_app_nil_r. now apply (last_ok_app " ").
  - apply (last_ok_app " "); [destruct (go_arg_text a); [contradiction | discriminate]|].
    apply last_ok_app; [discriminate|]. now apply IH.
Qed.

(** What [parse_go_limits] makes of a text that does not end in white
    space is what the loop makes of it, with any fuel that suffices. *)
Lemma parse_go_limits_run (text : string) (fuel : nat) (l : SearchLimits.t) :
  last_ok text ->
  go_tokens fuel text SearchLimits.default = Some l ->
  parse_go_limits ("go" ++ text) = Returns (Some l).
Proof.
  intros Hlast Hrun. unfold parse_go_limits.
  change (substr_from (String.length "go") ("go" ++ text)) with (Returns text).
  cbv iota beta zeta. f_equal. unfold trim. rewrite (rtrim_id (ltrim text)) by now apply last_ok_ltrim.
  destruct (go_tokens_total (S (String.length (ltrim text))) (ltrim text)
              SearchLimits.default ltac:(lia)) as [l' Hl'].
  rewrite Hl'. f_equal. rewrite go_tokens_ltrim in Hl'.
  exact (go_tokens_fuel _ _ _ _ _ _ Hl' Hrun).
Qed.

(** X21: a [go] command is read back as it was written.  For arguments
    written with single spaces (a keyword with its number, [infinite],
    [ponder], or a word that is none of the keywords), [parse_go_limits]
    answers the default limits with the arguments applied in order, a later
    value for a field replacing an earlier one and the other words
    ignored. *)
Theorem parse_go_limits_reads_back (args : list GoArg.t)
    (Hok : Forall go_arg_ok args) :
  parse_go_limits (go_command args)
  = Returns (Some (fold_left apply_go_arg args SearchLimits.default)).
Proof.
  unfold go_command.
  apply (parse_go_limits_run (go_args_text args) (length args + 1)).
  - rewrite <- (string_app_nil_r (go_args_text args)).
    apply go_args_text_last_ok; [exact Hok | intros c H; discriminate].
  - rewrite <- (string_app_nil_r (go_args_text args)).
    rewrite (go_tokens_args args Hok 1 SearchLimits.default ""%string eq_refl).
    reflexivity.
Qed.

Lemma parse_go_limits_reads_back_witness :
  parse_go_limits "go wtime 60000 btime -5 nodes 7 winc 1000 ponder wtime 59000"
  = Returns (Some (SearchLimits.mk 0 (-1) 59000 (-5) 1000 0 (-1) false true)).
Proof.
  apply (parse_go_limits_reads_back
           [GoArg.number GoField.wtime 60000; GoArg.number GoField.btime (-5);
            GoArg.other "nodes"; GoArg.other "7";
            GoArg.number GoField.winc 1000; GoArg.ponder;
            GoArg.number GoField.wtime 59000]).
  repeat constructor; unfold INT_MIN, INT_MAX; try lia; discriminate.
Defined.

Lemma substr_from_length (pos : nat) (s : string) :
  match substr_from pos s with
  | OutOfRange => (String.length s < pos)%nat
  | Returns r => (pos <= String.length s)%nat
  end.
Proof.
  revert s. induction pos as [| pos IH]; intros s; [cbn; lia|].
  destruct s as [| c s]; [cbn; lia|]. cbn [substr_from String.length].
  specialize (IH s). destruct (substr_from pos s); lia.
Qed.

(** X22: [parse_go_limits] throws [std::out_of_range] exactly for a line
    shorter than the keyword [go] (which [main] never passes) and answers
    for every other line; and a number that cannot be read ends the
    parsing: when a keyword that takes a number is followed by something
    else, the arguments before the keyword are applied and everything
    after it is ignored. *)
Theorem parse_go_limits_stops_at_bad_number (args : list GoArg.t) (f : GoField.t)
    (junk : string)
    (Hok : Forall go_arg_ok args)
    (Hstart : stops_word junk = true) (Hend : last_ok junk)
    (Hbad : read_int junk = None) :
  (forall line,
     match parse_go_limits line with
     | OutOfRange => (String.length line < 2)%nat
     | Returns r => (2 <= String.length line)%nat /\ exists l, r = Some l
     end) /\
  parse_go_limits (go_command args ++ " " ++ GoField.keyword f ++ junk)
  = Returns (Some (fold_left apply_go_arg args SearchLimits.default)).
Proof.
  split.
  { intros line. unfold parse_go_limits.
    pose proof (substr_from_length (String.length "go") line) as Hl.
    destruct (substr_from (String.length "go") line) as [rest |]; [| exact Hl].
    split; [exact Hl|]. apply go_tokens_total. lia. }
  unfold go_command. rewrite string_app_assoc.
  destruct (keyword_word f) as [Hne Hns].
  apply (parse_go_limits_run _ (length args + 1)).
  - apply go_args_text_last_ok; [exact Hok|].
    apply (last_ok_app " "); [destruct f; discriminate|].
    destruct junk as [| c j].
    + rewrite string_app_nil_r. now apply no_space_last_ok.
    + apply last_ok_app; [discriminate | exact Hend].
  - rewrite (go_tokens_args args Hok 1 SearchLimits.default) by reflexivity.
    rewrite (go_tokens_keyword 0 f junk) by now apply read_token_word.
    unfold go_number. now rewrite Hbad.
Qed.

Lemma parse_go_limits_stops_at_bad_number_witness :
  (parse_go_limits "g" = OutOfRange /\
   parse_go_limits "go" = Returns (Some SearchLimits.default)) /\
  parse_go_limits go_with_bad_depth
  = Returns (Some (SearchLimits.mk 0 (-1) 1000 (-1) 0 0 (-1) false false)).
Proof.
  destruct (parse_go_limits_stops_at_bad_number
              [GoArg.number GoField.wtime 1000] GoField.depth " x btime 5")
    as [Hall Hrun].
  - repeat constructor; unfold INT_MIN, INT_MAX; lia.
  - reflexivity.
  - intros c H. vm_compute in H. inversion H; subst. reflexivity.
  - reflexivity.
  - split; [| exact Hrun]. split.
    + pose proof (Hall "g"%string) as H.
      destruct (parse_go_limits "g") as [r |]; [| reflexivity].
      destruct H as [H _]. cbn in H. lia.
    + reflexivity.
Defined.

(** ** Boolean option values *)

Lemma tolower_toupper (c : ascii) : tolower (toupper c) = tolower c.
Proof. destruct c as [[] [] [] [] [] [] [] []]; reflexivity. Qed.

Lemma tolower_idempotent (c : ascii) : tolower (tolower c) = tolower c.
Proof. destruct c as [[] [] [] [] [] [] [] []]; reflexivity. Qed.

Lemma to_lower_to_upper (v : string) : to_lower (to_upper v) = to_lower v.
Proof. induction v as [| c v IH]; cbn; [reflexivity | now rewrite tolower_toupper, IH]. Qed.

Lemma to_lower_idempotent (v : string) : to_lower (to_lower v) = to_lower v.
Proof.
  induction v as [| c v IH]; cbn; [reflexivity | now rewrite tolower_idempotent, IH].
Qed.

Lemma string_eqb_iff (a b : string) : (a =? b)%string = true <-> a = b.
Proof. apply String.eqb_eq. Qed.

(** X23: [parse_bool_option] ignores the case of letters: a value and its
    upper-case and lower-case forms are read alike, and the values read as
    true are the spellings of [1], [true], [yes] and [on] in any mix of
    cases, with nothing before or after. *)
Theorem parse_bool_option_ignores_case (v : string) :
  parse_bool_option (to_upper v) = parse_bool_option v /\
  parse_bool_option (to_lower v) = parse_bool_option v /\
  (parse_bool_option v = true <->
   In (to_lower v) ["1"; "true"; "yes"; "on"]%string).
Proof.
  unfold parse_bool_option. rewrite to_lower_to_upper, to_lower_idempotent.
  split; [reflexivity|]. split; [reflexivity|].
  rewrite !orb_true_iff, !string_eqb_iff. cbn [In]. intuition congruence.
Qed.

(** ** The entry points of the search *)

(** X24: what [search_position] hands to the deepener.  A positive [depth]
    wins over every other limit: the depth is searched without time control
    whatever the clock fields say.  Searching on at the maximum depth is
    asked for only by [infinite] or [ponder] without a depth, only with a
    stop flag to end it, and then with depth 128 and no time control.  Time
    control is on only when there is no depth, neither [infinite] nor
    [ponder], and a move time or a clock for the side to move; its
    deadlines are then the soft and hard limits of the time budget.  The
    control object is absent exactly when there is neither a stop flag nor
    time control. *)
Theorem search_position_modes (config_ : EngineConfig.t) (search_depth max_depth_timed : Z)
    (stm : Color) (limits : SearchLimits.t) (external_stop : bool) :
  let '(max_depth, control, keep) :=
    search_position recorded_call config_ search_depth max_depth_timed
      stm limits external_stop in
  let tb := compute_time_budget limits stm config_ in
  let timed := match control with
               | Some c => SearchControl.time_enabled c
               | None => false
               end in
  (0 < SearchLimits.depth limits ->
   max_depth = SearchLimits.depth limits /\ keep = false /\ timed = false) /\
  (keep = true <->
   SearchLimits.depth limits <= 0 /\
   (SearchLimits.infinite limits = true \/ SearchLimits.ponder limits = true) /\
   external_stop = true) /\
  (keep = true -> max_depth = 128 /\ timed = false) /\
  (timed = true <->
   SearchLimits.depth limits <= 0 /\
   SearchLimits.infinite limits = false /\ SearchLimits.ponder limits = false /\
   (0 <= SearchLimits.movetime_ms limits \/ 0 <= my_time_of limits stm)) /\
  (timed = true ->
   control = Some (SearchControl.mk true (Some (TimeBudget.soft_ms tb))
                     (Some (TimeBudget.hard_ms tb)) external_stop) /\
   max_depth = (if max_depth_timed >? 0 then max_depth_timed else search_depth)) /\
  (control = None <-> external_stop = false /\ timed = false).
Proof.
  unfold search_position, search_position_depth, recorded_call.
  assert (Hen : TimeBudget.enabled (compute_time_budget limits stm config_)
                = (0 <=? SearchLimits.movetime_ms limits) || (0 <=? my_time_of limits stm)).
  { unfold compute_time_budget, my_time_of. rewrite Z.geb_leb.
    destruct (Z.leb_spec 0 (SearchLimits.movetime_ms limits)); [reflexivity|].
    cbn [orb]. destruct stm.
    - destruct (Z.ltb_spec (SearchLimits.wtime_ms limits) 0),
        (Z.leb_spec 0 (SearchLimits.wtime_ms limits)); cbn; try reflexivity; lia.
    - destruct (Z.ltb_spec (SearchLimits.btime_ms limits) 0),
        (Z.leb_spec 0 (SearchLimits.btime_ms limits)); cbn; try reflexivity; lia. }
  rewrite Hen. clear Hen.
  destruct (Z.gtb_spec (SearchLimits.depth limits) 0) as [Hd | Hd].
  - destruct external_stop; cbn; repeat split; intros; try lia; try discriminate;
      try tauto; destruct_and?; try lia; try discriminate.
  - destruct (SearchLimits.infinite limits), (SearchLimits.ponder limits);
      cbn [orb]; cbv zeta;
      try (destruct external_stop; cbn; repeat split; intros; try lia;
           try discriminate; try tauto; destruct_and?; try discriminate;
           try (destruct_or?; discriminate); auto; fail).
    destruct (Z.leb_spec 0 (SearchLimits.movetime_ms limits)),
      (Z.leb_spec 0 (my_time_of limits stm)); cbn [orb negb];
      destruct external_stop; cbn; repeat split; intros; try lia; try discriminate;
      try tauto; destruct_and?; try discriminate; try (destruct_or?; lia); auto.
Qed.
